(** * Frame protocol, ring buffer and command dispatch of the STM32 PWM node

    A shallow embedding of the C++ sources
    ([proto_cpp/include/static_vec.h], [proto_cpp/include/circular_buffer.h],
    [proto_cpp/include/bytes.h], [proto_cpp/include/frame.h],
    [proto_cpp/src/frame.cpp], [Projekt/Core/Src/command_handler.cpp],
    [Projekt/Core/Src/commands.cpp], [Projekt/Core/Src/usart_tx_handler.cpp])
    together with the properties checked against the specification.

    Conventions.  A [uint8_t] is a [Z] in [0, 256); [size_t], [uint16_t],
    [uint32_t] and [uint64_t] values are [Z] with the wrap-around of the
    source type written out where an operation can leave the range.  A
    [std::span] is the list of the bytes it views. *)

From Stdlib Require Import ZArith Lia String Ascii DecimalString.
From stdpp Require Import base tactics option list list_numbers numbers.

Local Open Scope Z_scope.

(** ** static_vec.h *)

(** [StaticVec<T, SIZE>]: the logical contents [inner[0 .. head)] are kept as
    a list, [head] is its length; the capacity is the template parameter.
    The class never lets [head] exceed [SIZE]; [sv_new] and the operations
    below keep it so, and a statement about a vector that is given rather
    than built takes [size v <= SIZE] as a hypothesis. *)
Record StaticVec (T : Type) (SIZE : Z) := mkStaticVec { items : list T }.
Arguments mkStaticVec {T SIZE} _.
Arguments items {T SIZE} _.

(** [std::optional<T>::has_value()] *)
Definition has_value {A} (o : option A) : bool :=
  match o with Some _ => true | None => false end.

Section StaticVecOps.
Context {T : Type} {SIZE : Z}.
Implicit Type v : StaticVec T SIZE.

Definition sv_new : StaticVec T SIZE := mkStaticVec [].

Definition size v : Z := Z.of_nat (length (items v)).

Definition capacity v : Z := SIZE.

Definition span v : list T := items v.

Definition clear v : StaticVec T SIZE := mkStaticVec [].

(** [push_back]: [std::nullopt] on success, the rejected value otherwise. *)
Definition push_back v (val : T) : StaticVec T SIZE * option T :=
  if size v <? SIZE
  then (mkStaticVec (items v ++ [val]), None)
  else (v, Some val).

Definition pop_back v : StaticVec T SIZE * option T :=
  if 0 <? size v
  then (mkStaticVec (removelast (items v)), items v !! Z.to_nat (size v - 1))
  else (v, None).

(** The [for] loop of [push_slice]: stops at the first rejected push. *)
Fixpoint push_slice_loop v (data : list T) : StaticVec T SIZE :=
  match data with
  | [] => v
  | x :: rest =>
      let '(v', rejected) := push_back v x in
      if has_value rejected then v' else push_slice_loop v' rest
  end.

(** [push_slice]: [count] is initialised to 0, never written, and returned. *)
Definition push_slice v (data : list T) : StaticVec T SIZE * Z :=
  let count := 0 in
  (push_slice_loop v data, count).
End StaticVecOps.

(** A call whose result is discarded, as in [out.push_back(b);]. *)
Definition push_back_ {T SIZE} (v : StaticVec T SIZE) (val : T) : StaticVec T SIZE :=
  fst (push_back v val).

(** ** bytes.h *)

(** [std::bit_cast] to a byte array on the little-endian target. *)
Fixpoint to_le_bytes (w : nat) (n : Z) : list Z :=
  match w with
  | O => []
  | S k => n mod 256 :: to_le_bytes k (n / 256)
  end.

Fixpoint from_le_bytes (arr : list Z) : Z :=
  match arr with
  | [] => 0
  | b :: rest => b + 256 * from_le_bytes rest
  end.

(** [to_be_bytes<T>] and [from_be_bytes<T>] with [w = sizeof(T)]: the native
    (little-endian) representation, reversed. *)
Definition to_be_bytes (w : nat) (n : Z) : list Z := reverse (to_le_bytes w n).
Definition from_be_bytes (arr : list Z) : Z := from_le_bytes (reverse arr).

(** ** frame.h *)

Definition ESCAPE_BYTE : Z := 0x1B.
Definition BEGIN_FRAME_BYTE : Z := 0x28.  (* '(' *)
Definition END_FRAME_BYTE : Z := 0x29.    (* ')' *)

Definition ESCAPE_TABLE : list (Z * Z) :=
  [ (ESCAPE_BYTE, 0x41); (BEGIN_FRAME_BYTE, 0x42); (END_FRAME_BYTE, 0x43) ].

Definition FRAME_MAX_SIZE : Z := 1280.
Definition FRAME_MIN_SIZE : Z := 10.
Definition FRAME_DATA_MAX_SIZE : Z := FRAME_MAX_SIZE - FRAME_MIN_SIZE - 2.

Inductive DeserializeError :=
| DeserializeOk | InvalidStartByte | InvalidEndByte | UnexpectedEOF
| ExpectedEOF | CRC32MissMatch | InvalidEscapeSequence | DataTooBig
| InvalidByte.

Inductive SerializeError := SerializeOk | FrameTooLongError | BufferTooSmall.

Definition is_DeserializeOk (e : DeserializeError) : bool :=
  match e with DeserializeOk => true | _ => false end.

Definition is_SerializeOk (e : SerializeError) : bool :=
  match e with SerializeOk => true | _ => false end.

Record Frame := mkFrame {
  sender : Z;
  receiver : Z;
  data : StaticVec Z FRAME_DATA_MAX_SIZE
}.

Definition set_sender (f : Frame) (s : Z) : Frame := mkFrame s (receiver f) (data f).
Definition set_receiver (f : Frame) (r : Z) : Frame := mkFrame (sender f) r (data f).
Definition set_data (f : Frame) (d : StaticVec Z FRAME_DATA_MAX_SIZE) : Frame :=
  mkFrame (sender f) (receiver f) d.

(** ** frame.cpp: encoding *)

Section Encode.
Context {SIZE : Z}.
Implicit Type out : StaticVec Z SIZE.

Definition encode_byte (byte : Z) out : StaticVec Z SIZE :=
  match find (fun e => byte =? fst e) ESCAPE_TABLE with
  | Some e => push_back_ (push_back_ out ESCAPE_BYTE) (snd e)
  | None => push_back_ out byte
  end.

Definition encode_bytes (data : list Z) out : StaticVec Z SIZE :=
  fold_left (fun o b => encode_byte b o) data out.

(** The macro [serialize_field] stores a field as big-endian bytes and
    encodes them. *)
Definition serialize_field (w : nat) (field : Z) out : StaticVec Z SIZE :=
  encode_bytes (to_be_bytes w field) out.
End Encode.

(** [(std::uint16_t)frame.data.size()] *)
Definition data_len16 (f : Frame) : Z := size (data f) mod 65536.

Definition serialize_fields {SIZE} (frame : Frame) (out : StaticVec Z SIZE)
  : SerializeError * StaticVec Z SIZE :=
  let out := serialize_field 1 (sender frame) out in
  let out := serialize_field 1 (receiver frame) out in
  let out := serialize_field 2 (data_len16 frame) out in
  let out := encode_bytes (span (data frame)) out in
  (SerializeOk, out).

(** ** frame.cpp: CRC32 *)

Definition u32 (x : Z) : Z := x mod 2 ^ 32.

(** One turn of the inner [for (j = 0; j < 8; j++)] loop. *)
Definition crc32_bit (crc : Z) : Z :=
  let msb := Z.shiftr crc 31 in
  let crc := u32 (Z.shiftl crc 1) in
  Z.lxor crc (Z.land (u32 (0 - msb)) 0x04C11DB7).

(** One turn of the outer loop: xor the byte into the upper bits, then
    eight shift steps. *)
Definition crc32_byte (crc : Z) (byte : Z) : Z :=
  let crc := Z.lxor crc (u32 (Z.shiftl byte 24)) in
  Nat.iter 8 crc32_bit crc.

Definition crc32_calculate (data : list Z) : Z :=
  fold_left crc32_byte data 0xFFFFFFFF.

(** The padding loop [while (buf.size() % 4 != 0) buf.push_back(0)].  The
    capacity of [buf] is a multiple of 4, so at most three turns are taken
    before either the size is aligned or the vector is full and aligned. *)
Fixpoint crc32_pad {SIZE} (turns : nat) (buf : StaticVec Z SIZE) : StaticVec Z SIZE :=
  match turns with
  | O => buf
  | S k => if size buf mod 4 =? 0 then buf else crc32_pad k (push_back_ buf 0)
  end.

Definition crc32 (this : Frame) : Z :=
  let buf : StaticVec Z FRAME_MAX_SIZE := sv_new in
  let buf := fst (push_slice buf (to_be_bytes 1 (sender this))) in
  let buf := fst (push_slice buf (to_be_bytes 1 (receiver this))) in
  let buf := fst (push_slice buf (to_be_bytes 2 (data_len16 this))) in
  let buf := fst (push_slice buf (span (data this))) in
  let buf := crc32_pad 3 buf in
  crc32_calculate (span buf).

Definition serialize_into {SIZE} (this : Frame) (out : StaticVec Z SIZE)
  : SerializeError * StaticVec Z SIZE :=
  if size (data this) >? FRAME_DATA_MAX_SIZE then (FrameTooLongError, out) else
  let out := push_back_ out BEGIN_FRAME_BYTE in
  let '(err, out) := serialize_fields this out in
  if negb (is_SerializeOk err) then (err, out) else
  let crc := to_be_bytes 4 (crc32 this) in
  let out := encode_bytes crc out in
  let '(out, rejected) := push_back out END_FRAME_BYTE in
  let buffer_full := has_value rejected in
  if buffer_full then (BufferTooSmall, out) else (SerializeOk, out).

(** ** frame.cpp: decoding *)

(** Length of a span, as a [size_t]. *)
Definition lsize {A} (l : list A) : Z := Z.of_nat (length l).

(** [decode_byte(data, out, read)]: the two reference parameters are
    returned next to the error code; [out] keeps its old value on error. *)
Definition decode_byte (data : list Z) (out : Z) : DeserializeError * Z * Z :=
  let read := 0 in
  match data with
  | [] => (UnexpectedEOF, out, read)
  | d0 :: rest =>
      if d0 =? ESCAPE_BYTE then
        match rest with
        | [] => (UnexpectedEOF, out, read)
        | d1 :: _ =>
            match find (fun e => snd e =? d1) ESCAPE_TABLE with
            | Some e => (DeserializeOk, fst e, 2)
            | None => (InvalidEscapeSequence, out, read)
            end
        end
      else if (d0 =? BEGIN_FRAME_BYTE) || (d0 =? END_FRAME_BYTE) then
        (InvalidByte, out, read)
      else (DeserializeOk, d0, 1)
  end.

(** The [while (data.size())] loop of [decode_bytes].  Every turn consumes at
    least one byte, so [length data + 1] turns are enough; [None] means the
    turns ran out (see [decode_bytes_total]: this never happens). *)
Fixpoint decode_bytes_loop {SIZE} (turns : nat) (data : list Z) (decoded : Z)
    (out : StaticVec Z SIZE) : option (DeserializeError * StaticVec Z SIZE) :=
  match turns with
  | O => None
  | S turns' =>
      if lsize data =? 0 then Some (DeserializeOk, out) else
      let '(err, decoded, read) := decode_byte data decoded in
      if negb (is_DeserializeOk err) then Some (err, out) else
      let out := push_back_ out decoded in
      (* data = data.last(data.size() - read) *)
      decode_bytes_loop turns' (drop (Z.to_nat read) data) decoded out
  end.

Definition decode_bytes {SIZE} (data : list Z) (out : StaticVec Z SIZE)
  : option (DeserializeError * StaticVec Z SIZE) :=
  decode_bytes_loop (S (length data)) data 0 out.

(** [deserialize<T>(data, idx, result)] with [w = sizeof(T)]; returns the
    error code, the advanced [idx] and the value stored in [result]. *)
Definition deserialize (w : nat) (data : list Z) (idx : Z) (result : Z)
  : DeserializeError * Z * Z :=
  if idx + Z.of_nat w >? lsize data then (UnexpectedEOF, idx, result) else
  let bytes := take w (drop (Z.to_nat idx) data) in
  (DeserializeOk, idx + Z.of_nat w, from_be_bytes bytes).

Definition deserialize_from_decoded {SIZE} (this : Frame) (decoded : StaticVec Z SIZE)
  : DeserializeError * Frame :=
  let idx := 0 in
  let '(err, idx, v) := deserialize 1 (span decoded) idx (sender this) in
  if negb (is_DeserializeOk err) then (err, this) else
  let this := set_sender this v in
  let '(err, idx, v) := deserialize 1 (span decoded) idx (receiver this) in
  if negb (is_DeserializeOk err) then (err, this) else
  let this := set_receiver this v in
  let '(err, idx, data_len) := deserialize 2 (span decoded) idx 0 in
  if negb (is_DeserializeOk err) then (err, this) else
  if data_len >? FRAME_DATA_MAX_SIZE then (DataTooBig, this) else
  if idx + data_len >=? size decoded then (UnexpectedEOF, this) else
  let d := clear (data this) in
  let d := fst (push_slice d (take (Z.to_nat data_len) (drop (Z.to_nat idx) (span decoded)))) in
  let this := set_data this d in
  let idx := idx + data_len in
  let '(err, idx, crc) := deserialize 4 (span decoded) idx 0 in
  if negb (is_DeserializeOk err) then (err, this) else
  if negb (idx =? size decoded) then (ExpectedEOF, this) else
  if negb (crc =? crc32 this) then (CRC32MissMatch, this) else
  (DeserializeOk, this).

(** [Frame::deserialize_from(std::span<const uint8_t>)]. *)
Definition deserialize_from (this : Frame) (encoded : list Z)
  : option (DeserializeError * Frame) :=
  if lsize encoded <? FRAME_MIN_SIZE then Some (UnexpectedEOF, this) else
  if negb (encoded !!! 0%nat =? BEGIN_FRAME_BYTE) then Some (InvalidStartByte, this) else
  if negb (encoded !!! Z.to_nat (lsize encoded - 1) =? END_FRAME_BYTE)
  then Some (InvalidEndByte, this) else
  let decoded : StaticVec Z FRAME_MAX_SIZE := sv_new in
  let interior := take (Z.to_nat (lsize encoded - 2)) (drop 1 encoded) in
  match decode_bytes interior decoded with
  | None => None
  | Some (err, decoded) =>
      if negb (is_DeserializeOk err) then Some (err, this)
      else Some (deserialize_from_decoded this decoded)
  end.

(** [operator==(const Frame&, const Frame&)] *)
Definition Frame_eq (lhs rhs : Frame) : bool :=
  let lhs_data := span (data lhs) in
  let rhs_data := span (data rhs) in
  (sender lhs =? sender rhs) && (receiver lhs =? receiver rhs)
  && (lsize lhs_data =? lsize rhs_data) && bool_decide (lhs_data = rhs_data).

(** ** circular_buffer.h *)

(** [CircularBuffer<SIZE>]: the two cursors and the backing array.  The
    instances are objects of static storage duration, hence zero-initialised. *)
Record CircularBuffer (SIZE : Z) := mkCircularBuffer {
  tail : Z;
  head : Z;
  buf : list Z
}.
Arguments mkCircularBuffer {SIZE} _ _ _.
Arguments tail {SIZE} _.
Arguments head {SIZE} _.
Arguments buf {SIZE} _.

(** [a[i]] on an array viewed as a list. *)
Definition at_ (a : list Z) (i : Z) : Z := a !!! Z.to_nat i.

Section CircularBufferOps.
Context {SIZE : Z}.
Implicit Type cb : CircularBuffer SIZE.

Definition cb_new : CircularBuffer SIZE :=
  mkCircularBuffer 0 0 (replicate (Z.to_nat SIZE) 0).

Definition set_tail cb (t : Z) : CircularBuffer SIZE :=
  mkCircularBuffer t (head cb) (buf cb).

Definition push_head cb (val : Z) : CircularBuffer SIZE * option Z :=
  let incr_head := (head cb + 1) mod SIZE in
  if negb (incr_head =? tail cb)
  then (mkCircularBuffer (tail cb) incr_head (<[Z.to_nat (head cb) := val]> (buf cb)), None)
  else (cb, Some val).

Definition pop_tail cb : CircularBuffer SIZE * option Z :=
  if negb (tail cb =? head cb)
  then let byte := at_ (buf cb) (tail cb) in
       (mkCircularBuffer ((tail cb + 1) mod SIZE) (head cb) (buf cb), Some byte)
  else (cb, None).

(** A store through the pointer returned by [getNextAddr()]. *)
Definition store_next cb (val : Z) : CircularBuffer SIZE :=
  mkCircularBuffer (tail cb) (head cb) (<[Z.to_nat (head cb) := val]> (buf cb)).

Definition advance_head cb : CircularBuffer SIZE :=
  let head' := (head cb + 1) mod SIZE in
  if head' =? tail cb
  then mkCircularBuffer ((tail cb + 1) mod SIZE) head' (buf cb)
  else mkCircularBuffer (tail cb) head' (buf cb).

Definition getSize cb : Z :=
  if head cb >? tail cb then head cb - tail cb else SIZE - tail cb + head cb.

Definition getCapacity cb : Z := SIZE.
End CircularBufferOps.

(** ** frame.cpp: deserializing straight from the ring buffer *)

(** How the [while (idx != head)] loop of
    [Frame::deserialize_from(ICircularBuffer&)] is left: by [return err], or
    by falling out of the loop (condition false, or [break]). *)
Inductive RingDecode (SIZE : Z) :=
| RingReturn (err : DeserializeError)
| RingExit (idx : Z) (decoded : StaticVec Z SIZE).
Arguments RingReturn {SIZE} _.
Arguments RingExit {SIZE} _ _.

(** Every turn that goes round pushes one byte into [decoded], whose capacity
    is [DSIZE]; [turns] bounds the number of turns ([None]: ran out). *)
Fixpoint deserialize_ring_loop {DSIZE} (turns : nat) (buf : list Z) (head cap : Z)
    (idx : Z) (b : Z) (decoded : StaticVec Z DSIZE) : option (RingDecode DSIZE) :=
  match turns with
  | O => None
  | S turns' =>
      if idx =? head then Some (RingExit idx decoded) else
      let window := [at_ buf idx; at_ buf ((idx + 1) mod cap)] in
      if at_ buf idx =? END_FRAME_BYTE then Some (RingExit idx decoded) else
      let '(err, b, read) := decode_byte window b in
      if negb (is_DeserializeOk err) then Some (RingReturn err) else
      let '(decoded, rejected) := push_back decoded b in
      if has_value rejected then Some (RingReturn DataTooBig) else
      deserialize_ring_loop turns' buf head cap ((idx + read) mod cap) b decoded
  end.

(** [Frame::deserialize_from(ICircularBuffer&)] *)
Definition deserialize_from_ring {SIZE} (this : Frame) (circular_buffer : CircularBuffer SIZE)
  : option (DeserializeError * Frame) :=
  let buf := buf circular_buffer in
  if negb (at_ buf (tail circular_buffer) =? BEGIN_FRAME_BYTE)
  then Some (InvalidStartByte, this) else
  if getSize circular_buffer <? FRAME_MIN_SIZE then Some (UnexpectedEOF, this) else
  let decoded : StaticVec Z (FRAME_MAX_SIZE - 2) := sv_new in
  let tail := tail circular_buffer in
  let head := (if negb (head circular_buffer =? 0)
               then head circular_buffer
               else getCapacity circular_buffer) - 1 in
  let cap := getCapacity circular_buffer in
  let idx := (tail + 1) mod cap in
  match deserialize_ring_loop (Z.to_nat FRAME_MAX_SIZE) buf head cap idx 0 decoded with
  | None => None
  | Some (RingReturn err) => Some (err, this)
  | Some (RingExit idx decoded) =>
      if at_ buf idx =? END_FRAME_BYTE
      then Some (deserialize_from_decoded this decoded)
      else Some (UnexpectedEOF, this)
  end.

(** ** command_handler.cpp: [GetFrame] *)

(** What [GetFrame] does that the interrupt side can observe, in program
    order: masking and unmasking of interrupts, reads of buffer bytes, stores
    to the consumer cursor and the call of the decoder. *)
Inductive Event :=
| IrqDisable                 (* __disable_irq() *)
| IrqEnable                  (* __enable_irq() *)
| BufLoad (idx : Z)          (* a read of buf[idx] *)
| TailStore (t : Z)          (* tail = t *)
| DecodeCall.                (* frame.deserialize_from(gRxBuffer) *)

Section GetFrame.
Context {SIZE : Z}.
Implicit Type rx : CircularBuffer SIZE.

(** [while (buf[tail] != BEGIN_FRAME_BYTE && tail != head) tail = (tail + 1) % cap;] *)
Fixpoint seek_begin (turns : nat) rx : option (CircularBuffer SIZE * list Event) :=
  match turns with
  | O => None
  | S turns' =>
      if negb (at_ (buf rx) (tail rx) =? BEGIN_FRAME_BYTE) && negb (tail rx =? head rx)
      then
        let t := (tail rx + 1) mod getCapacity rx in
        match seek_begin turns' (set_tail rx t) with
        | Some (rx', events) => Some (rx', BufLoad (tail rx) :: TailStore t :: events)
        | None => None
        end
      else Some (rx, [BufLoad (tail rx)])
  end.

(** How the loop looking for [END_FRAME_BYTE] is left. *)
Inductive Scan :=
| AnotherBegin (idx : Z)   (* the [return std::nullopt] inside the loop *)
| ScanDone (idx : Z).      (* loop condition false *)

(** [while (idx != head && buf[idx] != END_FRAME_BYTE) { ... idx = (idx + 1) % cap; }] *)
Fixpoint scan_end (turns : nat) rx (idx : Z) : option (Scan * list Event) :=
  match turns with
  | O => None
  | S turns' =>
      if negb (idx =? head rx) then
        if negb (at_ (buf rx) idx =? END_FRAME_BYTE) then
          if at_ (buf rx) idx =? BEGIN_FRAME_BYTE
          then Some (AnotherBegin idx, [BufLoad idx; BufLoad idx])
          else
            match scan_end turns' rx ((idx + 1) mod getCapacity rx) with
            | Some (r, events) => Some (r, BufLoad idx :: BufLoad idx :: events)
            | None => None
            end
        else Some (ScanDone idx, [BufLoad idx])
      else Some (ScanDone idx, [])
  end.

(** [GetFrame()]: the frame, if any, the receive buffer afterwards, and the
    events in program order.  Both loops take at most [SIZE] turns. *)
Definition GetFrame (gRxBuffer : CircularBuffer SIZE)
  : option (option Frame * CircularBuffer SIZE * list Event) :=
  let cap := getCapacity gRxBuffer in
  let turns := S (Z.to_nat cap) in
  match seek_begin turns gRxBuffer with
  | None => None
  | Some (rx, ev1) =>
      if tail rx =? head rx
      then Some (None, rx, IrqDisable :: ev1 ++ [IrqEnable])
      else
        let idx := (tail rx + 1) mod cap in
        match scan_end turns rx idx with
        | None => None
        | Some (AnotherBegin idx, ev2) =>
            Some (None, set_tail rx idx,
                  IrqDisable :: ev1 ++ ev2 ++ [TailStore idx; IrqEnable])
        | Some (ScanDone idx, ev2) =>
            if (head rx =? idx) then
              Some (None, rx, IrqDisable :: ev1 ++ ev2 ++ [IrqEnable])
            else if negb (at_ (buf rx) idx =? END_FRAME_BYTE) then
              Some (None, rx, IrqDisable :: ev1 ++ ev2 ++ [BufLoad idx; IrqEnable])
            else
              let frame := mkFrame 0 0 sv_new in
              match deserialize_from_ring frame rx with
              | None => None
              | Some (err, frame) =>
                  let t := (idx + 1) mod cap in
                  let ev := IrqDisable :: ev1 ++ ev2
                            ++ [BufLoad idx; DecodeCall; TailStore t; IrqEnable] in
                  if is_DeserializeOk err
                  then Some (Some frame, set_tail rx t, ev)
                  else Some (None, set_tail rx t, ev)
              end
        end
  end.
End GetFrame.

(** ** error_codes.h *)

(** A string literal as the bytes it holds (without the terminating NUL). *)
Definition bytes_of_string (s : string) : list Z :=
  map (fun c => Z.of_N (N_of_ascii c)) (list_ascii_of_string s).

(** [std::string_view]: an object holding a pointer and a length; it is not
    a C string. *)
Record string_view := mk_string_view { chars : list Z }.

(** Two of the codes are declared [constexpr std::string_view], the others
    [constexpr const char*]. *)
Definition kUnknownCommand : string_view := mk_string_view (bytes_of_string "UNKNOWN_COMMAND").
Definition kInvalidArgument : string_view := mk_string_view (bytes_of_string "INVALID_ARGUMENT").
Definition kPwmOn : list Z := bytes_of_string "PWM_ON".
Definition kPwmOff : list Z := bytes_of_string "PWM_OFF".
Definition kFreqChanged : list Z := bytes_of_string "FREQ_CHANGED".
Definition kDutyCyclesChanged : list Z := bytes_of_string "DUTY_CYCLES_CHANGED".
Definition kInvalidFrequency : list Z := bytes_of_string "INVALID_FREQUENCY".
Definition kInvalidDutyCycle : list Z := bytes_of_string "INVALID_DUTY_CYCLE".
Definition kStatusResp : list Z := bytes_of_string "STATUS_RESP".

(** ** command_handler.h *)

Definition LOCAL_ID : Z := 100.

(** [using bytes = std::vector<std::uint8_t>] and [bytes_view]: both are the
    list of the bytes held or viewed. *)
Abbreviation bytes := (list Z) (only parsing).
Abbreviation bytes_view := (list Z) (only parsing).

(** [struct ParsedCommand { std::vector<bytes_view> args; }] *)
Abbreviation ParsedCommand := (list (list Z)) (only parsing).

Record DeviceState := mkDeviceState {
  dutyCycles : list Z;        (* std::vector<uint32_t>, initially { 0 } *)
  userDutyCycles : list Z;    (* std::vector<uint8_t> *)
  isPwmGenerated : bool
}.

Definition gDeviceState_init : DeviceState := mkDeviceState [0] [] false.

(** ** The C++ library and the hardware layer used by the handlers *)

(** [std::errc] values that [std::from_chars] can return. *)
Inductive errc := errc_ok | invalid_argument | result_out_of_range.

Definition errc_is_ok (e : errc) : bool :=
  match e with errc_ok => true | _ => false end.

Definition is_digit (c : Z) : bool := (48 <=? c) && (c <=? 57).

(** The longest prefix of decimal digits. *)
Fixpoint digit_prefix (s : list Z) : list Z :=
  match s with
  | c :: rest => if is_digit c then c :: digit_prefix rest else []
  | [] => []
  end.

Definition decimal_value (digits : list Z) : Z :=
  fold_left (fun acc c => 10 * acc + (c - 48)) digits 0.

(** [std::from_chars(first, last, value)] for [std::uint32_t], base 10, as
    the C++ standard defines it: no sign and no white space is accepted; the
    longest digit prefix is consumed; [value] is written only on success.
    Returns the offset of [ptr] from [first], [ec] and [value]. *)
Definition from_chars (s : list Z) (value : Z) : Z * errc * Z :=
  let digits := digit_prefix s in
  if lsize digits =? 0 then (0, invalid_argument, value)
  else if decimal_value digits >? 0xFFFFFFFF
       then (lsize digits, result_out_of_range, value)
       else (lsize digits, errc_ok, decimal_value digits).

(** [%d] applied to a 32-bit value: the bits are read as an [int]. *)
Definition as_int (v : Z) : Z := if v <? 2 ^ 31 then v else v - 2 ^ 32.

Definition format_d (v : Z) : list Z :=
  bytes_of_string (NilZero.string_of_int (Z.to_int (as_int v))).

(** Modelled from the spec: the timer and clock hardware behind the HAL calls
    of commands.cpp ([HAL_TIM_PWM_Start_DMA], [HAL_TIM_PWM_Stop_DMA],
    [HAL_TIM_Base_Stop], [HAL_TIM_Base_Start], [__HAL_TIM_SET_AUTORELOAD],
    [__HAL_TIM_SET_COUNTER], [htim2.Instance->ARR], [HAL_RCC_GetPCLK1Freq]),
    which the spec describes as a PWM-control capability with
    [start(dutyCycles[])], [stop()], [setPeriod(rawTimerValue)] and a read of
    the currently configured raw period. *)
Record Hardware := mkHardware {
  PCLK1Freq : Z;                (* HAL_RCC_GetPCLK1Freq(), a uint32_t *)
  ARR : Z;                      (* htim2.Instance->ARR, a 32-bit register *)
  CNT : Z;                      (* the counter of the timer *)
  base_running : bool;          (* HAL_TIM_Base_Start / _Stop *)
  pwm_dma : option (list Z)     (* the duty cycles being output, if any *)
}.

Record World := mkWorld { gDeviceState : DeviceState; htim2 : Hardware }.

(** [#define TIMER_FREQ (HAL_RCC_GetPCLK1Freq() * 2)] *)
Definition TIMER_FREQ (w : World) : Z := u32 (PCLK1Freq (htim2 w) * 2).

(** *** Faults *)

(** What the C++ abstract machine leaves undefined and the handlers can
    reach: an integer division by zero, an out-of-range vector index, and a
    variadic argument whose type is not the one its conversion expects. *)
Inductive Fault := DivideByZero | IndexOutOfRange | FormatMismatch.

Inductive Exec (A : Type) :=
| Done (a : A)
| Faulted (f : Fault).
Arguments Done {A} _.
Arguments Faulted {A} _.

#[global] Instance Exec_ret : MRet Exec := fun A a => Done a.
#[global] Instance Exec_bind : MBind Exec := fun A B k m =>
  match m with
  | Done a => k a
  | Faulted f => Faulted f
  end.

(** [a / b] on unsigned integers. *)
Definition udiv32 (a b : Z) : Exec Z :=
  if b =? 0 then Faulted DivideByZero else Done (a / b).

(** ** commands.cpp *)

(** An argument passed through the ellipsis of [Printf]. *)
Inductive VarArg :=
| VaCString (s : list Z)          (* a const char* to a NUL-terminated string *)
| VaStringView (s : string_view)  (* a std::string_view object, by value *)
| VaInt (v : Z).                  (* a 32-bit integer *)

(** The text [vsnprintf] produces for the conversions used in commands.cpp:
    [%s] takes a C string, [%d] a 32-bit integer read as [int], [%c] an
    integer printed as one character.  A conversion applied to an argument
    that is missing or of another kind is undefined. *)
Fixpoint vformat (fmt : list Z) (args : list VarArg) : Exec (list Z) :=
  match fmt with
  | [] => Done []
  | 37 :: conv :: rest =>
      match args with
      | [] => Faulted FormatMismatch
      | arg :: args =>
          text ← (match conv, arg with
                  | 115, VaCString s => Done s                  (* %s *)
                  | 100, VaInt v => Done (format_d v)           (* %d *)
                  | 99, VaInt v => Done [v mod 256]             (* %c *)
                  | _, _ => Faulted FormatMismatch
                  end);
          tail ← vformat rest args;
          Done (text ++ tail)
      end
  | c :: rest =>
      tail ← vformat rest args;
      Done (c :: tail)
  end.

(** [Printf(ret, fmt, ...)] appends the formatted text to [ret]. *)
Definition Printf (ret : bytes) (fmt : string) (args : list VarArg) : Exec bytes :=
  text ← vformat (bytes_of_string fmt) args;
  Done (ret ++ text).

Definition set_isPwmGenerated (d : DeviceState) (b : bool) : DeviceState :=
  mkDeviceState (dutyCycles d) (userDutyCycles d) b.
Definition set_dutyCycles (d : DeviceState) (l : list Z) : DeviceState :=
  mkDeviceState l (userDutyCycles d) (isPwmGenerated d).
Definition set_userDutyCycles (d : DeviceState) (l : list Z) : DeviceState :=
  mkDeviceState (dutyCycles d) l (isPwmGenerated d).

Definition StartPWM (w : World) : World :=
  let d := set_isPwmGenerated (gDeviceState w) true in
  let h := htim2 w in
  mkWorld d (mkHardware (PCLK1Freq h) (ARR h) (CNT h) (base_running h)
               (Some (dutyCycles d))).

Definition StopPWM (w : World) : World :=
  let d := set_isPwmGenerated (gDeviceState w) false in
  let h := htim2 w in
  mkWorld d (mkHardware (PCLK1Freq h) (ARR h) (CNT h) (base_running h) None).

Definition SetArr (arr : Z) (w : World) : World :=
  let h := htim2 w in
  (* stop, set the auto-reload register to arr - 1, clear the counter, start *)
  mkWorld (gDeviceState w) (mkHardware (PCLK1Freq h) (u32 (arr - 1)) 0 true (pwm_dma h)).

(** A command handler: [void name(bytes& ret, std::span<bytes_view> args)],
    acting on the globals. *)
Definition Handler := World -> bytes -> list bytes_view -> Exec (World * bytes).

Definition CmdPwmOn : Handler := fun w ret args =>
  let w := if negb (isPwmGenerated (gDeviceState w)) then StartPWM w else w in
  ret ← Printf ret "%s" [VaCString kPwmOn];
  Done (w, ret).

Definition CmdPwmOff : Handler := fun w ret args =>
  let w := if isPwmGenerated (gDeviceState w) then StopPWM w else w in
  ret ← Printf ret "%s" [VaCString kPwmOff];
  Done (w, ret).

(** The loop of [CmdSetFreq] that rescales [dutyCycles[i]] for every index
    [i] of [userDutyCycles]. *)
Fixpoint SetFreq_rescale (user : list Z) (i : nat) (arr : Z) (duty : list Z)
  : Exec (list Z) :=
  match user with
  | [] => Done duty
  | u :: rest =>
      if (i <? length duty)%nat
      then SetFreq_rescale rest (S i) arr (<[i := u32 (u * arr / 100)]> duty)
      else Faulted IndexOutOfRange
  end.

Definition CmdSetFreq : Handler := fun w ret args =>
  let arg := args !!! 1%nat in
  let value := 0 in
  let '(ptr, ec, value) := from_chars arg value in
  if negb (errc_is_ok ec) || negb (ptr =? lsize arg)
  then ret ← Printf ret "%s" [VaStringView kInvalidArgument]; Done (w, ret) else
  let restoreGeneration := false in
  arr ← udiv32 (TIMER_FREQ w) value;
  if (arr =? 0) || (value =? 0)
  then ret ← Printf ret "%s" [VaCString kInvalidFrequency]; Done (w, ret) else
  let '(w, restoreGeneration) :=
    if isPwmGenerated (gDeviceState w) then (StopPWM w, true)
    else (w, restoreGeneration) in
  let w := SetArr arr w in
  duty ← SetFreq_rescale (userDutyCycles (gDeviceState w)) 0 arr
            (dutyCycles (gDeviceState w));
  let w := mkWorld (set_dutyCycles (gDeviceState w) duty) (htim2 w) in
  let w := if restoreGeneration then StartPWM w else w in
  ret ← Printf ret "%s %d" [VaCString kFreqChanged; VaInt value];
  Done (w, ret).

(** The first loop of [CmdSetDutyCycles]: [None] is the early exit through
    [Printf(ret, "%s", kInvalidArgument); return;]. *)
Fixpoint SetDutyCycles_parse (rest : list bytes_view) (params : list Z) : option (list Z) :=
  match rest with
  | [] => Some params
  | arg :: rest =>
      let value := 0 in
      let '(ptr, ec, value) := from_chars arg value in
      if negb (errc_is_ok ec) || negb (ptr =? lsize arg) then None
      else SetDutyCycles_parse rest (params ++ [value])
  end.

(** [std::any_of] with the lambda of [CmdSetDutyCycles]: it stops at the
    first element for which the lambda returns true; the lambda appends to
    the two local vectors before it tests. *)
Fixpoint SetDutyCycles_any_of (params : list Z) (arr : Z) (user duty : list Z)
  : bool * list Z * list Z :=
  match params with
  | [] => (false, user, duty)
  | dutyCycle :: rest =>
      let user := user ++ [dutyCycle mod 256] in
      let duty := duty ++ [u32 (dutyCycle * arr / 100)] in
      if (dutyCycle <? 0) || (dutyCycle >? 100) then (true, user, duty)
      else SetDutyCycles_any_of rest arr user duty
  end.

Definition CmdSetDutyCycles : Handler := fun w ret args =>
  match SetDutyCycles_parse (drop 1 args) [] with
  | None => ret ← Printf ret "%s" [VaStringView kInvalidArgument]; Done (w, ret)
  | Some params =>
      let arr := u32 (ARR (htim2 w) + 1) in
      let '(invalidDutyCycle, userDutyCycles, dutyCycles) :=
        SetDutyCycles_any_of params arr [] [] in
      if negb invalidDutyCycle then
        let w :=
          if isPwmGenerated (gDeviceState w) then
            let w := StopPWM w in
            let w := mkWorld (set_dutyCycles (gDeviceState w) dutyCycles) (htim2 w) in
            StartPWM w
          else mkWorld (set_dutyCycles (gDeviceState w) dutyCycles) (htim2 w) in
        let w := mkWorld (set_userDutyCycles (gDeviceState w) userDutyCycles) (htim2 w) in
        ret ← Printf ret "%s" [VaCString kDutyCyclesChanged];
        let ret := fold_left (fun ret param => (ret ++ [32]) ++ param) (drop 1 args) ret in
        Done (w, ret)
      else ret ← Printf ret "%s" [VaCString kInvalidDutyCycle]; Done (w, ret)
  end.

(** The [std::for_each] of [CmdStatus] over [dutyCycles]. *)
Fixpoint Status_for_each (cnts : list Z) (arr : Z) (ret : bytes) : Exec bytes :=
  match cnts with
  | [] => Done ret
  | cnt :: rest =>
      q ← udiv32 (cnt * 100) arr;
      let dutyCycle := u32 q in
      ret ← Printf ret " %d" [VaInt dutyCycle];
      Status_for_each rest arr ret
  end.

Definition CmdStatus : Handler := fun w ret args =>
  ret ← Printf ret "%s" [VaCString kStatusResp];
  ret ← Printf ret " %c" [VaInt (48 + (if isPwmGenerated (gDeviceState w) then 1 else 0))];
  let arr := u32 (ARR (htim2 w) + 1) in
  freq ← udiv32 (TIMER_FREQ w) arr;
  ret ← Printf ret " %d" [VaInt freq];
  ret ← Status_for_each (dutyCycles (gDeviceState w)) arr ret;
  Done (w, ret).

(** ** command_handler.cpp: parsing and dispatch *)

(** [struct CommandHandler] *)
Record CommandHandler := mkCommandHandler {
  commandName : string_view;
  callback : Handler;
  minArgs : Z;
  maxArgs : Z
}.

Definition kCommandHandlers : list CommandHandler :=
  [ mkCommandHandler (mk_string_view (bytes_of_string "ON")) CmdPwmOn 0 0;
    mkCommandHandler (mk_string_view (bytes_of_string "OFF")) CmdPwmOff 0 0;
    mkCommandHandler (mk_string_view (bytes_of_string "SET_FREQ")) CmdSetFreq 1 1;
    mkCommandHandler (mk_string_view (bytes_of_string "SET_DUTY_CYCLES")) CmdSetDutyCycles 1 312;
    mkCommandHandler (mk_string_view (bytes_of_string "STATUS")) CmdStatus 0 0 ].

(** [Split(s, delim, callback)]: the chunks between delimiters, in the order
    in which [callback] is called on them.  [chunk] collects the bytes from
    [begin] up to the position reached by [std::find]. *)
Fixpoint Split_from (s : list Z) (delim : Z) (chunk : list Z) : list (list Z) :=
  match s with
  | [] => [chunk]
  | c :: rest =>
      if c =? delim then chunk :: Split_from rest delim []
      else Split_from rest delim (chunk ++ [c])
  end.

Definition Split (s : list Z) (delim : Z) : list (list Z) := Split_from s delim [].

(** [ParseCommands]: the callback keeps the chunks that are not empty. *)
Definition ParseCommands (data : bytes_view) : option ParsedCommand :=
  let parsed := filter (fun arg => lsize arg > 0) (Split data 32) in
  if lsize parsed >? 0 then Some parsed else None.

(** [WRITE_EC(ret, ec)] *)
Definition WRITE_EC (ret : bytes) (ec : string_view) : bytes := ret ++ chars ec.

Definition ExecuteCommand (w : World) (cmd : ParsedCommand) (ret : bytes)
  : Exec (World * bytes) :=
  let args := cmd in
  if lsize args =? 0 then Done (w, WRITE_EC ret kUnknownCommand) else
  match find (fun handler => bool_decide (chars (commandName handler) = args !!! 0%nat))
             kCommandHandlers with
  | None => Done (w, WRITE_EC ret kUnknownCommand)
  | Some found =>
      if negb ((minArgs found <=? lsize args - 1) && (maxArgs found >=? lsize args - 1))
      then Done (w, WRITE_EC ret kInvalidArgument)
      else callback found w ret args
  end.

(** ** usart_tx_handler.cpp: [SendData] *)

(** [SendData(receiver, data)], with [payload] for the parameter [data]: the bytes handed to the transmit path, or
    [None] when the function returns without sending.  The final loop over
    [UART_puts] passes every byte of [serialized], in order, to the transmit
    ring and returns only when all of them have been accepted; its outcome is
    kept as the byte sequence put on the line. *)
Definition SendData (receiver : Z) (payload : bytes_view) : option (list Z) :=
  let frame := mkFrame 0 0 sv_new in
  let frame := set_sender frame LOCAL_ID in
  let frame := set_receiver frame receiver in
  let frame := set_data frame (fst (push_slice (data frame) payload)) in
  let serialized : StaticVec Z (FRAME_MAX_SIZE * 2) := sv_new in
  let '(err, serialized) := serialize_into frame serialized in
  if negb (is_SerializeOk err) then None else Some (span serialized).

(** ** command_handler.cpp: [HandlePendingCommands] *)

(** The body of the loop once [GetFrame] has returned [frame]: the world
    afterwards and the byte sequences sent. *)
Definition HandleFrame (w : World) (frame : Frame) : Exec (World * list (list Z)) :=
  if negb (receiver frame =? LOCAL_ID) then Done (w, []) else
  let command := ParseCommands (span (data frame)) in
  match command with
  | Some command =>
      let ret : bytes := [] in
      '(w, ret) ← ExecuteCommand w command ret;
      match SendData (sender frame) ret with
      | Some wire => Done (w, [wire])
      | None => Done (w, [])
      end
  | None => Done (w, [])
  end.

(** The whole system seen by [HandlePendingCommands]: the receive buffer, the
    device and the byte sequences sent so far. *)
Record Node (SIZE : Z) := mkNode {
  gRxBuffer : CircularBuffer SIZE;
  world : World;
  sent : list (list Z)
}.
Arguments mkNode {SIZE} _ _ _.
Arguments gRxBuffer {SIZE} _.
Arguments world {SIZE} _.
Arguments sent {SIZE} _.

(** [while (true) { ... }] of [HandlePendingCommands], with no byte arriving
    meanwhile.  Every turn but the last consumes bytes of the receive
    buffer; [None] means that the turns ran out. *)
Fixpoint HandlePendingCommands_loop {SIZE} (turns : nat) (n : Node SIZE)
  : option (Exec (Node SIZE)) :=
  match turns with
  | O => None
  | S turns' =>
      match GetFrame (gRxBuffer n) with
      | None => None
      | Some (optional, rx, _) =>
          match optional with
          | None => Some (Done (mkNode rx (world n) (sent n)))
          | Some frame =>
              match HandleFrame (world n) frame with
              | Faulted f => Some (Faulted f)
              | Done (w, out) =>
                  HandlePendingCommands_loop turns' (mkNode rx w (sent n ++ out))
              end
          end
      end
  end.

Definition HandlePendingCommands {SIZE} (n : Node SIZE) : option (Exec (Node SIZE)) :=
  HandlePendingCommands_loop (S (Z.to_nat SIZE)) n.

(** ** usart_rx_handler.cpp *)

(** The UART handles a HAL callback can be called for; the firmware uses
    [huart2] only. *)
Inductive UART_HandleTypeDef := huart2 | other_uart.

Definition is_huart2 (huart : UART_HandleTypeDef) : bool :=
  match huart with huart2 => true | other_uart => false end.

(** Modelled from the spec: the receiving side of the UART peripheral
    behind [HAL_UART_Receive_IT], which the spec describes as the
    interrupt-driven producer that stores each received byte at the place it
    was given and then reports completion.  [armed] is the index, in the
    array of the ring, of the place given to the last
    [HAL_UART_Receive_IT(&huart2, buf + index, 1)] that has not completed. *)
Record Receiver (SIZE : Z) := mkReceiver {
  rx_ring : CircularBuffer SIZE;   (* gRxBuffer *)
  armed : option Z
}.
Arguments mkReceiver {SIZE} _ _.
Arguments rx_ring {SIZE} _.
Arguments armed {SIZE} _.

Section Receive.
Context {SIZE : Z}.
Implicit Type r : Receiver SIZE.

(** [ReceiveBytes()] *)
Definition ReceiveBytes r : Receiver SIZE :=
  mkReceiver (rx_ring r) (Some (head (rx_ring r))).

(** [HAL_UART_RxCpltCallback(huart)] *)
Definition HAL_UART_RxCpltCallback (huart : UART_HandleTypeDef) r : Receiver SIZE :=
  if negb (is_huart2 huart) then r else
  let r := mkReceiver (advance_head (rx_ring r)) (armed r) in
  ReceiveBytes r.

(** The arrival of one byte on the line: the peripheral stores it at the
    armed place, the reception is over, and the completion callback runs.
    A byte that arrives while no reception is armed is lost. *)
Definition byte_arrives (byte : Z) r : Receiver SIZE :=
  match armed r with
  | None => r
  | Some place =>
      let ring := rx_ring r in
      let ring := mkCircularBuffer (tail ring) (head ring)
                    (<[Z.to_nat place := byte]> (buf ring)) in
      HAL_UART_RxCpltCallback huart2 (mkReceiver ring None)
  end.

Definition bytes_arrive (bytes : list Z) r : Receiver SIZE :=
  fold_left (fun r byte => byte_arrives byte r) bytes r.
End Receive.

(** ** usart_tx_handler.cpp *)

(** Modelled from the spec: the transmitting side of the UART peripheral
    behind [HAL_UART_Transmit_IT], which the spec describes as the
    interrupt-driven consumer of the transmit ring that puts one byte on the
    line per request and then reports completion.  [line] holds the bytes
    handed to [HAL_UART_Transmit_IT(huart, place, 1)] so far, oldest first;
    [buffer] and [busy] are the two static variables of the file. *)
Record Transmitter (SIZE : Z) := mkTransmitter {
  buffer : CircularBuffer SIZE;
  busy : bool;
  line : list Z
}.
Arguments mkTransmitter {SIZE} _ _ _.
Arguments buffer {SIZE} _.
Arguments busy {SIZE} _.
Arguments line {SIZE} _.

Section Transmit.
Context {SIZE : Z}.
Implicit Type tx : Transmitter SIZE.

(** [HAL_UART_Transmit_IT(&huart2, buffer.getBuf() + place, 1)] *)
Definition HAL_UART_Transmit_IT tx (place : Z) : Transmitter SIZE :=
  mkTransmitter (buffer tx) (busy tx) (line tx ++ [at_ (buf (buffer tx)) place]).

(** [HAL_UART_TxCpltCallback(huart)] *)
Definition HAL_UART_TxCpltCallback (huart : UART_HandleTypeDef) tx : Transmitter SIZE :=
  if negb (is_huart2 huart) then tx else
  let t := (tail (buffer tx) + 1) mod getCapacity (buffer tx) in
  let tx := mkTransmitter (set_tail (buffer tx) t) (busy tx) (line tx) in
  if t =? head (buffer tx) then mkTransmitter (buffer tx) false (line tx)
  else HAL_UART_Transmit_IT tx t.

(** The copying loop of [UART_puts],
    [while ((head + 1) % cap != tail && idx < v.size())], on the elements
    [v[idx ..]] that are left. *)
Fixpoint UART_puts_loop (left : list Z) (b : CircularBuffer SIZE) (idx : Z)
  : CircularBuffer SIZE * Z :=
  match left with
  | [] => (b, idx)
  | x :: left' =>
      if negb ((head b + 1) mod getCapacity b =? tail b)
      then UART_puts_loop left'
             (mkCircularBuffer (tail b) ((head b + 1) mod getCapacity b)
                (<[Z.to_nat (head b) := x]> (buf b)))
             (idx + 1)
      else (b, idx)
  end.

(** [UART_puts(v)]: the whole body runs between [__disable_irq()] and
    [__enable_irq()], so the completion callback cannot run inside it.
    Returns the state and the number of bytes taken. *)
Definition UART_puts (v : list Z) tx : Transmitter SIZE * Z :=
  let '(b, idx) := UART_puts_loop v (buffer tx) 0 in
  let tx := mkTransmitter b (busy tx) (line tx) in
  let tx := if negb (head b =? tail b) && negb (busy tx)
            then HAL_UART_Transmit_IT (mkTransmitter b true (line tx)) (tail b)
            else tx in
  (tx, idx).

(** The completion callbacks that run while the main program is between two
    statements: one per byte whose transmission ends; none when nothing is
    being transmitted. *)
Fixpoint completions (n : nat) tx : Transmitter SIZE :=
  match n with
  | O => tx
  | S k => if busy tx then completions k (HAL_UART_TxCpltCallback huart2 tx) else tx
  end.

(** The final loop of [SendData],
    [while (wrote < serialized.size()) wrote += UART_puts(serialized.span().last(serialized.size() - wrote));].
    [irqs] tells how many transmissions end before each call of [UART_puts];
    [None]: the turns ran out. *)
Fixpoint SendData_loop (turns : nat) (serialized : list Z) (wrote : Z)
    (irqs : list nat) tx : option (Transmitter SIZE) :=
  match turns with
  | O => None
  | S turns' =>
      if wrote <? lsize serialized then
        let tx := completions (hd O irqs) tx in
        let '(tx, n) := UART_puts (drop (Z.to_nat wrote) serialized) tx in
        SendData_loop turns' serialized (wrote + n) (tl irqs) tx
      else Some tx
  end.

(** [SendData(receiver, data)] on the transmit state, with [payload] for the
    parameter [data]. *)
Definition SendData_uart (turns : nat) (receiver : Z) (payload : bytes_view)
    (irqs : list nat) tx : option (Transmitter SIZE) :=
  let frame := mkFrame 0 0 sv_new in
  let frame := set_sender frame LOCAL_ID in
  let frame := set_receiver frame receiver in
  let frame := set_data frame (fst (push_slice (data frame) payload)) in
  let serialized : StaticVec Z (FRAME_MAX_SIZE * 2) := sv_new in
  let '(err, serialized) := serialize_into frame serialized in
  if negb (is_SerializeOk err) then Some tx else
  let wrote := 0 in
  SendData_loop turns (span serialized) wrote irqs tx.

(** [SendString(receiver, s)]: [s] is the C string without its NUL, so
    [strlen(s)] is its length. *)
Definition SendString_uart (turns : nat) (receiver : Z) (s : list Z)
    (irqs : list nat) tx : option (Transmitter SIZE) :=
  SendData_uart turns receiver s irqs tx.
End Transmit.

(** ** commands.cpp: the end of a PWM pulse train *)

(** [HAL_TIM_PWM_PulseFinishedCallback(htim)], called for [htim2]: the DMA
    transfer is stopped, and started again on the stored duty cycles when
    generation is on. *)
Definition HAL_TIM_PWM_PulseFinishedCallback (w : World) : World :=
  let h := htim2 w in
  let w := mkWorld (gDeviceState w)
             (mkHardware (PCLK1Freq h) (ARR h) (CNT h) (base_running h) None) in
  if isPwmGenerated (gDeviceState w) then
    let h := htim2 w in
    mkWorld (gDeviceState w)
      (mkHardware (PCLK1Freq h) (ARR h) (CNT h) (base_running h)
         (Some (dutyCycles (gDeviceState w))))
  else w.

(** ** proto_cross_test/bindings/frame.cpp *)

(** [new_frame(sender, receiver, cmd, cmd_len)], with [cmd] the [cmd_len]
    bytes pointed to. *)
Definition new_frame (sender receiver : Z) (cmd : list Z) : Frame :=
  let frame := mkFrame 0 0 sv_new in
  let frame := set_sender frame sender in
  let frame := set_receiver frame receiver in
  set_data frame (fst (push_slice (data frame) cmd)).

(** [serialize_frame(frame, dst, len)]: the result and the bytes copied to
    [dst]. *)
Definition serialize_frame (frame : Frame) : SerializeError * list Z :=
  let v : StaticVec Z (FRAME_MAX_SIZE * 2) := sv_new in
  let '(result, v) := serialize_into frame v in
  (result, span v).

(** [deserialize_frame(frame, data, len)] *)
Definition deserialize_frame (frame : Frame) (data : list Z)
  : option (DeserializeError * Frame) :=
  deserialize_from frame data.

(** [frame_eq(f1, f2)] *)
Definition frame_eq (f1 f2 : Frame) : bool := Frame_eq f1 f2.

(** ** Notions used to state the properties *)

(** *** The wire image of a frame *)

(** What [encode_byte] appends when there is room for it. *)
Definition escape (b : Z) : list Z :=
  if b =? ESCAPE_BYTE then [ESCAPE_BYTE; 0x41]
  else if b =? BEGIN_FRAME_BYTE then [ESCAPE_BYTE; 0x42]
  else if b =? END_FRAME_BYTE then [ESCAPE_BYTE; 0x43]
  else [b].

Definition escapes (l : list Z) : list Z := concat (map escape l).

(** The unescaped fields of a frame, in wire order. *)
Definition frame_fields (f : Frame) : list Z :=
  to_be_bytes 1 (sender f) ++ to_be_bytes 1 (receiver f)
  ++ to_be_bytes 2 (data_len16 f) ++ span (data f).

Definition frame_body (f : Frame) : list Z :=
  frame_fields f ++ to_be_bytes 4 (crc32 f).

(** *** Ring buffer states *)

(** Cursors inside the array, array of the declared size. *)
Definition cb_wf {SIZE} (cb : CircularBuffer SIZE) : Prop :=
  0 < SIZE /\ 0 <= tail cb < SIZE /\ 0 <= head cb < SIZE /\ lsize (buf cb) = SIZE.

(** Number of bytes between the consumer and the producer cursor. *)
Definition used {SIZE} (cb : CircularBuffer SIZE) : Z :=
  (head cb - tail cb) mod SIZE.

(** The byte [i] places after the consumer cursor. *)
Definition peek {SIZE} (cb : CircularBuffer SIZE) (i : Z) : Z :=
  at_ (buf cb) ((tail cb + i) mod SIZE).

(** The bytes held, oldest first. *)
Definition contents {SIZE} (cb : CircularBuffer SIZE) : list Z :=
  map (peek cb) (seqZ 0 (used cb)).

(** *** What the decoder stores into the target frame *)

(** The frame whose fields are read off a decoded byte sequence: sender,
    receiver, a two-byte length and that many payload bytes. *)
Definition parsed_len (bytes : list Z) : Z := from_be_bytes (take 2 (drop 2 bytes)).

Definition parsed_frame (bytes : list Z) : Frame :=
  mkFrame (from_be_bytes (take 1 bytes))
          (from_be_bytes (take 1 (drop 1 bytes)))
          (mkStaticVec (take (Z.to_nat (parsed_len bytes)) (drop 4 bytes))).

(** The bytes between the two delimiters of an encoded frame. *)
Definition interior (encoded : list Z) : list Z :=
  take (Z.to_nat (lsize encoded - 2)) (drop 1 encoded).

(** *** Histories of a ring buffer *)

Inductive RingOp :=
| PushHead (v : Z)      (* push_head(v) *)
| PopTail               (* pop_tail() *)
| StoreNext (v : Z)     (* *getNextAddr() = v *)
| AdvanceHead.          (* advance_head() *)

Definition apply_op {SIZE} (cb : CircularBuffer SIZE) (op : RingOp) : CircularBuffer SIZE :=
  match op with
  | PushHead v => fst (push_head cb v)
  | PopTail => fst (pop_tail cb)
  | StoreNext v => store_next cb v
  | AdvanceHead => advance_head cb
  end.

(** The state reached from the initial one by a sequence of operations. *)
Definition run_ops {SIZE} (ops : list RingOp) : CircularBuffer SIZE :=
  fold_left apply_op ops cb_new.

(** *** Reading command arguments *)

(** An argument the handlers accept as a number: [std::from_chars] succeeds
    and consumes the whole token. *)
Definition parse_u32 (arg : bytes_view) : option Z :=
  let '(ptr, ec, value) := from_chars arg 0 in
  if negb (errc_is_ok ec) || negb (ptr =? lsize arg) then None else Some value.

(** The device has a usable period (ARR + 1 does not wrap to 0) and a raw
    duty cycle for every user percentage. *)
Definition world_ok (w : World) : Prop :=
  u32 (ARR (htim2 w) + 1) <> 0
  /\ (length (userDutyCycles (gDeviceState w)) <= length (dutyCycles (gDeviceState w)))%nat.

(** The commands on which a handler leaves defined behaviour: [SET_FREQ]
    with one argument that reads as zero (the division) or that is not an
    unsigned 32-bit decimal number, and [SET_DUTY_CYCLES] with 1 to 312
    arguments of which one is not an unsigned 32-bit decimal number (in both,
    the [Printf] of [kInvalidArgument]). *)
Definition handler_undefined (cmd : ParsedCommand) : Prop :=
  (cmd !!! 0%nat = bytes_of_string "SET_FREQ" /\ lsize cmd = 2
   /\ (parse_u32 (cmd !!! 1%nat) = Some 0 \/ parse_u32 (cmd !!! 1%nat) = None))
  \/ (cmd !!! 0%nat = bytes_of_string "SET_DUTY_CYCLES" /\ 2 <= lsize cmd <= 313
      /\ mapM parse_u32 (drop 1 cmd) = None).

(** *** Critical sections in a trace *)

Definition is_irq (e : Event) : bool :=
  match e with IrqDisable | IrqEnable => true | _ => false end.

(** Number of steps (buffer reads, cursor stores, decoder calls) taken while
    interrupts are masked, that is between an [IrqDisable] and the next
    [IrqEnable]; [masked] tells whether they are masked at the start. *)
Fixpoint masked_steps (masked : bool) (events : list Event) : Z :=
  match events with
  | [] => 0
  | IrqDisable :: rest => masked_steps true rest
  | IrqEnable :: rest => masked_steps false rest
  | _ :: rest => (if masked then 1 else 0) + masked_steps masked rest
  end.

(** Number of steps taken while interrupts are enabled. *)
Fixpoint unmasked_steps (masked : bool) (events : list Event) : Z :=
  match events with
  | [] => 0
  | IrqDisable :: rest => unmasked_steps true rest
  | IrqEnable :: rest => unmasked_steps false rest
  | _ :: rest => (if masked then 0 else 1) + unmasked_steps masked rest
  end.

(** Events other than masking and unmasking. *)
Definition no_irq (events : list Event) : Prop :=
  Forall (fun e => is_irq e = false) events.

(** A receive buffer of [n + 1] places holding [n] bytes of noise (zeros). *)
Definition noise (n : Z) : CircularBuffer (n + 1) :=
  mkCircularBuffer 0 n (replicate (Z.to_nat (n + 1)) 0).

(** *** Bytes and delimiters *)

(** A value of type [uint8_t]. *)
Definition is_byte (b : Z) : Prop := 0 <= b < 256.

(** A byte that is neither of the two frame delimiters. *)
Definition plain (b : Z) : Prop := b <> BEGIN_FRAME_BYTE /\ b <> END_FRAME_BYTE.

(** The encoded image of a frame: its body, escaped, between the two
    delimiters. *)
Definition wire_of (f : Frame) : list Z :=
  BEGIN_FRAME_BYTE :: escapes (frame_body f) ++ [END_FRAME_BYTE].

(** *** The receive path *)

(** Reception is armed at the producer cursor of a well-formed ring: the
    state [ReceiveBytes] and the completion callback leave behind. *)
Definition rx_ok {SIZE} (r : Receiver SIZE) : Prop :=
  cb_wf (rx_ring r) /\ armed r = Some (head (rx_ring r)).

(** *** Tokens *)

(** The chunks put together again, with the delimiter between them. *)
Fixpoint join (delim : Z) (chunks : list (list Z)) : list Z :=
  match chunks with
  | [] => []
  | chunk :: rest =>
      match rest with
      | [] => chunk
      | _ :: _ => chunk ++ delim :: join delim rest
      end
  end.

(** *** The device *)

(** The DMA transfer runs exactly when generation is on, and on the duty
    cycles that are stored. *)
Definition pwm_consistent (w : World) : Prop :=
  pwm_dma (htim2 w)
  = if isPwmGenerated (gDeviceState w) then Some (dutyCycles (gDeviceState w)) else None.

(** The raw duty cycle the handlers store for a percentage. *)
Definition scaled (arr percent : Z) : Z := percent * arr / 100.

(** *** The transmit path *)

(** The transmit state between two steps: the ring is well formed; while a
    transmission is in flight the ring is not empty and the byte handed to
    the peripheral last is the oldest byte held; while none is, the ring is
    empty. *)
Definition tx_ok {SIZE} (tx : Transmitter SIZE) : Prop :=
  cb_wf (buffer tx)
  /\ if busy tx
     then contents (buffer tx) <> []
          /\ exists older, line tx = older ++ take 1 (contents (buffer tx))
     else contents (buffer tx) = [].

(** The bytes put on the line so far followed by the bytes that wait in the
    ring behind the one in flight. *)
Definition on_the_way {SIZE} (tx : Transmitter SIZE) : list Z :=
  line tx ++ drop 1 (contents (buffer tx)).

(** The interrupts are enough for [SendData] to get through: either the
    ring has room for all the bytes left, or a transmission ends before
    every call of [UART_puts] that is still to come. *)
Definition can_progress {SIZE} (tx : Transmitter SIZE) (left : Z) (irqs : list nat) : Prop :=
  left <= SIZE - 1 - used (buffer tx)
  \/ (Forall (fun k => (1 <= k)%nat) irqs /\ left <= lsize irqs).

(** * Properties *)

(** ** StaticVec *)

Section StaticVecFacts.
Context {T : Type} {SIZE : Z}.
Implicit Type v : StaticVec T SIZE.

Lemma size_nonneg v : 0 <= size v.
Proof. unfold size. lia. Qed.

Lemma push_back_room v x :
  size v < SIZE -> push_back v x = (mkStaticVec (items v ++ [x]), None).
Proof.
  intros H. unfold push_back.
  destruct (Z.ltb_spec (size v) SIZE); [done | lia].
Qed.

Lemma push_back_full v x :
  SIZE <= size v -> push_back v x = (v, Some x).
Proof.
  intros H. unfold push_back.
  destruct (Z.ltb_spec (size v) SIZE); [lia | done].
Qed.

Lemma push_back__items v x :
  size v < SIZE -> items (push_back_ v x) = items v ++ [x].
Proof. intros H. unfold push_back_. by rewrite push_back_room. Qed.

Lemma size_mk (l : list T) : size (mkStaticVec l : StaticVec T SIZE) = lsize l.
Proof. reflexivity. Qed.

(** The loop of [push_slice] keeps exactly the prefix that fits. *)
Lemma push_slice_loop_items v (l : list T) :
  size v <= SIZE ->
  items (push_slice_loop v l) = items v ++ take (Z.to_nat (SIZE - size v)) l.
Proof.
  revert v. induction l as [|x l IH]; intros v Hv; simpl.
  - by rewrite take_nil, app_nil_r.
  - destruct (Z.ltb_spec (size v) SIZE) as [Hlt|Hge].
    + rewrite push_back_room by done. cbn [has_value].
      rewrite IH by (rewrite size_mk; unfold lsize; rewrite length_app; simpl; unfold size in *; lia).
      simpl. rewrite size_mk. unfold lsize. rewrite length_app. simpl.
      replace (Z.to_nat (SIZE - size v)) with (S (Z.to_nat (SIZE - Z.of_nat (length (items v) + 1))))
        by (unfold size in *; lia).
      simpl. by rewrite <- app_assoc.
    + rewrite push_back_full by done. cbn [has_value].
      replace (Z.to_nat (SIZE - size v)) with 0%nat by lia.
      by rewrite take_0, app_nil_r.
Qed.

Lemma push_slice_loop_fits v (l : list T) :
  size v + lsize l <= SIZE ->
  items (push_slice_loop v l) = items v ++ l.
Proof.
  intros H. pose proof (size_nonneg v).
  rewrite push_slice_loop_items by (unfold lsize in H; lia).
  rewrite take_ge; [done | unfold lsize in H; lia].
Qed.
End StaticVecFacts.

(** ** bytes.h: big-endian round trip *)

Lemma from_le_to_le (w : nat) (n : Z) :
  from_le_bytes (to_le_bytes w n) = n mod 256 ^ Z.of_nat w.
Proof.
  revert n. induction w as [|w IH]; intros n.
  - simpl. by rewrite Z.mod_1_r.
  - cbn [to_le_bytes from_le_bytes]. rewrite IH.
    rewrite Nat2Z.inj_succ, Z.pow_succ_r by lia.
    rewrite (Z.rem_mul_r n 256 (256 ^ Z.of_nat w)) by lia. lia.
Qed.

Lemma from_be_to_be (w : nat) (n : Z) :
  0 <= n < 256 ^ Z.of_nat w -> from_be_bytes (to_be_bytes w n) = n.
Proof.
  intros H. unfold from_be_bytes, to_be_bytes.
  rewrite reverse_involutive, from_le_to_le. by apply Z.mod_small.
Qed.

Lemma to_le_bytes_length (w : nat) (n : Z) : length (to_le_bytes w n) = w.
Proof. revert n. induction w; intros; simpl; auto. Qed.

Lemma to_be_bytes_length (w : nat) (n : Z) : length (to_be_bytes w n) = w.
Proof. unfold to_be_bytes. by rewrite length_reverse, to_le_bytes_length. Qed.

(** ** frame.cpp: the wire image of a byte sequence *)


Lemma escape_length (b : Z) : (1 <= length (escape b) <= 2)%nat.
Proof. unfold escape. repeat case_match; simpl; lia. Qed.

Lemma escapes_length (l : list Z) :
  lsize l <= lsize (escapes l) <= 2 * lsize l.
Proof.
  unfold lsize, escapes. induction l as [|b l IH]; simpl; [lia|].
  rewrite length_app. pose proof (escape_length b). lia.
Qed.

Lemma escapes_app (l1 l2 : list Z) : escapes (l1 ++ l2) = escapes l1 ++ escapes l2.
Proof. unfold escapes. by rewrite map_app, concat_app. Qed.

Section EncodeFacts.
Context {SIZE : Z}.
Implicit Type out : StaticVec Z SIZE.

Lemma encode_byte_items (b : Z) out :
  size out + lsize (escape b) <= SIZE ->
  items (encode_byte b out) = items out ++ escape b.
Proof.
  unfold encode_byte, escape, lsize. cbn [find ESCAPE_TABLE fst snd].
  destruct (b =? ESCAPE_BYTE); [|destruct (b =? BEGIN_FRAME_BYTE);
    [|destruct (b =? END_FRAME_BYTE)]]; cbn [length]; intros H.
  1-3: rewrite push_back__items
         by (rewrite size_mk || idtac; unfold size, lsize in *;
             rewrite ?push_back__items, ?length_app by (unfold size; lia);
             simpl; lia);
       rewrite push_back__items by lia; by rewrite <- app_assoc.
  by rewrite push_back__items by lia.
Qed.

Lemma encode_bytes_items (l : list Z) out :
  size out + lsize (escapes l) <= SIZE ->
  items (encode_bytes l out) = items out ++ escapes l.
Proof.
  unfold encode_bytes. revert out.
  induction l as [|b l IH]; intros out H; simpl.
  - by rewrite app_nil_r.
  - change (escapes (b :: l)) with (escape b ++ escapes l) in *.
    unfold lsize in H. rewrite length_app in H.
    assert (Hb : items (encode_byte b out) = items out ++ escape b)
      by (apply encode_byte_items; unfold lsize; lia).
    rewrite IH.
    + rewrite Hb. by rewrite <- app_assoc.
    + unfold size, lsize in *. rewrite Hb, length_app. lia.
Qed.
End EncodeFacts.

(** ** frame.cpp: decoding inverts encoding *)

Lemma decode_byte_escape (b : Z) (rest : list Z) (o : Z) :
  decode_byte (escape b ++ rest) o = (DeserializeOk, b, lsize (escape b)).
Proof.
  unfold escape, decode_byte.
  destruct (Z.eqb_spec b ESCAPE_BYTE) as [->|H1]; [reflexivity|].
  destruct (Z.eqb_spec b BEGIN_FRAME_BYTE) as [->|H2]; [reflexivity|].
  destruct (Z.eqb_spec b END_FRAME_BYTE) as [->|H3]; [reflexivity|].
  cbn [app].
  destruct (Z.eqb_spec b ESCAPE_BYTE); [done|].
  destruct (Z.eqb_spec b BEGIN_FRAME_BYTE); [done|].
  destruct (Z.eqb_spec b END_FRAME_BYTE); [done|].
  reflexivity.
Qed.

Lemma decode_bytes_loop_escapes {SIZE} (l : list Z) :
  forall (turns : nat) (dec : Z) (out : StaticVec Z SIZE),
    (length l < turns)%nat ->
    size out + lsize l <= SIZE ->
    decode_bytes_loop turns (escapes l) dec out
    = Some (DeserializeOk, mkStaticVec (items out ++ l)).
Proof.
  induction l as [|b l IH]; intros turns dec out Ht Hsz.
  - destruct turns; [simpl in Ht; lia|]. simpl.
    rewrite app_nil_r. by destruct out.
  - destruct turns as [|turns]; [simpl in Ht; lia|].
    change (escapes (b :: l)) with (escape b ++ escapes l).
    cbn [decode_bytes_loop].
    assert (Hne : (lsize (escape b ++ escapes l) =? 0) = false).
    { apply Z.eqb_neq. unfold lsize. rewrite length_app.
      pose proof (escape_length b). lia. }
    rewrite Hne, decode_byte_escape. cbn [is_DeserializeOk negb].
    unfold lsize at 1. rewrite Nat2Z.id, drop_app_length.
    unfold lsize in Hsz. cbn [length] in Hsz, Ht.
    rewrite IH.
    + rewrite push_back__items by lia. by rewrite <- app_assoc.
    + lia.
    + unfold size, lsize in *. rewrite push_back__items by (unfold size; lia).
      rewrite length_app. simpl. lia.
Qed.

(** [decode_bytes] never runs out of turns. *)
Lemma decode_byte_read (data : list Z) (o : Z) :
  forall b r, decode_byte data o = (DeserializeOk, b, r) ->
              1 <= r <= lsize data.
Proof.
  intros b r. unfold decode_byte, lsize.
  destruct data as [|d0 rest]; [done|].
  repeat (case_match; try done); intros [= <- <-]; simpl; lia.
Qed.

Lemma decode_bytes_loop_total {SIZE} (turns : nat) :
  forall (data : list Z) (dec : Z) (out : StaticVec Z SIZE),
    (length data < turns)%nat ->
    is_Some (decode_bytes_loop turns data dec out).
Proof.
  induction turns as [|turns IH]; intros data dec out Ht; [lia|].
  cbn [decode_bytes_loop].
  destruct (Z.eqb_spec (lsize data) 0); [done|].
  destruct (decode_byte data dec) as [[err b] r] eqn:Hd.
  destruct err; cbn [is_DeserializeOk negb]; try done.
  apply decode_byte_read in Hd. apply IH.
  rewrite length_drop. unfold lsize in *. lia.
Qed.

Lemma decode_bytes_total {SIZE} (data : list Z) (out : StaticVec Z SIZE) :
  is_Some (decode_bytes data out).
Proof. apply decode_bytes_loop_total. lia. Qed.

(** ** frame.cpp: the checksum stays a 32-bit value *)

Lemma lxor_range (a b n : Z) :
  0 <= n -> 0 <= a < 2 ^ n -> 0 <= b < 2 ^ n -> 0 <= Z.lxor a b < 2 ^ n.
Proof.
  intros Hn Ha Hb.
  assert (H0 : 0 <= Z.lxor a b) by (apply Z.lxor_nonneg; lia).
  split; [done|].
  destruct (Z.eq_dec (Z.lxor a b) 0) as [->|Hne]; [lia|].
  destruct (Z.eq_dec n 0) as [->|Hn0].
  { replace a with 0 in * by lia. replace b with 0 in * by lia. done. }
  apply Z.log2_lt_pow2; [lia|].
  eapply Z.le_lt_trans; [apply Z.log2_lxor; lia|].
  apply Z.max_lub_lt.
  - destruct (Z.eq_dec a 0) as [->|]; [simpl; lia | apply Z.log2_lt_pow2; lia].
  - destruct (Z.eq_dec b 0) as [->|]; [simpl; lia | apply Z.log2_lt_pow2; lia].
Qed.

Lemma land_range (a b n : Z) :
  0 <= n -> 0 <= a -> 0 <= b < 2 ^ n -> 0 <= Z.land a b < 2 ^ n.
Proof.
  intros Hn Ha Hb.
  assert (H0 : 0 <= Z.land a b) by (apply Z.land_nonneg; lia).
  split; [done|].
  destruct (Z.eq_dec (Z.land a b) 0) as [->|Hne]; [lia|].
  apply Z.log2_lt_pow2; [lia|].
  eapply Z.le_lt_trans; [apply Z.log2_land; lia|].
  destruct (Z.eq_dec b 0) as [->|]; [rewrite Z.land_0_r in Hne; done|].
  apply Z.min_lt_iff. right. apply Z.log2_lt_pow2; lia.
Qed.

Lemma u32_range (x : Z) : 0 <= u32 x < 2 ^ 32.
Proof. unfold u32. apply Z.mod_pos_bound. lia. Qed.

Lemma crc32_bit_range (crc : Z) : 0 <= crc32_bit crc < 2 ^ 32.
Proof.
  unfold crc32_bit. apply lxor_range; [lia | apply u32_range |].
  apply land_range; [lia | apply u32_range | lia].
Qed.

Lemma crc32_byte_range (crc byte : Z) : 0 <= crc32_byte crc byte < 2 ^ 32.
Proof. unfold crc32_byte. cbn [Nat.iter]. apply crc32_bit_range. Qed.

(** A left fold whose step always lands in a range stays in that range. *)
Lemma fold_left_range (step : Z -> Z -> Z) (lo hi : Z) :
  (forall c b, lo <= step c b < hi) ->
  forall (l : list Z) (c : Z), lo <= c < hi -> lo <= fold_left step l c < hi.
Proof.
  intros Hstep l. induction l as [|b l IH]; intros c Hc; cbn [fold_left]; [done|].
  apply IH, Hstep.
Qed.

Lemma crc32_calculate_range (l : list Z) : 0 <= crc32_calculate l < 2 ^ 32.
Proof.
  unfold crc32_calculate.
  apply (fold_left_range crc32_byte 0 (2 ^ 32) crc32_byte_range). lia.
Qed.

Lemma crc32_range (f : Frame) : 0 <= crc32 f < 2 ^ 32.
Proof. unfold crc32. apply crc32_calculate_range. Qed.

(** ** frame.cpp: the padding loop of [crc32] has left when its turns end *)

Lemma push_back__size {SIZE} (buf : StaticVec Z SIZE) (x : Z) :
  size buf < SIZE -> size (push_back_ buf x) = size buf + 1.
Proof.
  intros H. unfold size at 1. rewrite push_back__items by done.
  rewrite length_app. cbn [length]. unfold size. lia.
Qed.

Lemma crc32_pad_aligned {SIZE} (buf : StaticVec Z SIZE) :
  SIZE mod 4 = 0 -> size buf <= SIZE ->
  size (crc32_pad 3 buf) mod 4 = 0.
Proof.
  intros HS Hb. pose proof (size_nonneg buf) as H0.
  assert (Hstep : forall b : StaticVec Z SIZE,
             size b <= SIZE -> size b mod 4 <> 0 ->
             size (push_back_ b 0) = size b + 1 /\ size (push_back_ b 0) <= SIZE).
  { intros b Hle Hm.
    assert (size b < SIZE) by (destruct (Z.eq_dec (size b) SIZE) as [e|]; [rewrite e in Hm; congruence | lia]).
    rewrite push_back__size by done. lia. }
  cbn [crc32_pad].
  destruct (Z.eqb_spec (size buf mod 4) 0) as [|H1]; [done|].
  destruct (Hstep buf Hb H1) as [E1 L1].
  destruct (Z.eqb_spec (size (push_back_ buf 0) mod 4) 0) as [|H2]; [done|].
  destruct (Hstep _ L1 H2) as [E2 L2].
  destruct (Z.eqb_spec (size (push_back_ (push_back_ buf 0) 0) mod 4) 0) as [|H3]; [done|].
  destruct (Hstep _ L2 H3) as [E3 L3].
  rewrite E3, E2, E1. rewrite E2, E1 in H3. rewrite E1 in H2.
  clear -H1 H2 H3. Z.div_mod_to_equations. lia.
Qed.


(** ** frame.cpp: serialize, then deserialize *)

Lemma encode_bytes_app {SIZE} (l1 l2 : list Z) (out : StaticVec Z SIZE) :
  encode_bytes l2 (encode_bytes l1 out) = encode_bytes (l1 ++ l2) out.
Proof. unfold encode_bytes. by rewrite fold_left_app. Qed.


Lemma frame_body_length (f : Frame) : lsize (frame_body f) = size (data f) + 8.
Proof.
  unfold frame_body, frame_fields, lsize, size, span.
  rewrite !length_app, !to_be_bytes_length. lia.
Qed.

Lemma serialize_into_items {SIZE} (f : Frame) :
  size (data f) <= FRAME_DATA_MAX_SIZE ->
  2 * (size (data f) + 8) + 2 <= SIZE ->
  serialize_into f (sv_new : StaticVec Z SIZE)
  = (SerializeOk,
     mkStaticVec (BEGIN_FRAME_BYTE :: escapes (frame_body f) ++ [END_FRAME_BYTE])).
Proof.
  intros Hlen Hroom. pose proof (size_nonneg (data f)) as Hnn.
  unfold serialize_into.
  destruct (Z.gtb_spec (size (data f)) FRAME_DATA_MAX_SIZE) as [|_]; [lia|].
  unfold serialize_fields, serialize_field. cbn [is_SerializeOk negb].
  rewrite !encode_bytes_app.
  replace (to_be_bytes 1 (sender f) ++ to_be_bytes 1 (receiver f)
          ++ to_be_bytes 2 (data_len16 f) ++ span (data f)
          ++ to_be_bytes 4 (crc32 f)) with (frame_body f)
    by (unfold frame_body, frame_fields; by rewrite <- !app_assoc).
  pose proof (escapes_length (frame_body f)) as He.
  rewrite frame_body_length in He.
  set (out1 := push_back_ sv_new BEGIN_FRAME_BYTE).
  assert (H1 : items out1 = [BEGIN_FRAME_BYTE]).
  { unfold out1. rewrite push_back__items; [done | unfold size; simpl; lia]. }
  assert (H2 : items (encode_bytes (frame_body f) out1)
               = BEGIN_FRAME_BYTE :: escapes (frame_body f)).
  { rewrite encode_bytes_items; [by rewrite H1|].
    unfold size. rewrite H1. simpl. lia. }
  rewrite push_back_room.
  - cbn [has_value]. by rewrite H2.
  - unfold size. rewrite H2. cbn [length]. unfold lsize in He. lia.
Qed.

(** Reading the [w] bytes [bs] that sit at offset [idx]. *)
Lemma deserialize_at (w : nat) (bytes pre bs post : list Z) (idx res : Z) :
  bytes = pre ++ bs ++ post ->
  idx = lsize pre ->
  length bs = w ->
  deserialize w bytes idx res = (DeserializeOk, idx + Z.of_nat w, from_be_bytes bs).
Proof.
  intros -> -> Hw. unfold deserialize, lsize.
  rewrite !length_app, Hw.
  destruct (Z.gtb_spec (Z.of_nat (length pre) + Z.of_nat w)
              (Z.of_nat (length pre + (w + length post)))) as [|_]; [lia|].
  rewrite Nat2Z.id, drop_app_length.
  by rewrite take_app_length' by done.
Qed.

(** Reading one big-endian field of [w] bytes that sits at offset [idx]. *)
Lemma deserialize_field_at (w : nat) (bytes pre post : list Z) (v idx res : Z) :
  bytes = pre ++ to_be_bytes w v ++ post ->
  idx = lsize pre ->
  0 <= v < 256 ^ Z.of_nat w ->
  deserialize w bytes idx res = (DeserializeOk, idx + Z.of_nat w, v).
Proof.
  intros Hb Hi Hv.
  rewrite (deserialize_at w bytes pre (to_be_bytes w v) post idx res Hb Hi)
    by apply to_be_bytes_length.
  by rewrite from_be_to_be.
Qed.

Lemma deserialize_from_decoded_fields {SIZE} (target f : Frame) :
  0 <= sender f < 256 -> 0 <= receiver f < 256 ->
  size (data f) <= FRAME_DATA_MAX_SIZE ->
  deserialize_from_decoded target (mkStaticVec (frame_body f) : StaticVec Z SIZE)
  = (DeserializeOk, f).
Proof.
  intros Hs Hr Hlen. pose proof (size_nonneg (data f)) as Hnn.
  assert (Hmax : FRAME_DATA_MAX_SIZE = 1268) by reflexivity.
  assert (H16 : data_len16 f = size (data f))
    by (unfold data_len16; apply Z.mod_small; lia).
  pose proof (crc32_range f) as Hcrc.
  pose proof (frame_body_length f) as Hbody.
  unfold deserialize_from_decoded. cbn [span items].
  rewrite size_mk, Hbody.
  unfold frame_body, frame_fields, span.
  set (S := to_be_bytes 1 (sender f)).
  set (R := to_be_bytes 1 (receiver f)).
  set (L := to_be_bytes 2 (data_len16 f)).
  set (C := to_be_bytes 4 (crc32 f)).
  set (D := items (data f)).
  assert (HS : length S = 1%nat) by apply to_be_bytes_length.
  assert (HR : length R = 1%nat) by apply to_be_bytes_length.
  assert (HL : length L = 2%nat) by apply to_be_bytes_length.
  assert (HD : Z.of_nat (length D) = size (data f)) by reflexivity.
  (* sender *)
  rewrite (deserialize_field_at 1 _ [] (R ++ L ++ D ++ C) (sender f) 0);
    [| by rewrite <- !app_assoc | done | simpl; lia].
  cbn [is_DeserializeOk negb].
  (* receiver *)
  rewrite (deserialize_field_at 1 _ S (L ++ D ++ C) (receiver f));
    [| by rewrite <- !app_assoc | unfold lsize; lia | simpl; lia].
  cbn [is_DeserializeOk negb].
  (* data_len *)
  rewrite (deserialize_field_at 2 _ (S ++ R) (D ++ C) (data_len16 f));
    [| by rewrite <- !app_assoc | unfold lsize; rewrite length_app; lia | simpl; lia].
  cbn [is_DeserializeOk negb].
  destruct (Z.gtb_spec (data_len16 f) FRAME_DATA_MAX_SIZE) as [|_]; [lia|].
  match goal with |- context [?a >=? ?b] =>
    destruct (Z.geb_spec a b) as [|_]; [lia|]
  end.
  (* data *)
  replace ((S ++ R ++ L ++ D) ++ C) with ((S ++ R ++ L) ++ D ++ C)
    by (by rewrite <- !app_assoc).
  rewrite drop_app_length' by (rewrite !length_app; lia).
  rewrite take_app_length' by lia.
  unfold push_slice. cbn [fst].
  match goal with |- context [push_slice_loop ?c D] =>
    assert (Hd : push_slice_loop c D = data f)
  end.
  { match goal with |- push_slice_loop ?c D = _ => set (c0 := c) end.
    assert (Hi : items (push_slice_loop c0 D) = D).
    { rewrite push_slice_loop_fits; [done|].
      unfold c0, clear, size, lsize. simpl. lia. }
    destruct (push_slice_loop c0 D) as [x]. unfold D in *.
    destruct (data f) as [y]. simpl in Hi. by subst. }
  rewrite Hd.
  match goal with |- context [set_data ?t (data f)] =>
    replace (set_data t (data f)) with f by (by destruct f)
  end.
  (* crc *)
  rewrite (deserialize_field_at 4 _ (S ++ R ++ L ++ D) [] (crc32 f));
    [| by rewrite <- ?app_assoc, app_nil_r | unfold lsize; rewrite !length_app; lia | simpl; lia].
  cbn [is_DeserializeOk negb].
  match goal with |- context [negb (?a =? ?b)] =>
    destruct (Z.eqb_spec a b) as [_|Hne]; [|lia]
  end.
  cbn [negb]. by rewrite Z.eqb_refl.
Qed.

Lemma Frame_eq_refl (f : Frame) : Frame_eq f f = true.
Proof.
  unfold Frame_eq. rewrite !Z.eqb_refl. by rewrite bool_decide_eq_true_2.
Qed.

Lemma deserialize_from_wire (target f : Frame) :
  0 <= sender f < 256 -> 0 <= receiver f < 256 ->
  size (data f) <= FRAME_DATA_MAX_SIZE ->
  deserialize_from target
    (BEGIN_FRAME_BYTE :: escapes (frame_body f) ++ [END_FRAME_BYTE])
  = Some (DeserializeOk, f).
Proof.
  intros Hs Hr Hlen. pose proof (size_nonneg (data f)) as Hnn.
  assert (Hmax : FRAME_DATA_MAX_SIZE = 1268) by reflexivity.
  pose proof (escapes_length (frame_body f)) as He.
  pose proof (frame_body_length f) as Hb.
  set (wire := escapes (frame_body f)) in *.
  unfold deserialize_from.
  assert (Hl : lsize (BEGIN_FRAME_BYTE :: wire ++ [END_FRAME_BYTE]) = lsize wire + 2).
  { unfold lsize. cbn [length]. rewrite length_app. simpl. lia. }
  rewrite Hl.
  destruct (Z.ltb_spec (lsize wire + 2) FRAME_MIN_SIZE) as [Hlt|_];
    [unfold FRAME_MIN_SIZE in Hlt; lia|].
  change ((BEGIN_FRAME_BYTE :: wire ++ [END_FRAME_BYTE]) !!! 0%nat) with BEGIN_FRAME_BYTE.
  rewrite Z.eqb_refl. cbn [negb].
  replace (Z.to_nat (lsize wire + 2 - 1)) with (S (length wire)) by (unfold lsize; lia).
  change ((BEGIN_FRAME_BYTE :: wire ++ [END_FRAME_BYTE]) !!! S (length wire))
    with ((wire ++ [END_FRAME_BYTE]) !!! length wire).
  rewrite (list_lookup_total_middle wire [] END_FRAME_BYTE (length wire) eq_refl).
  rewrite Z.eqb_refl. cbn [negb drop].
  replace (Z.to_nat (lsize wire + 2 - 2)) with (length wire) by (unfold lsize; lia).
  rewrite drop_0, take_app_length.
  unfold decode_bytes, wire.
  rewrite decode_bytes_loop_escapes.
  - cbn [is_DeserializeOk negb sv_new items app].
    by rewrite deserialize_from_decoded_fields.
  - unfold lsize in *. fold wire. lia.
  - unfold sv_new, size. simpl. unfold FRAME_MAX_SIZE. lia.
Qed.

(** C1.  Round trip: a frame whose payload is at most FRAME_DATA_MAX_SIZE
    bytes long serializes successfully into an empty destination of
    sufficient capacity (twice the unescaped frame plus the two delimiters
    always suffices), and deserializing the produced bytes into any target
    frame returns DeserializeOk and leaves the target equal to the original
    frame: same sender, same receiver, same payload. *)
Theorem serialize_deserialize_roundtrip (SIZE : Z) (f target : Frame) :
  0 <= sender f < 256 -> 0 <= receiver f < 256 ->
  size (data f) <= FRAME_DATA_MAX_SIZE ->
  2 * (size (data f) + 8) + 2 <= SIZE ->
  exists (out : StaticVec Z SIZE) (f' : Frame),
    serialize_into f sv_new = (SerializeOk, out)
    /\ deserialize_from target (span out) = Some (DeserializeOk, f')
    /\ Frame_eq f' f = true
    /\ sender f' = sender f /\ receiver f' = receiver f
    /\ span (data f') = span (data f).
Proof.
  intros Hs Hr Hlen Hroom.
  eexists _, f. split; [by apply serialize_into_items|].
  cbn [span items]. split; [by apply deserialize_from_wire|].
  by rewrite Frame_eq_refl.
Qed.

(** The payload "ON (1)" contains both delimiters, so escaping is exercised;
    the destination has the capacity used by [SendData]. *)
Lemma serialize_deserialize_roundtrip_witness :
  let f := mkFrame 7 100 (mkStaticVec [79; 78; 32; 40; 49; 41]) in
  exists (out : StaticVec Z (FRAME_MAX_SIZE * 2)) (f' : Frame),
    serialize_into f sv_new = (SerializeOk, out)
    /\ deserialize_from (mkFrame 0 0 sv_new) (span out) = Some (DeserializeOk, f')
    /\ Frame_eq f' f = true
    /\ sender f' = sender f /\ receiver f' = receiver f
    /\ span (data f') = span (data f).
Proof.
  intros f.
  apply (serialize_deserialize_roundtrip (FRAME_MAX_SIZE * 2) f (mkFrame 0 0 sv_new));
    vm_compute; intuition congruence.
Defined.

(** ** command_handler.cpp: [GetFrame] *)

Section GetFrameFacts.
Context {SIZE : Z}.
Implicit Type rx : CircularBuffer SIZE.

Lemma set_tail_id rx : set_tail rx (tail rx) = rx.
Proof. by destruct rx. Qed.

Lemma set_tail_set_tail rx (a b : Z) : set_tail (set_tail rx a) b = set_tail rx b.
Proof. reflexivity. Qed.

(** A place strictly before the producer cursor is not the producer cursor. *)
Lemma offset_before_head rx (i : Z) :
  cb_wf rx -> 0 <= i < used rx -> (tail rx + i) mod SIZE <> head rx.
Proof.
  intros (HS & Ht & Hh & _) Hi Heq. unfold used in Hi.
  assert (Hu : (head rx - tail rx) mod SIZE = i mod SIZE).
  { rewrite <- Heq, Zminus_mod_idemp_l. f_equal. lia. }
  assert (i < SIZE) by (pose proof (Z.mod_pos_bound (head rx - tail rx) SIZE); lia).
  rewrite (Z.mod_small i) in Hu by lia. lia.
Qed.

Lemma peek_set_tail rx (j i : Z) :
  peek (set_tail rx ((tail rx + j) mod SIZE)) i = peek rx (j + i).
Proof.
  unfold peek. cbn [set_tail tail buf].
  by rewrite Zplus_mod_idemp_l, Z.add_assoc.
Qed.

Lemma used_set_tail rx (j : Z) :
  cb_wf rx -> 0 <= j <= used rx ->
  used (set_tail rx ((tail rx + j) mod SIZE)) = used rx - j.
Proof.
  intros (HS & Ht & Hh & _) Hj. unfold used in *. cbn [set_tail tail head].
  rewrite Zminus_mod_idemp_r.
  replace (head rx - (tail rx + j)) with ((head rx - tail rx) - j) by lia.
  rewrite <- Zminus_mod_idemp_l.
  pose proof (Z.mod_pos_bound (head rx - tail rx) SIZE).
  apply Z.mod_small. lia.
Qed.

Lemma cb_wf_set_tail rx (t : Z) :
  cb_wf rx -> cb_wf (set_tail rx (t mod SIZE)).
Proof.
  intros (HS & Ht & Hh & Hb). unfold cb_wf. cbn [set_tail tail head buf].
  pose proof (Z.mod_pos_bound t SIZE). lia.
Qed.

(** The first loop skips [j] bytes that are not BEGIN and stops at a BEGIN. *)
Lemma seek_begin_skips (j : nat) :
  forall (turns : nat) rx,
    (j < turns)%nat -> cb_wf rx ->
    Z.of_nat j < used rx ->
    (forall i, 0 <= i < Z.of_nat j -> peek rx i <> BEGIN_FRAME_BYTE) ->
    peek rx (Z.of_nat j) = BEGIN_FRAME_BYTE ->
    exists events,
      seek_begin turns rx
      = Some (set_tail rx ((tail rx + Z.of_nat j) mod SIZE), events).
Proof.
  induction j as [|j IH]; intros turns rx Ht Hwf Hu Hjunk Hbegin.
  - destruct turns as [|turns]; [lia|]. cbn [seek_begin].
    destruct Hwf as (HS & Htl & Hh & Hb).
    unfold peek in Hbegin. rewrite Z.add_0_r, Z.mod_small in Hbegin by lia.
    rewrite Hbegin, Z.eqb_refl. cbn [negb andb].
    rewrite Z.add_0_r, Z.mod_small, set_tail_id by lia. eauto.
  - destruct turns as [|turns]; [lia|]. cbn [seek_begin].
    assert (H0 : at_ (buf rx) (tail rx) <> BEGIN_FRAME_BYTE).
    { specialize (Hjunk 0 ltac:(lia)). unfold peek in Hjunk.
      destruct Hwf as (HS & Htl & Hh & Hb).
      by rewrite Z.add_0_r, Z.mod_small in Hjunk by lia. }
    assert (H1 : tail rx <> head rx).
    { pose proof (offset_before_head rx 0 Hwf ltac:(lia)) as Hne.
      destruct Hwf as (HS & Htl & Hh & Hb).
      by rewrite Z.add_0_r, Z.mod_small in Hne by lia. }
    apply Z.eqb_neq in H0, H1. rewrite H0, H1. cbn [negb andb].
    unfold getCapacity.
    destruct (IH turns (set_tail rx ((tail rx + 1) mod SIZE))) as [ev Hev].
    + lia.
    + by apply cb_wf_set_tail.
    + rewrite used_set_tail by (done || lia). lia.
    + intros i Hi. rewrite peek_set_tail. apply Hjunk. lia.
    + rewrite peek_set_tail. rewrite <- Hbegin. f_equal. lia.
    + rewrite Hev. cbn [set_tail tail head buf].
      rewrite Zplus_mod_idemp_l.
      replace (tail rx + 1 + Z.of_nat j) with (tail rx + Z.of_nat (S j)) by lia.
      eauto.
Qed.

(** The second loop, started [s] places after the cursor, walks over [k]
    bytes that are neither BEGIN nor END and stops at a BEGIN. *)
Lemma scan_end_another_begin (k : nat) :
  forall (turns : nat) rx (s : Z),
    (k < turns)%nat -> cb_wf rx -> 0 <= s ->
    s + Z.of_nat k < used rx ->
    (forall i, s <= i < s + Z.of_nat k ->
               peek rx i <> BEGIN_FRAME_BYTE /\ peek rx i <> END_FRAME_BYTE) ->
    peek rx (s + Z.of_nat k) = BEGIN_FRAME_BYTE ->
    exists events,
      scan_end turns rx ((tail rx + s) mod SIZE)
      = Some (AnotherBegin ((tail rx + (s + Z.of_nat k)) mod SIZE), events).
Proof.
  induction k as [|k IH]; intros turns rx s Ht Hwf Hs Hu Hmid Hbegin.
  - destruct turns as [|turns]; [lia|]. cbn [scan_end].
    pose proof (offset_before_head rx s Hwf ltac:(lia)) as Hne.
    apply Z.eqb_neq in Hne. rewrite Hne. cbn [negb].
    rewrite Z.add_0_r in *. unfold peek in Hbegin. rewrite Hbegin.
    change (BEGIN_FRAME_BYTE =? END_FRAME_BYTE) with false.
    cbn [negb]. rewrite Z.eqb_refl. eauto.
  - destruct turns as [|turns]; [lia|]. cbn [scan_end].
    pose proof (offset_before_head rx s Hwf ltac:(lia)) as Hne.
    apply Z.eqb_neq in Hne. rewrite Hne. cbn [negb].
    destruct (Hmid s ltac:(lia)) as [Hb He]. unfold peek in Hb, He.
    apply Z.eqb_neq in Hb, He. rewrite Hb, He. cbn [negb].
    unfold getCapacity. rewrite Zplus_mod_idemp_l.
    destruct (IH turns rx (s + 1)) as [ev Hev].
    + lia.
    + done.
    + lia.
    + lia.
    + intros i Hi. apply Hmid. lia.
    + rewrite <- Hbegin. f_equal. lia.
    + replace (tail rx + s + 1) with (tail rx + (s + 1)) by lia.
      replace (s + Z.of_nat (S k)) with (s + 1 + Z.of_nat k) by lia.
      rewrite Hev. eauto.
Qed.
End GetFrameFacts.

(** C7.  [GetFrame] first moves the consumer cursor over [j] bytes that are
    not BEGIN onto a BEGIN byte.  If, scanning forward from there, it meets
    another BEGIN ([k] places further, still before the producer cursor)
    before any END, it abandons the first candidate: it returns no frame and
    leaves the consumer cursor on that newer BEGIN; the producer cursor and
    the buffer contents are untouched. *)
Theorem GetFrame_abandons_at_newer_begin (SIZE : Z) (rx : CircularBuffer SIZE) (j k : Z) :
  cb_wf rx ->
  0 <= j -> 1 <= k -> j + k < used rx ->
  (forall i, 0 <= i < j -> peek rx i <> BEGIN_FRAME_BYTE) ->
  peek rx j = BEGIN_FRAME_BYTE ->
  (forall i, j < i < j + k ->
             peek rx i <> BEGIN_FRAME_BYTE /\ peek rx i <> END_FRAME_BYTE) ->
  peek rx (j + k) = BEGIN_FRAME_BYTE ->
  exists events,
    GetFrame rx = Some (None, set_tail rx ((tail rx + (j + k)) mod SIZE), events).
Proof.
  intros Hwf Hj Hk Hu Hjunk Hb1 Hmid Hb2.
  assert (HSIZE : used rx < SIZE).
  { destruct Hwf as (HS & _). unfold used.
    pose proof (Z.mod_pos_bound (head rx - tail rx) SIZE). lia. }
  unfold GetFrame, getCapacity.
  pose proof (seek_begin_skips (Z.to_nat j) (S (Z.to_nat SIZE)) rx) as Hseek.
  rewrite Z2Nat.id in Hseek by lia.
  destruct Hseek as [ev1 Hev1]; [lia | done | lia | done | done |].
  rewrite Hev1.
  set (rx1 := set_tail rx ((tail rx + j) mod SIZE)).
  assert (Hwf1 : cb_wf rx1) by (by apply cb_wf_set_tail).
  assert (Hu1 : used rx1 = used rx - j) by (apply used_set_tail; [done | lia]).
  pose proof (offset_before_head rx j Hwf ltac:(lia)) as Hne.
  apply Z.eqb_neq in Hne.
  change (tail rx1) with ((tail rx + j) mod SIZE).
  change (head rx1) with (head rx). rewrite Hne.
  pose proof (scan_end_another_begin (Z.to_nat (k - 1)) (S (Z.to_nat SIZE)) rx1 1)
    as Hscan.
  rewrite Z2Nat.id in Hscan by lia.
  destruct Hscan as [ev2 Hev2].
  - lia.
  - done.
  - lia.
  - lia.
  - intros i Hi. unfold rx1. rewrite peek_set_tail. apply Hmid. lia.
  - unfold rx1. rewrite peek_set_tail. rewrite <- Hb2. f_equal. lia.
  - change (tail rx1) with ((tail rx + j) mod SIZE) in Hev2. rewrite Hev2.
    rewrite Zplus_mod_idemp_l.
    replace (tail rx + j + (1 + (k - 1))) with (tail rx + (j + k)) by lia.
    unfold rx1. rewrite set_tail_set_tail. eauto.
Qed.

(** A receive buffer of eight places holding [x ( a b ( c]: one byte of
    noise, a candidate frame start, two payload bytes, a newer start. *)
Lemma GetFrame_abandons_at_newer_begin_witness :
  let rx : CircularBuffer 8 := mkCircularBuffer 0 6 [120; 40; 97; 98; 40; 99; 0; 0] in
  exists events, GetFrame rx = Some (None, set_tail rx 4, events).
Proof.
  intros rx.
  apply (GetFrame_abandons_at_newer_begin 8 rx 1 3).
  - unfold cb_wf. vm_compute. intuition congruence.
  - lia.
  - lia.
  - vm_compute. reflexivity.
  - intros i Hi. assert (i = 0) as -> by lia. vm_compute. congruence.
  - reflexivity.
  - intros i Hi. assert (i = 2 \/ i = 3) as [-> | ->] by lia;
      vm_compute; split; congruence.
  - reflexivity.
Defined.

(** ** static_vec.h: [push_slice] *)

(** C10.  [push_slice] appends the elements of the slice one by one, in
    order, and stops at the first rejected push: the vector ends up holding
    its old contents followed by the longest prefix of the slice that fits,
    so its size never exceeds its capacity; and the value returned is 0
    whatever the number of elements appended.  A caller therefore sees the
    same return value for a slice that was truncated and for one that was
    not. *)
Theorem push_slice_returns_zero (T : Type) (SIZE : Z)
    (v : StaticVec T SIZE) (slice : list T) :
  size v <= SIZE ->
  snd (push_slice v slice) = 0
  /\ items (fst (push_slice v slice))
     = items v ++ take (Z.to_nat (SIZE - size v)) slice
  /\ size (fst (push_slice v slice)) <= SIZE
  /\ forall other : list T, snd (push_slice v other) = snd (push_slice v slice).
Proof.
  intros Hv. unfold push_slice. cbn [fst snd].
  pose proof (push_slice_loop_items v slice Hv) as Hi.
  repeat split; try done.
  unfold size in *. rewrite Hi, length_app, length_take. lia.
Qed.

(** A vector of capacity 4 already holding one byte takes three of the five
    bytes offered; the return value is 0. *)
Lemma push_slice_returns_zero_witness :
  let v : StaticVec Z 4 := mkStaticVec [9] in
  snd (push_slice v [1; 2; 3; 4; 5]) = 0
  /\ items (fst (push_slice v [1; 2; 3; 4; 5])) = [9; 1; 2; 3]
  /\ size (fst (push_slice v [1; 2; 3; 4; 5])) <= 4
  /\ forall other : list Z, snd (push_slice v other) = snd (push_slice v [1; 2; 3; 4; 5]).
Proof.
  intros v.
  exact (push_slice_returns_zero Z 4 v [1; 2; 3; 4; 5] ltac:(vm_compute; congruence)).
Defined.

(** [SendData] builds its payload with [push_slice]: what is sent carries the
    first FRAME_DATA_MAX_SIZE bytes of the response and nothing tells the
    caller that the rest was dropped. *)
Lemma SendData_payload (r : Z) (payload : list Z) :
  SendData r payload
  = let frame := mkFrame LOCAL_ID r
                   (mkStaticVec (take (Z.to_nat FRAME_DATA_MAX_SIZE) payload)) in
    if negb (is_SerializeOk (fst (serialize_into frame (sv_new : StaticVec Z (FRAME_MAX_SIZE * 2)))))
    then None
    else Some (span (snd (serialize_into frame (sv_new : StaticVec Z (FRAME_MAX_SIZE * 2))))).
Proof.
  unfold SendData. cbn [set_sender set_receiver set_data sender receiver data].
  unfold push_slice. cbn [fst].
  assert (Hd : push_slice_loop (sv_new : StaticVec Z FRAME_DATA_MAX_SIZE) payload
               = mkStaticVec (take (Z.to_nat FRAME_DATA_MAX_SIZE) payload)).
  { pose proof (push_slice_loop_items (sv_new : StaticVec Z FRAME_DATA_MAX_SIZE) payload)
      as Hi.
    destruct (push_slice_loop sv_new payload) as [x]. cbn [items] in Hi.
    rewrite Hi by (vm_compute; congruence).
    change (size sv_new) with 0. by rewrite Z.sub_0_r. }
  rewrite Hd. cbv zeta.
  by destruct (serialize_into _ _) as [err out].
Qed.

(** ** frame.h: the payload bound *)

(** C5, as stated, fails: the constant is not FRAME_MAX_SIZE - 10 = 1270.
    An encoded frame of FRAME_MAX_SIZE bytes that declares 1270 payload bytes
    is turned down with DataTooBig; and a payload of 1270 bytes stored with
    [push_slice], as [SendData] stores it, is cut to 1268 bytes and then
    serialized with SerializeOk, not turned down with FrameTooLongError. *)
Lemma FRAME_DATA_MAX_SIZE_is_not_1270 :
  FRAME_DATA_MAX_SIZE <> FRAME_MAX_SIZE - 10
  /\ FRAME_MAX_SIZE - 10 = 1270
  /\ lsize (BEGIN_FRAME_BYTE :: 1 :: 100 :: 4 :: 246 :: replicate 1274 0 ++ [END_FRAME_BYTE])
     = FRAME_MAX_SIZE
  /\ option_map fst
       (deserialize_from (mkFrame 0 0 sv_new)
          (BEGIN_FRAME_BYTE :: 1 :: 100 :: 4 :: 246 :: replicate 1274 0 ++ [END_FRAME_BYTE]))
     = Some DataTooBig
  /\ size (fst (push_slice (sv_new : StaticVec Z FRAME_DATA_MAX_SIZE) (replicate 1270 0)))
     = 1268
  /\ fst (serialize_into
            (mkFrame 1 100
               (fst (push_slice (sv_new : StaticVec Z FRAME_DATA_MAX_SIZE)
                       (replicate 1270 0))))
            (sv_new : StaticVec Z (FRAME_MAX_SIZE * 2))) = SerializeOk.
Proof. vm_compute. repeat split; congruence. Qed.

Lemma serialize_into_too_long {SIZE} (f : Frame) (out : StaticVec Z SIZE) :
  fst (serialize_into f out) = FrameTooLongError <-> size (data f) > FRAME_DATA_MAX_SIZE.
Proof.
  unfold serialize_into.
  destruct (Z.gtb_spec (size (data f)) FRAME_DATA_MAX_SIZE) as [Hgt|Hle].
  - cbn [fst]. split; [lia | done].
  - unfold serialize_fields. cbn [is_SerializeOk negb].
    destruct (push_back _ END_FRAME_BYTE) as [o rej].
    destruct (has_value rej); cbn [fst]; split; (lia || congruence).
Qed.

Lemma from_be_bytes_1 (b : Z) : from_be_bytes [b] = b.
Proof. unfold from_be_bytes. cbn. lia. Qed.

Lemma from_be_bytes_2 (hi lo : Z) : from_be_bytes [hi; lo] = 256 * hi + lo.
Proof. unfold from_be_bytes. cbn. lia. Qed.

Lemma deserialize_declared_too_big {SIZE} (target : Frame) (s r hi lo : Z) (rest : list Z) :
  256 * hi + lo > FRAME_DATA_MAX_SIZE ->
  deserialize_from_decoded target (mkStaticVec (s :: r :: hi :: lo :: rest) : StaticVec Z SIZE)
  = (DataTooBig, set_receiver (set_sender target s) r).
Proof.
  intros Hbig. unfold deserialize_from_decoded. cbn [span items].
  rewrite (deserialize_at 1 _ [] [s] (r :: hi :: lo :: rest) 0) by done.
  cbn [is_DeserializeOk negb].
  rewrite (deserialize_at 1 _ [s] [r] (hi :: lo :: rest)) by done.
  cbn [is_DeserializeOk negb].
  rewrite (deserialize_at 2 _ [s; r] [hi; lo] rest) by done.
  cbn [is_DeserializeOk negb].
  rewrite from_be_bytes_1, from_be_bytes_1, from_be_bytes_2.
  by destruct (Z.gtb_spec (256 * hi + lo) FRAME_DATA_MAX_SIZE) as [_|]; [|lia].
Qed.

(** C5, amended.  FRAME_DATA_MAX_SIZE is FRAME_MAX_SIZE - FRAME_MIN_SIZE - 2,
    that is 1268 for FRAME_MAX_SIZE = 1280.  It is the capacity of the
    payload vector of a frame: a payload stored with [push_slice] is cut to
    what fits, so a frame never holds more than 1268 payload bytes and
    [serialize_into] never answers FrameTooLongError; decoding answers
    DataTooBig for every declared length above the constant.  The first
    hypothesis is the invariant of the vector class ([head] never exceeds
    the capacity). *)
Theorem FRAME_DATA_MAX_SIZE_bound (SIZE DSIZE : Z) (f target : Frame)
    (out : StaticVec Z SIZE) (payload : list Z) (s r hi lo : Z) (rest : list Z) :
  size (data f) <= capacity (data f) ->
  256 * hi + lo > FRAME_DATA_MAX_SIZE ->
  FRAME_DATA_MAX_SIZE = FRAME_MAX_SIZE - FRAME_MIN_SIZE - 2
  /\ FRAME_DATA_MAX_SIZE = 1268
  /\ capacity (data f) = FRAME_DATA_MAX_SIZE
  /\ fst (serialize_into f out) <> FrameTooLongError
  /\ span (fst (push_slice (data f) payload))
     = span (data f) ++ take (Z.to_nat (FRAME_DATA_MAX_SIZE - size (data f))) payload
  /\ size (fst (push_slice (data f) payload)) <= FRAME_DATA_MAX_SIZE
  /\ fst (deserialize_from_decoded target
            (mkStaticVec (s :: r :: hi :: lo :: rest) : StaticVec Z DSIZE))
     = DataTooBig.
Proof.
  intros Hinv Hbig. unfold capacity in Hinv.
  split; [reflexivity|]. split; [reflexivity|]. split; [reflexivity|].
  split; [intros Hlong; apply serialize_into_too_long in Hlong; lia|].
  pose proof (push_slice_loop_items (data f) payload Hinv) as Hi.
  unfold push_slice, span. cbn [fst]. split; [exact Hi|].
  split; [|by rewrite deserialize_declared_too_big].
  unfold size in *. rewrite Hi, length_app, length_take. lia.
Qed.

(** A frame holding one byte that is given three more, and a declared length
    of 1269 = 4 * 256 + 245, one above the bound. *)
Lemma FRAME_DATA_MAX_SIZE_bound_witness :
  FRAME_DATA_MAX_SIZE = FRAME_MAX_SIZE - FRAME_MIN_SIZE - 2
  /\ FRAME_DATA_MAX_SIZE = 1268
  /\ capacity (data (mkFrame 1 100 (mkStaticVec [65]))) = FRAME_DATA_MAX_SIZE
  /\ fst (serialize_into (mkFrame 1 100 (mkStaticVec [65]))
            (sv_new : StaticVec Z 64)) <> FrameTooLongError
  /\ span (fst (push_slice (data (mkFrame 1 100 (mkStaticVec [65]))) [66; 67; 68]))
     = span (data (mkFrame 1 100 (mkStaticVec [65])))
       ++ take (Z.to_nat (FRAME_DATA_MAX_SIZE
                          - size (data (mkFrame 1 100 (mkStaticVec [65])))))
            [66; 67; 68]
  /\ size (fst (push_slice (data (mkFrame 1 100 (mkStaticVec [65]))) [66; 67; 68]))
     <= FRAME_DATA_MAX_SIZE
  /\ fst (deserialize_from_decoded (mkFrame 0 0 sv_new)
            (mkStaticVec [1; 100; 4; 245; 65; 66] : StaticVec Z FRAME_MAX_SIZE))
     = DataTooBig.
Proof.
  apply (FRAME_DATA_MAX_SIZE_bound 64 FRAME_MAX_SIZE (mkFrame 1 100 (mkStaticVec [65]))
           (mkFrame 0 0 sv_new) sv_new [66; 67; 68] 1 100 4 245 [65; 66]).
  - vm_compute. congruence.
  - vm_compute. reflexivity.
Defined.

(** ** frame.cpp: what a checksum mismatch leaves behind *)

Lemma StaticVec_eq {T SIZE} (a b : StaticVec T SIZE) : items a = items b -> a = b.
Proof. destruct a, b. cbn. by intros ->. Qed.

Lemma deserialize_from_decoded_crc_mismatch {SIZE} (target f' : Frame)
    (decoded : StaticVec Z SIZE) :
  deserialize_from_decoded target decoded = (CRC32MissMatch, f') ->
  f' = parsed_frame (span decoded)
  /\ forall target', deserialize_from_decoded target' decoded = (CRC32MissMatch, f').
Proof.
  intros H.
  assert (Hgen : forall t, deserialize_from_decoded t decoded
                           = deserialize_from_decoded target decoded
                           /\ snd (deserialize_from_decoded t decoded)
                              = parsed_frame (span decoded)).
  { intros t. revert H.
    unfold deserialize_from_decoded, deserialize, span, lsize.
    cbn [set_sender set_receiver set_data sender receiver data clear fst].
    destruct (0 + Z.of_nat 1 >? _); cbn [is_DeserializeOk negb]; [discriminate|].
    destruct (0 + Z.of_nat 1 + Z.of_nat 1 >? _); cbn [is_DeserializeOk negb];
      [discriminate|].
    destruct (0 + Z.of_nat 1 + Z.of_nat 1 + Z.of_nat 2 >? _);
      cbn [is_DeserializeOk negb]; [discriminate|].
    destruct (Z.gtb_spec (from_be_bytes (take 2 (drop (Z.to_nat (0 + Z.of_nat 1 + Z.of_nat 1))
                                                   (items decoded))))
                FRAME_DATA_MAX_SIZE) as [|Hle]; [discriminate|].
    destruct (_ >=? _); [discriminate|].
    destruct (_ >? _); cbn [is_DeserializeOk negb]; [discriminate|].
    destruct (_ =? size decoded); cbn [negb]; [|discriminate].
    intros H. split; [reflexivity|].
    assert (Hfit : forall (t0 : Frame) (l : list Z) (n : Z),
               n <= FRAME_DATA_MAX_SIZE ->
               (push_slice (clear (data t0)) (take (Z.to_nat n) l)).1
               = mkStaticVec (take (Z.to_nat n) l)).
    { intros t0 l n Hn. apply StaticVec_eq. unfold push_slice. cbn [fst items].
      rewrite push_slice_loop_fits; [reflexivity|].
      unfold size, lsize. cbn [items clear length]. rewrite length_take.
      assert (FRAME_DATA_MAX_SIZE = 1268) by reflexivity. lia. }
    rewrite Hfit by lia.
    match goal with |- context [if ?c then _ else _] => destruct c end;
      cbn [snd]; reflexivity. }
  split.
  - destruct (Hgen target) as [_ Hp]. rewrite H in Hp. exact Hp.
  - intros t. destruct (Hgen t) as [-> _]. exact H.
Qed.

Lemma decode_byte_not_crc (l : list Z) (o : Z) :
  fst (fst (decode_byte l o)) <> CRC32MissMatch.
Proof. unfold decode_byte. repeat case_match; cbn; congruence. Qed.

Lemma decode_bytes_loop_not_crc {SIZE} (turns : nat) :
  forall (l : list Z) (dec : Z) (out out' : StaticVec Z SIZE) (err : DeserializeError),
    decode_bytes_loop turns l dec out = Some (err, out') -> err <> CRC32MissMatch.
Proof.
  induction turns as [|turns IH]; intros l dec out out' err; [done|].
  cbn [decode_bytes_loop].
  destruct (lsize l =? 0); [by intros [= <- _]|].
  pose proof (decode_byte_not_crc l dec) as Hb.
  destruct (decode_byte l dec) as [[e b] r]. cbn [fst] in Hb.
  destruct e; cbn [is_DeserializeOk negb];
    try (intros [= <- _]; congruence).
  apply IH.
Qed.

(** C9.  When [deserialize_from] answers CRC32MissMatch, the target frame
    has been overwritten with what was parsed from the decoded bytes: the
    sender, the receiver and the payload of the corrupted frame.  The frame
    left behind does not depend on what the target held before the call, so
    nothing of its previous contents survives. *)
Theorem deserialize_from_crc_mismatch_overwrites (target f' : Frame) (encoded : list Z) :
  deserialize_from target encoded = Some (CRC32MissMatch, f') ->
  exists decoded : StaticVec Z FRAME_MAX_SIZE,
    decode_bytes (interior encoded) sv_new = Some (DeserializeOk, decoded)
    /\ f' = parsed_frame (span decoded)
    /\ forall target', deserialize_from target' encoded = Some (CRC32MissMatch, f').
Proof.
  unfold deserialize_from. fold (interior encoded).
  destruct (lsize encoded <? FRAME_MIN_SIZE); [discriminate|].
  destruct (negb (encoded !!! 0%nat =? BEGIN_FRAME_BYTE)); [discriminate|].
  destruct (negb (encoded !!! Z.to_nat (lsize encoded - 1) =? END_FRAME_BYTE));
    [discriminate|].
  destruct (decode_bytes (interior encoded) sv_new) as [[err decoded]|] eqn:Hdec;
    [|discriminate].
  pose proof (decode_bytes_loop_not_crc _ _ _ _ _ _ Hdec) as Hne.
  destruct err; cbn [is_DeserializeOk negb]; try (intros [= ]; congruence).
  intros [= H]. apply deserialize_from_decoded_crc_mismatch in H as [Hf Hall].
  exists decoded. split; [done|]. split; [done|].
  intros target'. by rewrite Hall.
Qed.

(** The frame (7 -> 100, "ON") with its second payload byte changed to 'M'
    on the wire, decoded into a target that held (1 -> 2, [9; 9; 9]). *)
Lemma deserialize_from_crc_mismatch_overwrites_witness :
  exists decoded : StaticVec Z FRAME_MAX_SIZE,
    decode_bytes (interior [40; 7; 100; 0; 2; 79; 77; 80; 204; 145; 105; 41]) sv_new
    = Some (DeserializeOk, decoded)
    /\ mkFrame 7 100 (mkStaticVec [79; 77]) = parsed_frame (span decoded)
    /\ forall target',
         deserialize_from target' [40; 7; 100; 0; 2; 79; 77; 80; 204; 145; 105; 41]
         = Some (CRC32MissMatch, mkFrame 7 100 (mkStaticVec [79; 77])).
Proof.
  apply (deserialize_from_crc_mismatch_overwrites (mkFrame 1 2 (mkStaticVec [9; 9; 9]))).
  vm_compute. reflexivity.
Defined.

(** ** circular_buffer.h: the invariant of the two cursors *)

Section RingFacts.
Context {SIZE : Z}.
Implicit Type cb : CircularBuffer SIZE.

Lemma cb_new_wf : 0 < SIZE -> cb_wf (cb_new : CircularBuffer SIZE).
Proof.
  intros H. unfold cb_wf, cb_new, lsize. cbn [tail head buf].
  rewrite length_replicate. lia.
Qed.

Lemma apply_op_wf cb (op : RingOp) : cb_wf cb -> cb_wf (apply_op cb op).
Proof.
  intros (HS & Ht & Hh & Hb).
  pose proof (Z.mod_pos_bound (head cb + 1) SIZE HS).
  pose proof (Z.mod_pos_bound (tail cb + 1) SIZE HS).
  destruct op as [v| |v|]; cbn [apply_op].
  - unfold push_head. destruct (negb _); cbn [fst]; unfold cb_wf, lsize in *;
      cbn [tail head buf]; rewrite ?length_insert; lia.
  - unfold pop_tail. destruct (negb _); cbn [fst]; unfold cb_wf in *;
      cbn [tail head buf]; lia.
  - unfold store_next, cb_wf, lsize in *. cbn [tail head buf].
    rewrite length_insert. lia.
  - unfold advance_head. destruct (_ =? _); unfold cb_wf in *;
      cbn [tail head buf]; lia.
Qed.

Lemma run_ops_wf (ops : list RingOp) :
  0 < SIZE -> cb_wf (run_ops ops : CircularBuffer SIZE).
Proof.
  intros HS. unfold run_ops.
  assert (H0 := cb_new_wf HS). revert H0. generalize (cb_new : CircularBuffer SIZE).
  induction ops as [|op ops IH]; intros cb Hwf; cbn [fold_left]; [done|].
  apply IH, apply_op_wf, Hwf.
Qed.

Lemma contents_length cb : cb_wf cb -> lsize (contents cb) = used cb.
Proof.
  intros (HS & _). unfold contents, lsize.
  rewrite length_map, length_seqZ.
  pose proof (Z.mod_pos_bound (head cb - tail cb) SIZE HS). unfold used. lia.
Qed.

(** Empty exactly when the cursors meet. *)
Lemma used_zero_iff cb : cb_wf cb -> (used cb = 0 <-> head cb = tail cb).
Proof.
  intros (HS & Ht & Hh & _). unfold used. split.
  - intros H0.
    destruct (Z.le_gt_cases (tail cb) (head cb)).
    + rewrite Z.mod_small in H0 by lia. lia.
    + replace (head cb - tail cb) with ((head cb - tail cb + SIZE) - 1 * SIZE) in H0 by lia.
      rewrite <- Zminus_mod_idemp_r, Z.mod_mul, Z.sub_0_r, Z.mod_small in H0 by lia.
      lia.
  - intros ->. by rewrite Z.sub_diag, Z.mod_0_l by lia.
Qed.

(** One place is always left free. *)
Lemma used_below_capacity cb : cb_wf cb -> 0 <= used cb <= SIZE - 1.
Proof.
  intros (HS & _). unfold used.
  pose proof (Z.mod_pos_bound (head cb - tail cb) SIZE HS). lia.
Qed.

(** What [getSize] returns: the number of bytes held, except that it
    answers [SIZE] when the cursors meet. *)
Lemma getSize_spec cb :
  cb_wf cb -> getSize cb = if head cb =? tail cb then SIZE else used cb.
Proof.
  intros (HS & Ht & Hh & _). unfold getSize, used.
  destruct (Z.gtb_spec (head cb) (tail cb)) as [Hgt|Hle];
    destruct (Z.eqb_spec (head cb) (tail cb)) as [Heq|Hne]; try lia.
  - by rewrite Z.mod_small by lia.
  - replace (head cb - tail cb) with ((head cb - tail cb + SIZE) - 1 * SIZE) by lia.
    rewrite <- Zminus_mod_idemp_r, Z.mod_mul, Z.sub_0_r, Z.mod_small by lia.
    lia.
Qed.

(** What holds after every sequence of operations: the buffer is empty
    exactly when the cursors meet, it never holds more than [SIZE - 1]
    bytes, and [getSize] tells the number of bytes held whenever the buffer
    is not empty. *)
Lemma run_ops_invariant (ops : list RingOp) :
  0 < SIZE ->
  let cb : CircularBuffer SIZE := run_ops ops in
  (contents cb = [] <-> head cb = tail cb)
  /\ lsize (contents cb) <= SIZE - 1
  /\ (head cb <> tail cb -> getSize cb = lsize (contents cb))
  /\ (head cb = tail cb -> getSize cb = SIZE).
Proof.
  intros HS cb. pose proof (run_ops_wf ops HS) as Hwf. fold cb in Hwf.
  pose proof (contents_length cb Hwf) as Hl.
  pose proof (used_zero_iff cb Hwf) as Hz.
  pose proof (used_below_capacity cb Hwf) as Hu.
  pose proof (getSize_spec cb Hwf) as Hg.
  repeat split.
  - intros Hnil. apply Hz. rewrite <- Hl, Hnil. reflexivity.
  - intros Heq. apply Hz in Heq. rewrite <- Hl in Heq.
    destruct (contents cb); [done | unfold lsize in Heq; simpl in Heq; lia].
  - lia.
  - intros Hne. rewrite Hg. destruct (Z.eqb_spec (head cb) (tail cb)); [done | lia].
  - intros Heq. rewrite Hg. by rewrite Heq, Z.eqb_refl.
Qed.
End RingFacts.

(** C4 (the code departs from the claim).  On the receive buffer of the
    firmware in its initial state, and again after one byte has been pushed
    and popped, the cursors meet, no byte is held and nothing can be popped,
    yet [getSize] answers the full capacity 5120 instead of 0. *)
Theorem getSize_of_empty_buffer :
  let fresh : CircularBuffer (FRAME_MAX_SIZE * 4) := cb_new in
  let drained : CircularBuffer (FRAME_MAX_SIZE * 4) := run_ops [PushHead 65; PopTail] in
  (head fresh = tail fresh /\ contents fresh = [] /\ snd (pop_tail fresh) = None
   /\ getSize fresh = 5120)
  /\ (head drained = tail drained /\ contents drained = []
      /\ snd (pop_tail drained) = None /\ getSize drained = 5120).
Proof. vm_compute. repeat split; reflexivity. Qed.

(** ** commands.cpp: [Printf] *)

(** Evaluates the format string of a [Printf] call. *)
Ltac Printf_fmt :=
  unfold Printf;
  match goal with
  | |- context [bytes_of_string ?fmt] =>
      let f := eval vm_compute in (bytes_of_string fmt) in
      change (bytes_of_string fmt) with f
  end;
  cbn [vformat mbind Exec_bind].

(** [%s] given a C string appends its characters. *)
Lemma Printf_cstring (ret : bytes) (s : list Z) :
  Printf ret "%s" [VaCString s] = Done (ret ++ s).
Proof. Printf_fmt. by rewrite app_nil_r. Qed.

(** [%s] given a [std::string_view] object has no defined result: this is
    what [Printf(ret, "%s", kInvalidArgument)] does in the two handlers that
    read numbers. *)
Lemma Printf_string_view (ret : bytes) (s : string_view) :
  Printf ret "%s" [VaStringView s] = Faulted FormatMismatch.
Proof. reflexivity. Qed.

Lemma Printf_cstring_d (ret : bytes) (s : list Z) (v : Z) :
  Printf ret "%s %d" [VaCString s; VaInt v] = Done (ret ++ s ++ 32 :: format_d v).
Proof. Printf_fmt. by rewrite ?app_nil_r. Qed.

Lemma Printf_sp_d (ret : bytes) (v : Z) :
  Printf ret " %d" [VaInt v] = Done (ret ++ 32 :: format_d v).
Proof. Printf_fmt. by rewrite ?app_nil_r. Qed.

Lemma Printf_sp_c (ret : bytes) (v : Z) :
  Printf ret " %c" [VaInt v] = Done (ret ++ [32; v mod 256]).
Proof. reflexivity. Qed.

(** ** commands.cpp: [CmdSetFreq] *)

(** C3 (the code departs from the claim).  For the argument 0 the handler
    divides TIMER_FREQ by the value before it tests [value == 0]: its
    evaluation is an integer division by zero, whatever the state, and the
    INVALID_FREQUENCY answer is never produced by a defined execution; the
    same holds through the dispatcher and the frame handler. *)
Theorem CmdSetFreq_zero_divides_first (w : World) (ret : bytes) (sender_id : Z) :
  CmdSetFreq w ret [bytes_of_string "SET_FREQ"; bytes_of_string "0"]
  = Faulted DivideByZero
  /\ ExecuteCommand w [bytes_of_string "SET_FREQ"; bytes_of_string "0"] ret
     = Faulted DivideByZero
  /\ HandleFrame w (mkFrame sender_id LOCAL_ID (mkStaticVec (bytes_of_string "SET_FREQ 0")))
     = Faulted DivideByZero.
Proof. repeat split. Qed.

(** More generally, every argument that reads as zero ("0", "00", ...). *)
Lemma CmdSetFreq_zero_value (w : World) (ret : bytes) (name arg : bytes_view) :
  parse_u32 arg = Some 0 ->
  CmdSetFreq w ret [name; arg] = Faulted DivideByZero.
Proof.
  unfold parse_u32, CmdSetFreq.
  change ([name; arg] !!! 1%nat) with arg.
  destruct (from_chars arg 0) as [[ptr ec] value].
  destruct (negb (errc_is_ok ec) || negb (ptr =? lsize arg)); [discriminate|].
  by intros [= ->].
Qed.

(** ** commands.cpp: [CmdSetDutyCycles] *)

Lemma SetDutyCycles_parse_cons (arg : bytes_view) (rest : list bytes_view) (acc : list Z) :
  SetDutyCycles_parse (arg :: rest) acc
  = match parse_u32 arg with
    | None => None
    | Some value => SetDutyCycles_parse rest (acc ++ [value])
    end.
Proof.
  cbn [SetDutyCycles_parse]. unfold parse_u32.
  destruct (from_chars arg 0) as [[ptr ec] value].
  by destruct (negb (errc_is_ok ec) || negb (ptr =? lsize arg)).
Qed.

Lemma SetDutyCycles_parse_mapM (rest : list bytes_view) (acc : list Z) :
  SetDutyCycles_parse rest acc = (fun l => acc ++ l) <$> mapM parse_u32 rest.
Proof.
  revert acc. induction rest as [|arg rest IH]; intros acc.
  - cbn. by rewrite app_nil_r.
  - rewrite SetDutyCycles_parse_cons. cbn [mapM].
    destruct (parse_u32 arg) as [value|]; cbn; [|done].
    rewrite IH. destruct (mapM parse_u32 rest); cbn; [|done].
    by rewrite <- app_assoc.
Qed.

Lemma SetDutyCycles_any_of_true (params : list Z) (arr : Z) :
  forall user duty,
    Exists (fun v => 100 < v) params ->
    fst (fst (SetDutyCycles_any_of params arr user duty)) = true.
Proof.
  induction params as [|v params IH]; intros user duty Hex; [by inversion Hex|].
  cbn [SetDutyCycles_any_of].
  destruct (Z.gtb_spec v 100) as [Hgt|Hle].
  - by rewrite orb_true_r.
  - rewrite orb_false_r. destruct (v <? 0); [done|].
    apply IH. inversion Hex; subst; [lia | done].
Qed.

(** C6, as stated, fails: 4294967296 is a value outside 0-100, yet the
    request "50 4294967296" leaves the handler through the exit for
    arguments that [std::from_chars] rejects, before any range test, and
    INVALID_DUTY_CYCLE is not its answer (the same happens for "50 -1"). *)
Lemma CmdSetDutyCycles_out_of_range_not_always_invalid_duty_cycle :
  let w := mkWorld (mkDeviceState [500] [50] true)
             (mkHardware 42000000 999 0 true (Some [500])) in
  let args := [bytes_of_string "SET_DUTY_CYCLES"; bytes_of_string "50";
               bytes_of_string "4294967296"] in
  SetDutyCycles_parse (drop 1 args) [] = None
  /\ CmdSetDutyCycles w [] args <> Done (w, kInvalidDutyCycle).
Proof. vm_compute. split; [reflexivity | discriminate]. Qed.

(** A request with an argument that is not an unsigned 32-bit decimal number
    reaches [Printf(ret, "%s", kInvalidArgument)], and nothing else. *)
Lemma CmdSetDutyCycles_unreadable (w : World) (ret : bytes) (args : list bytes_view) :
  mapM parse_u32 (drop 1 args) = None ->
  CmdSetDutyCycles w ret args = Faulted FormatMismatch.
Proof.
  intros H. unfold CmdSetDutyCycles. by rewrite SetDutyCycles_parse_mapM, H.
Qed.

(** So does SET_FREQ. *)
Lemma CmdSetFreq_unreadable (w : World) (ret : bytes) (name arg : bytes_view) :
  parse_u32 arg = None ->
  CmdSetFreq w ret [name; arg] = Faulted FormatMismatch.
Proof.
  unfold parse_u32, CmdSetFreq.
  change ([name; arg] !!! 1%nat) with arg.
  destruct (from_chars arg 0) as [[ptr ec] value].
  by destruct (negb (errc_is_ok ec) || negb (ptr =? lsize arg)).
Qed.

(** C6, amended.  For every prior state and every SET_DUTY_CYCLES request
    whose arguments all read as unsigned 32-bit decimal numbers and of which
    at least one is above 100, the handler answers INVALID_DUTY_CYCLE and
    leaves the stored duty-cycle set, the stored user percentages and the
    rest of the state exactly as they were. *)
Theorem CmdSetDutyCycles_all_or_nothing (w : World) (ret : bytes)
    (args : list bytes_view) (params : list Z) :
  mapM parse_u32 (drop 1 args) = Some params ->
  Exists (fun v => 100 < v) params ->
  CmdSetDutyCycles w ret args = Done (w, ret ++ kInvalidDutyCycle).
Proof.
  intros Hp Hex. unfold CmdSetDutyCycles.
  rewrite SetDutyCycles_parse_mapM, Hp. cbn [fmap option_fmap option_map app].
  pose proof (SetDutyCycles_any_of_true params (u32 (ARR (htim2 w) + 1)) [] [] Hex) as Ht.
  destruct (SetDutyCycles_any_of _ _ _ _) as [[invalid user] duty].
  cbn [fst] in Ht. rewrite Ht. cbn [negb]. by rewrite Printf_cstring.
Qed.

(** The scenario of the specification: [SET_DUTY_CYCLES 50 150] while 50%
    is being generated. *)
Lemma CmdSetDutyCycles_all_or_nothing_witness :
  let w := mkWorld (mkDeviceState [500] [50] true)
             (mkHardware 42000000 999 0 true (Some [500])) in
  CmdSetDutyCycles w []
    [bytes_of_string "SET_DUTY_CYCLES"; bytes_of_string "50"; bytes_of_string "150"]
  = Done (w, [] ++ kInvalidDutyCycle).
Proof.
  intros w.
  apply (CmdSetDutyCycles_all_or_nothing w [] _ [50; 150]).
  - vm_compute. reflexivity.
  - apply Exists_cons_tl, Exists_cons_hd. lia.
Defined.

(** ** usart_tx_handler.cpp: [SendData] always sends one frame *)

Lemma SendData_sends (r : Z) (payload : list Z) :
  0 <= r < 256 ->
  exists wire,
    SendData r payload = Some wire
    /\ forall target,
         deserialize_from target wire
         = Some (DeserializeOk,
                 mkFrame LOCAL_ID r (mkStaticVec (take (Z.to_nat FRAME_DATA_MAX_SIZE) payload))).
Proof.
  intros Hr. rewrite SendData_payload. cbv zeta.
  set (frame := mkFrame LOCAL_ID r _).
  assert (Hmax : FRAME_DATA_MAX_SIZE = 1268) by reflexivity.
  assert (Hsz : size (data frame) <= FRAME_DATA_MAX_SIZE).
  { unfold frame, size. cbn [data items]. rewrite length_take. lia. }
  rewrite serialize_into_items by (unfold FRAME_MAX_SIZE; lia).
  cbn [fst snd is_SerializeOk negb span items]. eexists. split; [reflexivity|].
  intros target. apply deserialize_from_wire; [by unfold frame, LOCAL_ID | done | done].
Qed.

(** ** commands.cpp: when the handlers run to completion *)

Lemma SetFreq_rescale_completes (user : list Z) (arr : Z) :
  forall (i : nat) (duty : list Z),
    (i + length user <= length duty)%nat ->
    exists duty', SetFreq_rescale user i arr duty = Done duty'
                  /\ length duty' = length duty.
Proof.
  induction user as [|u user IH]; intros i duty Hlen; cbn [SetFreq_rescale].
  - eauto.
  - cbn [length] in Hlen.
    destruct (Nat.ltb_spec i (length duty)) as [_|]; [|lia].
    destruct (IH (S i) (<[i:=u32 (u * arr / 100)]> duty)) as (duty' & -> & Hl).
    + rewrite length_insert. lia.
    + rewrite length_insert in Hl. eauto.
Qed.

Lemma CmdSetFreq_completes (w : World) (ret : bytes) (args : list bytes_view) :
  world_ok w ->
  parse_u32 (args !!! 1%nat) <> Some 0 -> parse_u32 (args !!! 1%nat) <> None ->
  exists w' ret', CmdSetFreq w ret args = Done (w', ret').
Proof.
  intros [_ Hlen] Hnz Hsome. unfold CmdSetFreq, parse_u32 in *.
  destruct (from_chars (args !!! 1%nat) 0) as [[ptr ec] value].
  destruct (negb (errc_is_ok ec) || negb (ptr =? lsize (args !!! 1%nat))); [done|].
  unfold udiv32. destruct (Z.eqb_spec value 0) as [->|_]; [done|].
  cbn [mbind Exec_bind].
  destruct ((TIMER_FREQ w / value =? 0) || false).
  { rewrite Printf_cstring. cbn [mbind Exec_bind]. eauto. }
  destruct (isPwmGenerated (gDeviceState w)).
  - cbn [SetArr StopPWM gDeviceState htim2 set_isPwmGenerated userDutyCycles dutyCycles].
    destruct (SetFreq_rescale_completes (userDutyCycles (gDeviceState w))
                (TIMER_FREQ w / value) 0 (dutyCycles (gDeviceState w)) Hlen)
      as (duty' & -> & _).
    cbn [mbind Exec_bind]. rewrite Printf_cstring_d. cbn [mbind Exec_bind]. eauto.
  - cbn [SetArr gDeviceState htim2].
    destruct (SetFreq_rescale_completes (userDutyCycles (gDeviceState w))
                (TIMER_FREQ w / value) 0 (dutyCycles (gDeviceState w)) Hlen)
      as (duty' & -> & _).
    cbn [mbind Exec_bind]. rewrite Printf_cstring_d. cbn [mbind Exec_bind]. eauto.
Qed.

Lemma CmdSetDutyCycles_completes (w : World) (ret : bytes) (args : list bytes_view) :
  mapM parse_u32 (drop 1 args) <> None ->
  exists w' ret', CmdSetDutyCycles w ret args = Done (w', ret').
Proof.
  intros Hp. unfold CmdSetDutyCycles. rewrite SetDutyCycles_parse_mapM.
  destruct (mapM parse_u32 (drop 1 args)) as [params|]; [|done].
  cbn [fmap option_fmap option_map].
  destruct (SetDutyCycles_any_of _ _ _ _) as [[invalid user] duty].
  destruct (negb invalid); rewrite Printf_cstring; cbn [mbind Exec_bind]; eauto.
Qed.

Lemma Status_for_each_completes (arr : Z) (cnts : list Z) :
  arr <> 0 -> forall ret, exists ret', Status_for_each cnts arr ret = Done ret'.
Proof.
  intros Harr. induction cnts as [|cnt cnts IH]; intros ret; cbn [Status_for_each].
  - eauto.
  - unfold udiv32. destruct (Z.eqb_spec arr 0); [done|].
    cbn [mbind Exec_bind]. rewrite Printf_sp_d. cbn [mbind Exec_bind]. apply IH.
Qed.

Lemma CmdStatus_completes (w : World) (ret : bytes) (args : list bytes_view) :
  world_ok w -> exists w' ret', CmdStatus w ret args = Done (w', ret').
Proof.
  intros [Harr _]. unfold CmdStatus.
  rewrite Printf_cstring. cbn [mbind Exec_bind].
  rewrite Printf_sp_c. cbn [mbind Exec_bind].
  unfold udiv32 at 1. destruct (Z.eqb_spec (u32 (ARR (htim2 w) + 1)) 0); [done|].
  cbn [mbind Exec_bind]. rewrite Printf_sp_d. cbn [mbind Exec_bind].
  match goal with
  | |- context [Status_for_each ?c ?a ?r] =>
      destruct (Status_for_each_completes a c Harr r) as (ret' & ->)
  end.
  cbn [mbind Exec_bind]. eauto.
Qed.

(** The dispatcher answers every command on which the handlers stay within
    defined behaviour. *)
Lemma ExecuteCommand_completes (w : World) (cmd : ParsedCommand) (ret : bytes) :
  world_ok w -> ~ handler_undefined cmd ->
  exists w' ret', ExecuteCommand w cmd ret = Done (w', ret').
Proof.
  intros Hok Hnz. unfold ExecuteCommand.
  destruct (lsize cmd =? 0); [eauto|].
  unfold kCommandHandlers. cbn [find commandName chars].
  repeat (case_bool_decide; cbn [minArgs maxArgs callback]);
    try (destruct (negb _) eqn:Har; [eauto|]).
  - unfold CmdPwmOn. rewrite Printf_cstring. cbn [mbind Exec_bind]. eauto.
  - unfold CmdPwmOff. rewrite Printf_cstring. cbn [mbind Exec_bind]. eauto.
  - apply negb_false_iff, andb_true_iff in Har as [Hmin Hmax].
    apply CmdSetFreq_completes; [done | |]; intros Hz; apply Hnz; left;
      (split; [done|]); (split; [lia|]); auto.
  - apply negb_false_iff, andb_true_iff in Har as [Hmin Hmax].
    apply CmdSetDutyCycles_completes. intros Hz. apply Hnz. right.
    split; [done|]. split; [lia | done].
  - by apply CmdStatus_completes.
  - eauto.
Qed.

(** And on the others it does not. *)
Lemma ExecuteCommand_undefined (w : World) (cmd : ParsedCommand) (ret : bytes) :
  handler_undefined cmd -> exists f, ExecuteCommand w cmd ret = Faulted f.
Proof.
  intros [(Hname & Hsz & Harg) | (Hname & Hsz & Harg)]; unfold ExecuteCommand;
    rewrite Hname; unfold kCommandHandlers; cbn [find commandName chars];
    repeat (case_bool_decide; [discriminate|]);
    (case_bool_decide; [|done]); cbn [minArgs maxArgs callback].
  - rewrite Hsz. cbn [Z.eqb Z.sub Z.add Z.opp Z.pos_sub Z.leb Z.geb Z.compare
                      Pos.compare Pos.compare_cont andb negb].
    destruct cmd as [|name [|arg [|? ?]]];
      try (unfold lsize in Hsz; cbn [length] in Hsz; lia).
    change ([name; arg] !!! 1%nat) with arg in Harg.
    destruct Harg as [Harg|Harg].
    + rewrite (CmdSetFreq_zero_value _ _ _ _ Harg). eauto.
    + rewrite (CmdSetFreq_unreadable _ _ _ _ Harg). eauto.
  - destruct (Z.eqb_spec (lsize cmd) 0) as [|_]; [lia|].
    destruct (Z.leb_spec 1 (lsize cmd - 1)); [|lia].
    destruct (Z.geb_spec 312 (lsize cmd - 1)); [|lia].
    cbn [andb negb]. rewrite (CmdSetDutyCycles_unreadable _ _ _ Harg). eauto.
Qed.

(** ** command_handler.cpp: responses of the command loop *)

(** One turn of the loop of [HandlePendingCommands]: the frame returned by
    [GetFrame] is handled and what [HandleFrame] sends is appended to what
    was sent before. *)
Lemma HandlePendingCommands_loop_step {SIZE} (turns : nat) (n : Node SIZE)
    (frame : Frame) (rx : CircularBuffer SIZE) (events : list Event)
    (w : World) (out : list (list Z)) :
  GetFrame (gRxBuffer n) = Some (Some frame, rx, events) ->
  HandleFrame (world n) frame = Done (w, out) ->
  HandlePendingCommands_loop (S turns) n
  = HandlePendingCommands_loop turns (mkNode rx w (sent n ++ out)).
Proof. intros Hg Hh. cbn [HandlePendingCommands_loop]. by rewrite Hg, Hh. Qed.

(** A payload splits into zero tokens exactly when it holds nothing but
    spaces. *)
Lemma Split_from_no_token (s : list Z) :
  forall chunk,
    filter (fun arg => lsize arg > 0) (Split_from s 32 chunk) = []
    <-> chunk = [] /\ Forall (fun c => c = 32) s.
Proof.
  induction s as [|c s IH]; intros chunk; cbn [Split_from].
  - rewrite filter_cons, filter_nil. unfold lsize.
    destruct chunk as [|x chunk]; cbn [length].
    + case_decide; [lia|]. split; [by intros _ | done].
    + case_decide; [|lia]. split; [done | by intros [? _]].
  - destruct (Z.eqb_spec c 32) as [->|Hne].
    + rewrite filter_cons. unfold lsize at 1.
      destruct chunk as [|x chunk]; cbn [length].
      * case_decide; [lia|]. rewrite IH. split.
        -- intros [_ Hs]. split; [done|]. by constructor.
        -- intros [_ Hs]. split; [done|]. by inversion Hs.
      * case_decide; [|lia]. split; [done | by intros [? _]].
    + rewrite IH. split.
      * intros [Hc _]. by destruct chunk.
      * intros [_ Hs]. inversion Hs; subst. done.
Qed.

Lemma ParseCommands_None_iff (payload : list Z) :
  ParseCommands payload = None <-> Forall (fun c => c = 32) payload.
Proof.
  unfold ParseCommands, Split.
  pose proof (Split_from_no_token payload []) as Hs.
  destruct (filter _ (Split_from payload 32 [])) as [|t ts] eqn:Hf.
  - cbn. split; [intros _; by apply Hs | done].
  - unfold lsize. cbn [length].
    destruct (Z.gtb_spec (Z.of_nat (S (length ts))) 0) as [_|]; [|lia].
    split; [done|]. intros Hall.
    assert (Hnil : t :: ts = []) by (by apply Hs). discriminate.
Qed.

(** C2, as stated, fails: a frame addressed to this node whose payload is
    empty (or holds only spaces) splits into zero tokens and gets no
    response at all, neither from the body of the loop nor from the whole
    loop run on a receive buffer that holds the encoded frame; the
    UnknownCommand branch of [ExecuteCommand] for an empty token list is
    never reached. *)
Lemma HandleFrame_zero_tokens_no_response :
  let w := mkWorld gDeviceState_init (mkHardware 42000000 999 0 true None) in
  let frame := mkFrame 7 LOCAL_ID (mkStaticVec []) in
  let spaces := mkFrame 7 LOCAL_ID (mkStaticVec [32; 32]) in
  let rx : CircularBuffer 16 :=
    mkCircularBuffer 0 10 [40; 7; 100; 0; 0; 145; 218; 32; 44; 41; 0; 0; 0; 0; 0; 0] in
  HandleFrame w frame = Done (w, [])
  /\ HandleFrame w spaces = Done (w, [])
  /\ GetFrame rx = Some (Some frame, set_tail rx 10,
                         [IrqDisable; BufLoad 0] ++
                         flat_map (fun i => [BufLoad i; BufLoad i]) (seqZ 1 8) ++
                         [BufLoad 9; BufLoad 9; DecodeCall; TailStore 10; IrqEnable])
  /\ HandlePendingCommands (mkNode rx w [])
     = Some (Done (mkNode (set_tail rx 10) w [])).
Proof. vm_compute. repeat split; reflexivity. Qed.

(** C2, amended.  For a frame that was deserialized successfully (its sender
    is a byte) and a device with a usable period: if the receiver differs
    from the local identity, nothing is sent; if the receiver is the local
    identity and the payload splits into zero tokens, nothing is sent
    either; if it is the local identity and the payload holds at least one
    token, exactly one frame is sent, from the local identity to the sender
    of the request, carrying the first FRAME_DATA_MAX_SIZE bytes of what
    [ExecuteCommand] wrote.  The requests on which a handler leaves defined
    behaviour are left out: [SET_FREQ] with a value reading as zero, and
    [SET_FREQ] or [SET_DUTY_CYCLES] with an argument that is not an unsigned
    32-bit decimal number. *)
Theorem HandleFrame_response_count (w : World) (frame : Frame) :
  0 <= sender frame < 256 -> world_ok w ->
  (receiver frame <> LOCAL_ID -> HandleFrame w frame = Done (w, []))
  /\ (receiver frame = LOCAL_ID ->
      ParseCommands (span (data frame)) = None ->
      HandleFrame w frame = Done (w, []))
  /\ (receiver frame = LOCAL_ID ->
      forall cmd, ParseCommands (span (data frame)) = Some cmd ->
      ~ handler_undefined cmd ->
      exists w' ret wire,
        ExecuteCommand w cmd [] = Done (w', ret)
        /\ HandleFrame w frame = Done (w', [wire])
        /\ forall target,
             deserialize_from target wire
             = Some (DeserializeOk,
                     mkFrame LOCAL_ID (sender frame)
                       (mkStaticVec (take (Z.to_nat FRAME_DATA_MAX_SIZE) ret)))).
Proof.
  intros Hs Hok. unfold HandleFrame. repeat split.
  - intros Hne. destruct (Z.eqb_spec (receiver frame) LOCAL_ID); [done|]. reflexivity.
  - intros -> ->. by rewrite Z.eqb_refl.
  - intros -> cmd -> Hnz. rewrite Z.eqb_refl. cbn [negb].
    destruct (ExecuteCommand_completes w cmd [] Hok Hnz) as (w' & ret & Hex).
    destruct (SendData_sends (sender frame) ret Hs) as (wire & Hsend & Hwire).
    exists w', ret, wire. rewrite Hex. cbn [mbind Exec_bind]. by rewrite Hsend.
Qed.

(** The scenario of the specification: [SET_FREQ 100] from node 7. *)
Lemma HandleFrame_response_count_witness :
  let w := mkWorld gDeviceState_init (mkHardware 42000000 999 0 true None) in
  let frame := mkFrame 7 LOCAL_ID (mkStaticVec (bytes_of_string "SET_FREQ 100")) in
  exists w' ret wire,
    ExecuteCommand w [bytes_of_string "SET_FREQ"; bytes_of_string "100"] [] = Done (w', ret)
    /\ HandleFrame w frame = Done (w', [wire])
    /\ forall target,
         deserialize_from target wire
         = Some (DeserializeOk,
                 mkFrame LOCAL_ID 7 (mkStaticVec (take (Z.to_nat FRAME_DATA_MAX_SIZE) ret))).
Proof.
  intros w frame.
  assert (Hs : 0 <= sender frame < 256) by (cbn; lia).
  assert (Hok : world_ok w) by (split; [vm_compute; congruence | cbn; lia]).
  apply (proj2 (proj2 (HandleFrame_response_count w frame Hs Hok)));
    [reflexivity | reflexivity |].
  intros [(_ & _ & [Hz|Hz]) | (Hn & _)]; vm_compute in *; congruence.
Defined.

(** ** command_handler.cpp: [GetFrame] always returns *)

Section GetFrameTotal.
Context {SIZE : Z}.
Implicit Type rx : CircularBuffer SIZE.

Lemma offset_used rx : cb_wf rx -> (tail rx + used rx) mod SIZE = head rx.
Proof.
  intros (HS & Ht & Hh & _). unfold used.
  rewrite Zplus_mod_idemp_r.
  replace (tail rx + (head rx - tail rx)) with (head rx) by lia.
  apply Z.mod_small. lia.
Qed.

Lemma offset_is_head_iff rx (s : Z) :
  cb_wf rx -> 0 <= s <= used rx ->
  ((tail rx + s) mod SIZE = head rx <-> s = used rx).
Proof.
  intros Hwf Hs. split.
  - intros Heq. destruct (Z.eq_dec s (used rx)) as [|Hne]; [done|].
    by apply (offset_before_head rx s Hwf) in Heq; [|lia].
  - intros ->. by apply offset_used.
Qed.

Lemma tail_offset_0 rx : cb_wf rx -> (tail rx + 0) mod SIZE = tail rx.
Proof. intros (HS & Ht & _). rewrite Z.add_0_r. apply Z.mod_small. lia. Qed.

(** The first loop: it stops after [j] bytes, none of which is BEGIN, either
    on a BEGIN or at the producer cursor, and it reads the buffer [j + 1]
    times on the way. *)
Lemma seek_begin_spec (n : nat) :
  forall (turns : nat) rx,
    cb_wf rx -> used rx = Z.of_nat n -> (n < turns)%nat ->
    exists (j : Z) (events : list Event),
      0 <= j <= used rx
      /\ seek_begin turns rx = Some (set_tail rx ((tail rx + j) mod SIZE), events)
      /\ (forall i, 0 <= i < j -> peek rx i <> BEGIN_FRAME_BYTE)
      /\ (j = used rx \/ peek rx j = BEGIN_FRAME_BYTE)
      /\ no_irq events /\ lsize events = 2 * j + 1.
Proof.
  induction n as [|n IH]; intros turns rx Hwf Hu Ht;
    (destruct turns as [|turns]; [lia|]); cbn [seek_begin].
  - assert (Heq : tail rx = head rx) by (symmetry; apply used_zero_iff; [done | lia]).
    rewrite Heq, Z.eqb_refl, andb_false_r. rewrite <- Heq.
    exists 0, [BufLoad (tail rx)].
    rewrite tail_offset_0, set_tail_id by done.
    split; [lia|]. split; [done|]. split; [intros; lia|]. split; [left; lia|].
    split; [by repeat constructor | reflexivity].
  - destruct (Z.eqb_spec (at_ (buf rx) (tail rx)) BEGIN_FRAME_BYTE) as [Hb|Hnb].
    + cbn [negb andb]. exists 0, [BufLoad (tail rx)].
      rewrite tail_offset_0, set_tail_id by done.
      split; [lia|]. split; [done|]. split; [intros; lia|].
      split; [right; unfold peek; by rewrite tail_offset_0|].
      split; [by repeat constructor | reflexivity].
    + assert (Hne : tail rx <> head rx).
      { intros Heq. symmetry in Heq. apply used_zero_iff in Heq; [lia | done]. }
      apply Z.eqb_neq in Hne. rewrite Hne. cbn [negb andb].
      unfold getCapacity.
      set (rx1 := set_tail rx ((tail rx + 1) mod SIZE)).
      assert (Hu1 : used rx1 = Z.of_nat n)
        by (unfold rx1; rewrite used_set_tail by (done || lia); lia).
      destruct (IH turns rx1) as (j & ev & Hj & Hseek & Hjunk & Hstop & Hirq & Hlen);
        [by apply cb_wf_set_tail | done | lia |].
      rewrite Hseek.
      exists (1 + j), (BufLoad (tail rx) :: TailStore ((tail rx + 1) mod SIZE) :: ev).
      change (tail rx1) with ((tail rx + 1) mod SIZE).
      rewrite Zplus_mod_idemp_l, Z.add_assoc.
      split; [lia|]. split; [done|]. split.
      { intros i Hi. destruct (Z.eq_dec i 0) as [->|Hi0].
        - unfold peek. by rewrite tail_offset_0.
        - specialize (Hjunk (i - 1) ltac:(lia)). unfold rx1 in Hjunk.
          rewrite peek_set_tail in Hjunk.
          by replace (1 + (i - 1)) with i in Hjunk by lia. }
      split.
      { destruct Hstop as [Hstop|Hstop]; [left; lia | right].
        unfold rx1 in Hstop. by rewrite peek_set_tail in Hstop. }
      split; [by repeat constructor|].
      unfold lsize in *. cbn [length]. lia.
Qed.

(** The second loop, started [s] places after the consumer cursor: it stops
    [m - s] places further, on a BEGIN, on an END or at the producer cursor,
    and reads the buffer at least once per place passed. *)
Lemma scan_end_spec (n : nat) :
  forall (turns : nat) rx (s : Z),
    cb_wf rx -> 0 <= s <= used rx -> used rx - s = Z.of_nat n -> (n < turns)%nat ->
    exists (m : Z) (r : Scan) (events : list Event),
      s <= m <= used rx
      /\ scan_end turns rx ((tail rx + s) mod SIZE) = Some (r, events)
      /\ (r = AnotherBegin ((tail rx + m) mod SIZE) /\ m < used rx
          \/ r = ScanDone ((tail rx + m) mod SIZE))
      /\ no_irq events /\ m - s <= lsize events.
Proof.
  induction n as [|n IH]; intros turns rx s Hwf Hs Hu Ht;
    (destruct turns as [|turns]; [lia|]); cbn [scan_end].
  - assert (Hhead : (tail rx + s) mod SIZE = head rx)
      by (apply offset_is_head_iff; [done | lia | lia]).
    rewrite Hhead, Z.eqb_refl. cbn [negb].
    exists s, (ScanDone (head rx)), []. rewrite Hhead.
    split; [lia|]. split; [done|]. split; [by right|].
    split; [by constructor | unfold lsize; cbn; lia].
  - assert (Hne : (tail rx + s) mod SIZE <> head rx)
      by (apply offset_before_head; [done | lia]).
    apply Z.eqb_neq in Hne. rewrite Hne. cbn [negb].
    set (idx := (tail rx + s) mod SIZE).
    destruct (Z.eqb_spec (at_ (buf rx) idx) END_FRAME_BYTE) as [He|Hne'].
    + cbn [negb]. exists s, (ScanDone idx), [BufLoad idx].
      split; [lia|]. split; [done|]. split; [by right|].
      split; [by repeat constructor | unfold lsize; cbn; lia].
    + cbn [negb].
      destruct (Z.eqb_spec (at_ (buf rx) idx) BEGIN_FRAME_BYTE) as [Hb|Hnb].
      * exists s, (AnotherBegin idx), [BufLoad idx; BufLoad idx].
        split; [lia|]. split; [done|]. split; [left; split; [done | lia]|].
        split; [by repeat constructor | unfold lsize; cbn; lia].
      * unfold getCapacity, idx. rewrite Zplus_mod_idemp_l.
        replace (tail rx + s + 1) with (tail rx + (s + 1)) by lia.
        destruct (IH turns rx (s + 1)) as (m & r & ev & Hm & Hscan & Hr & Hirq & Hlen);
          [done | lia | lia | lia |].
        rewrite Hscan.
        exists m, r, (BufLoad ((tail rx + s) mod SIZE)
                      :: BufLoad ((tail rx + s) mod SIZE) :: ev).
        split; [lia|]. split; [done|]. split; [done|].
        split; [by repeat constructor|].
        unfold lsize in *. cbn [length]. lia.
Qed.
End GetFrameTotal.

(** The loop of the ring decoder ends before its turns run out: every turn
    that goes round puts one more byte into [decoded]. *)
Lemma deserialize_ring_loop_total {DSIZE} (turns : nat) :
  forall (buf : list Z) (head cap idx b : Z) (decoded : StaticVec Z DSIZE),
    (Z.to_nat (DSIZE - size decoded) < turns)%nat ->
    is_Some (deserialize_ring_loop turns buf head cap idx b decoded).
Proof.
  induction turns as [|turns IH]; intros buf head cap idx b decoded Ht; [lia|].
  cbn [deserialize_ring_loop].
  destruct (idx =? head); [done|].
  destruct (at_ buf idx =? END_FRAME_BYTE); [done|].
  destruct (decode_byte _ b) as [[err b'] read].
  destruct (negb (is_DeserializeOk err)); [done|].
  destruct (Z.ltb_spec (size decoded) DSIZE) as [Hlt|Hge].
  - rewrite push_back_room by done. cbn [has_value].
    apply IH. rewrite size_mk. unfold lsize, size in *.
    rewrite length_app. cbn [length]. lia.
  - by rewrite push_back_full.
Qed.

Lemma deserialize_from_ring_total {SIZE} (this : Frame) (cb : CircularBuffer SIZE) :
  is_Some (deserialize_from_ring this cb).
Proof.
  unfold deserialize_from_ring.
  destruct (negb _); [done|]. destruct (_ <? _); [done|].
  match goal with |- context [deserialize_ring_loop ?t ?b ?h ?c ?i ?x ?d] =>
    destruct (deserialize_ring_loop_total t b h c i x d) as [r Hr]
  end.
  { change (size sv_new) with 0. unfold FRAME_MAX_SIZE. lia. }
  rewrite Hr. destruct r as [err|idx decoded]; [done|].
  destruct (at_ (buf cb) idx =? END_FRAME_BYTE); by eexists.
Qed.

(** ** command_handler.cpp: the critical section of [GetFrame] *)

Lemma steps_of_critical_section (mid : list Event) :
  no_irq mid ->
  masked_steps false (IrqDisable :: mid ++ [IrqEnable]) = lsize mid
  /\ unmasked_steps false (IrqDisable :: mid ++ [IrqEnable]) = 0.
Proof.
  intros Hmid. cbn [masked_steps unmasked_steps].
  induction Hmid as [|e mid He Hmid IH]; [done|].
  unfold lsize in *. cbn [app length].
  destruct e; try discriminate; cbn [masked_steps unmasked_steps]; lia.
Qed.

Lemma no_irq_app (a b : list Event) : no_irq a -> no_irq b -> no_irq (a ++ b).
Proof. unfold no_irq. intros. by apply Forall_app. Qed.

Lemma lsize_app {A} (a b : list A) : lsize (a ++ b) = lsize a + lsize b.
Proof. unfold lsize. rewrite length_app. lia. Qed.

(** On a buffer that holds no BEGIN byte, [GetFrame] walks over every byte
    held, all inside its critical section. *)
Lemma GetFrame_noise {SIZE} (rx : CircularBuffer SIZE) :
  cb_wf rx ->
  (forall i, 0 <= i < used rx -> peek rx i <> BEGIN_FRAME_BYTE) ->
  exists mid,
    GetFrame rx = Some (None, set_tail rx (head rx), IrqDisable :: mid ++ [IrqEnable])
    /\ no_irq mid /\ lsize mid = 2 * used rx + 1.
Proof.
  intros Hwf Hnoise. pose proof (used_below_capacity rx Hwf) as Hu.
  unfold GetFrame, getCapacity.
  destruct (seek_begin_spec (Z.to_nat (used rx)) (S (Z.to_nat SIZE)) rx)
    as (j & ev1 & Hj & Hseek & _ & Hstop & Hirq & Hlen); [done | lia | lia |].
  assert (Hju : j = used rx).
  { destruct Hstop as [|Hb]; [done|].
    destruct (Z.eq_dec j (used rx)); [done|]. by apply Hnoise in Hb; [|lia]. }
  subst j. rewrite offset_used in Hseek by done. rewrite Hseek.
  cbn [set_tail tail head]. rewrite Z.eqb_refl. eauto.
Qed.

(** C8, amended.  [GetFrame] masks the interrupt on entry and unmasks it
    only just before it returns: for every receive buffer the call returns,
    and everything it does (every read of the buffer during the two scans,
    the call of the decoder, every store to the consumer cursor) lies inside
    this single critical section; no step is taken with interrupts enabled.
    The critical section takes at least one step per byte consumed, so its
    length grows with the number of bytes the buffer holds. *)
Theorem GetFrame_one_critical_section (SIZE : Z) (rx : CircularBuffer SIZE) :
  cb_wf rx ->
  exists (result : option Frame) (rx' : CircularBuffer SIZE) (mid : list Event),
    GetFrame rx = Some (result, rx', IrqDisable :: mid ++ [IrqEnable])
    /\ no_irq mid
    /\ unmasked_steps false (IrqDisable :: mid ++ [IrqEnable]) = 0
    /\ masked_steps false (IrqDisable :: mid ++ [IrqEnable]) = lsize mid
    /\ used rx - used rx' <= lsize mid.
Proof.
  intros Hwf. pose proof (used_below_capacity rx Hwf) as Hu.
  assert (Hshape : forall (result : option Frame) (rx' : CircularBuffer SIZE) mid,
             no_irq mid -> used rx - used rx' <= lsize mid ->
             exists (result0 : option Frame) (rx0 : CircularBuffer SIZE) (mid0 : list Event),
               Some (result, rx', IrqDisable :: mid ++ [IrqEnable])
               = Some (result0, rx0, IrqDisable :: mid0 ++ [IrqEnable])
               /\ no_irq mid0
               /\ unmasked_steps false (IrqDisable :: mid0 ++ [IrqEnable]) = 0
               /\ masked_steps false (IrqDisable :: mid0 ++ [IrqEnable]) = lsize mid0
               /\ used rx - used rx0 <= lsize mid0).
  { intros result rx' mid Hirq Hlen. exists result, rx', mid.
    destruct (steps_of_critical_section mid Hirq) as [Hm Hun]. done. }
  unfold GetFrame, getCapacity.
  destruct (seek_begin_spec (Z.to_nat (used rx)) (S (Z.to_nat SIZE)) rx)
    as (j & ev1 & Hj & Hseek & _ & _ & Hirq1 & Hlen1); [done | lia | lia |].
  rewrite Hseek.
  set (rx1 := set_tail rx ((tail rx + j) mod SIZE)).
  assert (Hwf1 : cb_wf rx1) by (by apply cb_wf_set_tail).
  assert (Hu1 : used rx1 = used rx - j) by (by apply used_set_tail).
  destruct (Z.eqb_spec (tail rx1) (head rx1)) as [Heq|Hne].
  { apply Hshape; [done | lia]. }
  assert (Hpos : 1 <= used rx1).
  { pose proof (used_below_capacity rx1 Hwf1).
    destruct (Z.eq_dec (used rx1) 0) as [H0|]; [|lia].
    apply used_zero_iff in H0; [congruence | done]. }
  destruct (scan_end_spec (Z.to_nat (used rx1 - 1)) (S (Z.to_nat SIZE)) rx1 1)
    as (m & r & ev2 & Hm & Hscan & Hr & Hirq2 & Hlen2); [done | lia | lia | lia |].
  rewrite Hscan.
  destruct Hr as [[-> Hlt] | ->].
  - (* another BEGIN before any END *)
    replace (ev1 ++ ev2 ++ [TailStore ((tail rx1 + m) mod SIZE); IrqEnable])
      with ((ev1 ++ ev2 ++ [TailStore ((tail rx1 + m) mod SIZE)]) ++ [IrqEnable])
      by (by rewrite <- !app_assoc).
    apply Hshape.
    + repeat apply no_irq_app; try done. by repeat constructor.
    + rewrite used_set_tail by (done || lia). rewrite !lsize_app.
      change (lsize [TailStore ((tail rx1 + m) mod SIZE)]) with 1. lia.
  - destruct (Z.eqb_spec (head rx1) ((tail rx1 + m) mod SIZE)) as [Hh|Hnh].
    { replace (ev1 ++ ev2 ++ [IrqEnable]) with ((ev1 ++ ev2) ++ [IrqEnable])
        by (by rewrite <- !app_assoc).
      apply Hshape; [by apply no_irq_app|]. rewrite lsize_app. lia. }
    destruct (negb (at_ (buf rx1) ((tail rx1 + m) mod SIZE) =? END_FRAME_BYTE)).
    { replace (ev1 ++ ev2 ++ [BufLoad ((tail rx1 + m) mod SIZE); IrqEnable])
        with ((ev1 ++ ev2 ++ [BufLoad ((tail rx1 + m) mod SIZE)]) ++ [IrqEnable])
        by (by rewrite <- !app_assoc).
      apply Hshape.
      - repeat apply no_irq_app; try done. by repeat constructor.
      - rewrite !lsize_app. unfold lsize at 3. cbn [length]. lia. }
    assert (Hm1 : m < used rx1).
    { destruct (Z.eq_dec m (used rx1)) as [->|]; [|lia].
      rewrite offset_used in Hnh by done. done. }
    destruct (deserialize_from_ring_total (mkFrame 0 0 sv_new) rx1) as [[err frame] Hdec].
    rewrite Hdec. rewrite Zplus_mod_idemp_l.
    set (t := (tail rx1 + m + 1) mod SIZE).
    replace (ev1 ++ ev2 ++ [BufLoad ((tail rx1 + m) mod SIZE); DecodeCall;
                            TailStore t; IrqEnable])
      with ((ev1 ++ ev2 ++ [BufLoad ((tail rx1 + m) mod SIZE); DecodeCall;
                            TailStore t]) ++ [IrqEnable])
      by (by rewrite <- !app_assoc).
    assert (Hirq3 : no_irq (ev1 ++ ev2 ++ [BufLoad ((tail rx1 + m) mod SIZE);
                                            DecodeCall; TailStore t])).
    { repeat apply no_irq_app; try done. by repeat constructor. }
    assert (Hused : used (set_tail rx1 t) = used rx1 - (m + 1)).
    { unfold t. replace (tail rx1 + m + 1) with (tail rx1 + (m + 1)) by lia.
      apply used_set_tail; [done | lia]. }
    destruct (is_DeserializeOk err); apply Hshape; try done;
      rewrite Hused, !lsize_app; unfold lsize at 3; cbn [length]; lia.
Qed.

(** A receive buffer of sixteen places: two bytes of noise, then the encoded
    empty frame from node 7 to node 100. *)
Lemma GetFrame_one_critical_section_witness :
  let rx : CircularBuffer 16 :=
    mkCircularBuffer 0 12 [0; 0; 40; 7; 100; 0; 0; 145; 218; 32; 44; 41; 0; 0; 0; 0] in
  exists (result : option Frame) (rx' : CircularBuffer 16) (mid : list Event),
    GetFrame rx = Some (result, rx', IrqDisable :: mid ++ [IrqEnable])
    /\ no_irq mid
    /\ unmasked_steps false (IrqDisable :: mid ++ [IrqEnable]) = 0
    /\ masked_steps false (IrqDisable :: mid ++ [IrqEnable]) = lsize mid
    /\ used rx - used rx' <= lsize mid.
Proof.
  intros rx. apply (GetFrame_one_critical_section 16 rx).
  unfold cb_wf. vm_compute. intuition congruence.
Defined.

Lemma noise_wf (n : Z) : 0 <= n -> cb_wf (noise n) /\ used (noise n) = n.
Proof.
  intros Hn. unfold cb_wf, used, noise, lsize. cbn [tail head buf].
  rewrite length_replicate, Z.sub_0_r, Z.mod_small by lia. lia.
Qed.

Lemma noise_peek (n i : Z) : 0 <= n -> peek (noise n) i <> BEGIN_FRAME_BYTE.
Proof.
  intros Hn. unfold peek, noise, at_. cbn [tail head buf].
  pose proof (Z.mod_pos_bound (0 + i) (n + 1) ltac:(lia)).
  rewrite lookup_total_replicate_2 by lia. done.
Qed.

(** C8, as stated, fails.  On a buffer holding a complete frame after two
    bytes of noise, all 25 steps of the call (the reads of both scans, the
    call of the decoder, the cursor stores) are taken with the interrupt
    masked, and none with it enabled: the mask covers the whole
    scan-and-decode.  And no bound on the length of the critical section
    holds for all occupancies: on a buffer holding [n] bytes of noise the
    critical section takes [2 n + 1] steps. *)
Lemma GetFrame_critical_section_grows :
  (let rx : CircularBuffer 16 :=
     mkCircularBuffer 0 12 [0; 0; 40; 7; 100; 0; 0; 145; 218; 32; 44; 41; 0; 0; 0; 0] in
   exists events,
     GetFrame rx = Some (Some (mkFrame 7 100 (mkStaticVec [])), set_tail rx 12, events)
     /\ In DecodeCall events
     /\ masked_steps false events = 25 /\ unmasked_steps false events = 0)
  /\ ~ (exists bound : Z,
          forall (n : Z) result rx' events,
            0 <= n ->
            GetFrame (noise n) = Some (result, rx', events) ->
            masked_steps false events <= bound).
Proof.
  split.
  - eexists. split; [vm_compute; reflexivity|].
    split; [cbn [In]; repeat (first [left; reflexivity | right])|].
    split; vm_compute; reflexivity.
  - intros [bound Hbound].
    set (n := Z.max 0 bound).
    destruct (noise_wf n ltac:(lia)) as [Hwf Hused].
    destruct (GetFrame_noise (noise n) Hwf) as (mid & Hget & Hirq & Hlen).
    { intros i _. apply noise_peek. lia. }
    specialize (Hbound n _ _ _ ltac:(lia) Hget).
    destruct (steps_of_critical_section mid Hirq) as [Hm _].
    rewrite Hm, Hlen, Hused in Hbound. lia.
Qed.

(** ** Sample runs *)

(** The check value of CRC-32/MPEG-2. *)
Example crc32_calculate_check :
  crc32_calculate (bytes_of_string "123456789") = 0x0376E6E7.
Proof. vm_compute. reflexivity. Qed.

Example ExecuteCommand_set_freq_100 :
  let w := mkWorld gDeviceState_init (mkHardware 42000000 999 0 true None) in
  ExecuteCommand w [bytes_of_string "SET_FREQ"; bytes_of_string "100"] []
  = Done (mkWorld gDeviceState_init (mkHardware 42000000 839999 0 true None),
          bytes_of_string "FREQ_CHANGED 100").
Proof. vm_compute. reflexivity. Qed.

Example ExecuteCommand_status :
  let w := mkWorld gDeviceState_init (mkHardware 42000000 999 0 true None) in
  ExecuteCommand w [bytes_of_string "STATUS"] []
  = Done (w, bytes_of_string "STATUS_RESP 0 84000 0").
Proof. vm_compute. reflexivity. Qed.

Example ExecuteCommand_set_duty_cycles :
  let w := mkWorld gDeviceState_init (mkHardware 42000000 999 0 true None) in
  ExecuteCommand w
    [bytes_of_string "SET_DUTY_CYCLES"; bytes_of_string "50"; bytes_of_string "100"] []
  = Done (mkWorld (mkDeviceState [500; 1000] [50; 100] false) (htim2 w),
          bytes_of_string "DUTY_CYCLES_CHANGED 50 100").
Proof. vm_compute. reflexivity. Qed.

(** Arity and lookup errors are written by [WRITE_EC], which copies the
    characters of the [std::string_view]. *)
Example ExecuteCommand_arity :
  let w := mkWorld gDeviceState_init (mkHardware 42000000 999 0 true None) in
  ExecuteCommand w [bytes_of_string "SET_FREQ"] []
  = Done (w, bytes_of_string "INVALID_ARGUMENT")
  /\ ExecuteCommand w [bytes_of_string "FOO"] []
     = Done (w, bytes_of_string "UNKNOWN_COMMAND").
Proof. vm_compute. split; reflexivity. Qed.

(** * Further properties of the code *)

(** ** static_vec.h: last in, first out *)

(** X1.  A value pushed onto a vector that is not full is accepted, and
    [pop_back] right after gives it back and leaves the vector as it was
    before the push. *)
Theorem push_back_then_pop_back (T : Type) (SIZE : Z) (v : StaticVec T SIZE) (x : T) :
  size v < SIZE ->
  snd (push_back v x) = None
  /\ pop_back (fst (push_back v x)) = (v, Some x).
Proof.
  intros Hroom. rewrite push_back_room by done. cbn [fst snd]. split; [done|].
  unfold pop_back. rewrite size_mk. unfold lsize. rewrite length_app. cbn [length].
  destruct (Z.ltb_spec 0 (Z.of_nat (length (items v) + 1))) as [_|]; [|lia].
  cbn [items]. rewrite removelast_last.
  replace (Z.to_nat (Z.of_nat (length (items v) + 1) - 1)) with (length (items v)) by lia.
  rewrite list_lookup_middle by done. by destruct v.
Qed.

Lemma push_back_then_pop_back_witness :
  snd (push_back (mkStaticVec [1; 2] : StaticVec Z 3) 7) = None
  /\ pop_back (fst (push_back (mkStaticVec [1; 2] : StaticVec Z 3) 7))
     = (mkStaticVec [1; 2], Some 7).
Proof.
  apply (push_back_then_pop_back Z 3 (mkStaticVec [1; 2]) 7). vm_compute. reflexivity.
Defined.

(** Every write into a vector truncates at its capacity. *)
Lemma push_back__take {T SIZE} (v : StaticVec T SIZE) (x : T) :
  size v <= SIZE ->
  items (push_back_ v x) = take (Z.to_nat SIZE) (items v ++ [x]).
Proof.
  intros Hv. unfold push_back_, push_back, size in *.
  destruct (Z.ltb_spec (Z.of_nat (length (items v))) SIZE) as [Hlt|Hge]; cbn [fst items].
  - rewrite take_ge; [done|]. rewrite length_app. cbn [length]. lia.
  - rewrite take_app_le by lia. rewrite take_ge; [done | lia].
Qed.

Lemma push_back__size_le {T SIZE} (v : StaticVec T SIZE) (x : T) :
  size v <= SIZE -> size (push_back_ v x) <= SIZE.
Proof.
  intros Hv. unfold push_back_, push_back.
  destruct (Z.ltb_spec (size v) SIZE); cbn [fst]; [|done].
  unfold size in *. cbn [items]. rewrite length_app. cbn [length]. lia.
Qed.

(** ** bytes.h: the two conversions are inverse to each other *)

Lemma to_le_from_le (arr : list Z) :
  Forall is_byte arr -> to_le_bytes (length arr) (from_le_bytes arr) = arr.
Proof.
  induction 1 as [|b arr Hb _ IH]; [done|].
  cbn [length to_le_bytes from_le_bytes]. unfold is_byte in Hb.
  assert (Hm : (b + 256 * from_le_bytes arr) mod 256 = b)
    by (Z.div_mod_to_equations; lia).
  assert (Hd : (b + 256 * from_le_bytes arr) / 256 = from_le_bytes arr)
    by (Z.div_mod_to_equations; lia).
  rewrite Hm, Hd.
  by rewrite IH.
Qed.

Lemma to_be_from_be (arr : list Z) :
  Forall is_byte arr -> to_be_bytes (length arr) (from_be_bytes arr) = arr.
Proof.
  intros H. unfold to_be_bytes, from_be_bytes.
  rewrite <- (length_reverse arr), to_le_from_le by (by apply Forall_reverse).
  apply reverse_involutive.
Qed.

Lemma to_le_bytes_is_byte (w : nat) (n : Z) : Forall is_byte (to_le_bytes w n).
Proof.
  revert n. induction w as [|w IH]; intros n; cbn [to_le_bytes]; constructor; [|done].
  unfold is_byte. apply Z.mod_pos_bound. lia.
Qed.

Lemma to_be_bytes_is_byte (w : nat) (n : Z) : Forall is_byte (to_be_bytes w n).
Proof. unfold to_be_bytes. apply Forall_reverse, to_le_bytes_is_byte. Qed.

(** X2.  Big-endian conversion round trips in both directions: the bytes of
    a number give the number back, reduced to the width of the type; and the
    number read from [w] bytes converts back to the same bytes.  The bytes
    produced are bytes, and big-endian is the reverse of little-endian. *)
Theorem be_bytes_roundtrip (arr : list Z) (w : nat) (n : Z) :
  Forall is_byte arr ->
  to_be_bytes (length arr) (from_be_bytes arr) = arr
  /\ from_be_bytes (to_be_bytes w n) = n mod 256 ^ Z.of_nat w
  /\ Forall is_byte (to_be_bytes w n)
  /\ length (to_be_bytes w n) = w
  /\ to_be_bytes w n = reverse (to_le_bytes w n).
Proof.
  intros H. split; [by apply to_be_from_be|].
  split; [unfold from_be_bytes, to_be_bytes; by rewrite reverse_involutive, from_le_to_le|].
  split; [apply to_be_bytes_is_byte|].
  split; [apply to_be_bytes_length | reflexivity].
Qed.

Lemma be_bytes_roundtrip_witness :
  to_be_bytes (length [4; 244]) (from_be_bytes [4; 244]) = [4; 244]
  /\ from_be_bytes (to_be_bytes 2 66804) = 66804 mod 256 ^ Z.of_nat 2
  /\ Forall is_byte (to_be_bytes 2 66804)
  /\ length (to_be_bytes 2 66804) = 2%nat
  /\ to_be_bytes 2 66804 = reverse (to_le_bytes 2 66804).
Proof.
  apply (be_bytes_roundtrip [4; 244] 2 66804).
  repeat constructor; unfold is_byte; lia.
Defined.

(** ** frame.cpp: what encoding writes *)

Lemma take_take_app {A} (n : nat) (l m : list A) :
  take n (take n l ++ m) = take n (l ++ m).
Proof.
  destruct (decide (n <= length l)%nat) as [Hle|Hgt].
  - rewrite !take_app_le by (rewrite ?length_take; lia). by rewrite take_take, Nat.min_id.
  - by rewrite (take_ge l) by lia.
Qed.

Lemma size_take_le {SIZE} (l : list Z) :
  0 <= SIZE -> size (mkStaticVec (take (Z.to_nat SIZE) l) : StaticVec Z SIZE) <= SIZE.
Proof. intros H. unfold size. cbn [items]. rewrite length_take. lia. Qed.

Section EncodeTruncates.
Context {SIZE : Z}.
Implicit Type out : StaticVec Z SIZE.

Lemma encode_byte_take (b : Z) out :
  size out <= SIZE ->
  items (encode_byte b out) = take (Z.to_nat SIZE) (items out ++ escape b)
  /\ size (encode_byte b out) <= SIZE.
Proof.
  intros Hout.
  assert (H2 : forall x y : Z,
             items (push_back_ (push_back_ out x) y)
             = take (Z.to_nat SIZE) (items out ++ [x; y])
             /\ size (push_back_ (push_back_ out x) y) <= SIZE).
  { intros x y. split; [|by apply push_back__size_le, push_back__size_le].
    rewrite push_back__take by (by apply push_back__size_le).
    rewrite push_back__take by done.
    by rewrite take_take_app, <- app_assoc. }
  unfold encode_byte, escape. cbn [find ESCAPE_TABLE fst snd].
  destruct (b =? ESCAPE_BYTE); [apply H2|].
  destruct (b =? BEGIN_FRAME_BYTE); [apply H2|].
  destruct (b =? END_FRAME_BYTE); [apply H2|].
  split; [by apply push_back__take | by apply push_back__size_le].
Qed.

(** Encoding into a vector writes the escaped image of the bytes, cut
    where the vector is full. *)
Lemma encode_bytes_take (l : list Z) :
  forall out,
    size out <= SIZE ->
    items (encode_bytes l out) = take (Z.to_nat SIZE) (items out ++ escapes l)
    /\ size (encode_bytes l out) <= SIZE.
Proof.
  unfold encode_bytes.
  induction l as [|b l IH]; intros out Hout; cbn [fold_left].
  - change (escapes []) with (@nil Z). rewrite app_nil_r.
    split; [|done]. rewrite take_ge; [done | unfold size in Hout; lia].
  - destruct (encode_byte_take b out Hout) as [Hi Hs].
    destruct (IH _ Hs) as [Hi' Hs']. split; [|done].
    rewrite Hi', Hi, take_take_app.
    change (escapes (b :: l)) with (escape b ++ escapes l).
    by rewrite <- app_assoc.
Qed.
End EncodeTruncates.

Lemma wire_of_length (f : Frame) :
  size (data f) + 10 <= lsize (wire_of f) <= 2 * (size (data f) + 8) + 2.
Proof.
  pose proof (escapes_length (frame_body f)) as He.
  rewrite frame_body_length in He.
  unfold wire_of, lsize in *. cbn [length]. rewrite length_app. cbn [length]. lia.
Qed.

(** What [serialize_into] leaves in an empty vector, whatever its capacity. *)
Lemma serialize_into_take {SIZE} (f : Frame) :
  0 <= SIZE -> size (data f) <= FRAME_DATA_MAX_SIZE ->
  serialize_into f (sv_new : StaticVec Z SIZE)
  = (if lsize (wire_of f) <=? SIZE then SerializeOk else BufferTooSmall,
     mkStaticVec (take (Z.to_nat SIZE) (wire_of f))).
Proof.
  intros HS Hlen. unfold serialize_into.
  destruct (Z.gtb_spec (size (data f)) FRAME_DATA_MAX_SIZE) as [|_]; [lia|].
  unfold serialize_fields, serialize_field. cbn [is_SerializeOk negb].
  rewrite !encode_bytes_app.
  replace (to_be_bytes 1 (sender f) ++ to_be_bytes 1 (receiver f)
          ++ to_be_bytes 2 (data_len16 f) ++ span (data f)
          ++ to_be_bytes 4 (crc32 f)) with (frame_body f)
    by (unfold frame_body, frame_fields; by rewrite <- !app_assoc).
  set (out1 := push_back_ (sv_new : StaticVec Z SIZE) BEGIN_FRAME_BYTE).
  assert (H0 : size (sv_new : StaticVec Z SIZE) <= SIZE) by (unfold size; cbn; lia).
  assert (H1 : items out1 = take (Z.to_nat SIZE) [BEGIN_FRAME_BYTE])
    by (unfold out1; by rewrite push_back__take).
  assert (Hs1 : size out1 <= SIZE) by (by apply push_back__size_le).
  destruct (encode_bytes_take (frame_body f) out1 Hs1) as [H2 Hs2].
  rewrite H1, take_take_app in H2. cbn [app] in H2.
  set (body := BEGIN_FRAME_BYTE :: escapes (frame_body f)) in *.
  assert (Hw : wire_of f = body ++ [END_FRAME_BYTE]) by reflexivity.
  assert (Hwl : lsize (wire_of f) = lsize body + 1)
    by (rewrite Hw; unfold lsize; rewrite length_app; cbn [length]; lia).
  rewrite Hwl.
  unfold push_back.
  assert (Hsz : size (encode_bytes (frame_body f) out1)
                = Z.min SIZE (lsize body)).
  { unfold size, lsize. rewrite H2, length_take. lia. }
  rewrite Hsz.
  destruct (Z.ltb_spec (Z.min SIZE (lsize body)) SIZE) as [Hlt|Hge];
    destruct (Z.leb_spec (lsize body + 1) SIZE) as [Hfit|Hno]; try lia;
    cbn [has_value]; f_equal.
  - apply StaticVec_eq. cbn [items]. rewrite H2, Hw.
    rewrite !take_ge; [done | | ]; unfold lsize in *; rewrite ?length_app; cbn [length]; lia.
  - apply StaticVec_eq. cbn [items]. rewrite H2, Hw.
    rewrite take_app_le; [done | unfold lsize in *; lia].
Qed.

Lemma escape_plain (b : Z) : Forall plain (escape b).
Proof.
  unfold escape.
  destruct (Z.eqb_spec b ESCAPE_BYTE); [by repeat constructor|].
  destruct (Z.eqb_spec b BEGIN_FRAME_BYTE); [by repeat constructor|].
  destruct (Z.eqb_spec b END_FRAME_BYTE); [by repeat constructor|].
  by repeat constructor.
Qed.

Lemma escapes_plain (l : list Z) : Forall plain (escapes l).
Proof.
  induction l as [|b l IH]; [constructor|].
  change (escapes (b :: l)) with (escape b ++ escapes l).
  apply Forall_app. split; [apply escape_plain | done].
Qed.

(** X3.  Whatever bytes are encoded and whatever the vector holds, what
    [encode_bytes] appends contains neither BEGIN_FRAME_BYTE nor
    END_FRAME_BYTE: the delimiters never occur inside encoded data. *)
Theorem encode_bytes_never_writes_a_delimiter (SIZE : Z) (bytes : list Z)
    (out : StaticVec Z SIZE) :
  size out <= SIZE ->
  exists added,
    items (encode_bytes bytes out) = items out ++ added
    /\ Forall plain added.
Proof.
  intros Hout. destruct (encode_bytes_take bytes out Hout) as [Hi _].
  exists (take (Z.to_nat SIZE - length (items out)) (escapes bytes)).
  split.
  - rewrite Hi, take_app. rewrite take_ge; [done | unfold size in Hout; lia].
  - apply Forall_take, escapes_plain.
Qed.

Lemma encode_bytes_never_writes_a_delimiter_witness :
  exists added,
    items (encode_bytes [40; 65; 41; 27] (mkStaticVec [40] : StaticVec Z 6))
    = items (mkStaticVec [40] : StaticVec Z 6) ++ added
    /\ Forall plain added.
Proof.
  apply (encode_bytes_never_writes_a_delimiter 6 [40; 65; 41; 27] (mkStaticVec [40])).
  vm_compute. congruence.
Defined.

(** X4.  [serialize_into] on an empty vector of any capacity, for a frame
    whose payload is within FRAME_DATA_MAX_SIZE: it answers SerializeOk
    exactly when the whole encoded frame fits, and BufferTooSmall otherwise;
    in both cases the vector holds the encoded frame cut at the capacity.
    So SerializeOk is never answered for a truncated frame, although the
    results of all pushes but the last are ignored. *)
Theorem serialize_into_fits_or_reports (SIZE : Z) (f : Frame) :
  0 <= SIZE -> size (data f) <= FRAME_DATA_MAX_SIZE ->
  (fst (serialize_into f (sv_new : StaticVec Z SIZE)) = SerializeOk
   <-> lsize (wire_of f) <= SIZE)
  /\ (fst (serialize_into f (sv_new : StaticVec Z SIZE)) = BufferTooSmall
      <-> SIZE < lsize (wire_of f))
  /\ span (snd (serialize_into f (sv_new : StaticVec Z SIZE)))
     = take (Z.to_nat SIZE) (wire_of f).
Proof.
  intros HS Hlen. rewrite serialize_into_take by done. cbn [fst snd span items].
  destruct (Z.leb_spec (lsize (wire_of f)) SIZE); repeat split; intros; (lia || congruence).
Qed.

(** The frame (7 -> 100, "ON") needs 12 bytes; the vector has 8. *)
Lemma serialize_into_fits_or_reports_witness :
  let f := mkFrame 7 100 (mkStaticVec [79; 78]) in
  (fst (serialize_into f (sv_new : StaticVec Z 8)) = SerializeOk
   <-> lsize (wire_of f) <= 8)
  /\ (fst (serialize_into f (sv_new : StaticVec Z 8)) = BufferTooSmall
      <-> 8 < lsize (wire_of f))
  /\ span (snd (serialize_into f (sv_new : StaticVec Z 8)))
     = take (Z.to_nat 8) (wire_of f).
Proof.
  intros f. apply (serialize_into_fits_or_reports 8 f); vm_compute; congruence.
Defined.

(** X5.  The vector of 2 * FRAME_MAX_SIZE bytes that [SendData] and the test
    bindings serialize into is large enough for every frame with a payload
    within FRAME_DATA_MAX_SIZE; and a serialized frame is never shorter than
    FRAME_MIN_SIZE, the length below which [deserialize_from] gives up. *)
Theorem serialize_into_size_bounds (f : Frame) :
  size (data f) <= FRAME_DATA_MAX_SIZE ->
  exists out : StaticVec Z (FRAME_MAX_SIZE * 2),
    serialize_into f sv_new = (SerializeOk, out)
    /\ FRAME_MIN_SIZE <= size out <= FRAME_MAX_SIZE * 2
    /\ size (data f) + 10 <= size out <= 2 * (size (data f) + 8) + 2.
Proof.
  intros Hlen. pose proof (size_nonneg (data f)) as Hnn.
  pose proof (wire_of_length f) as Hw.
  assert (Hmax : FRAME_DATA_MAX_SIZE = 1268) by reflexivity.
  rewrite serialize_into_take by (done || (unfold FRAME_MAX_SIZE; lia)).
  destruct (Z.leb_spec (lsize (wire_of f)) (FRAME_MAX_SIZE * 2)) as [_|Hno];
    [|unfold FRAME_MAX_SIZE in Hno; lia].
  eexists. split; [reflexivity|].
  rewrite size_mk. unfold lsize in *. rewrite length_take.
  unfold FRAME_MIN_SIZE, FRAME_MAX_SIZE. lia.
Qed.

Lemma serialize_into_size_bounds_witness :
  let f := mkFrame 7 100 (mkStaticVec [79; 78]) in
  exists out : StaticVec Z (FRAME_MAX_SIZE * 2),
    serialize_into f sv_new = (SerializeOk, out)
    /\ FRAME_MIN_SIZE <= size out <= FRAME_MAX_SIZE * 2
    /\ size (data f) + 10 <= size out <= 2 * (size (data f) + 8) + 2.
Proof.
  intros f. apply (serialize_into_size_bounds f). vm_compute. congruence.
Defined.

(** X6.  A frame that [serialize_into] reports as serialized starts with
    BEGIN_FRAME_BYTE, ends with END_FRAME_BYTE and holds neither of them in
    between, whatever its sender, receiver and payload bytes are. *)
Theorem serialize_into_delimits (SIZE : Z) (f : Frame) (out : StaticVec Z SIZE) :
  0 <= SIZE ->
  serialize_into f sv_new = (SerializeOk, out) ->
  exists mid,
    span out = BEGIN_FRAME_BYTE :: mid ++ [END_FRAME_BYTE]
    /\ Forall plain mid.
Proof.
  intros HS Hser.
  destruct (Z.gtb_spec (size (data f)) FRAME_DATA_MAX_SIZE) as [Hbig|Hlen].
  { unfold serialize_into in Hser.
    destruct (Z.gtb_spec (size (data f)) FRAME_DATA_MAX_SIZE); [discriminate | lia]. }
  rewrite serialize_into_take in Hser by done.
  destruct (Z.leb_spec (lsize (wire_of f)) SIZE) as [Hfit|]; [|discriminate].
  injection Hser as <-. cbn [span items].
  rewrite take_ge by (unfold lsize in Hfit; lia).
  exists (escapes (frame_body f)). split; [reflexivity | apply escapes_plain].
Qed.

Lemma serialize_into_delimits_witness :
  exists mid,
    span (mkStaticVec [40; 7; 100; 0; 2; 27; 66; 27; 67; 63; 129; 79; 19; 41]
          : StaticVec Z 64)
    = BEGIN_FRAME_BYTE :: mid ++ [END_FRAME_BYTE]
    /\ Forall plain mid.
Proof.
  apply (serialize_into_delimits 64 (mkFrame 7 100 (mkStaticVec [40; 41]))).
  - lia.
  - vm_compute. reflexivity.
Defined.

(** ** frame.cpp: what decoding accepts *)

(** A decoded byte stands for exactly the bytes read: they are its escaped
    image. *)
Lemma decode_byte_inv (bytes : list Z) (o b r : Z) :
  decode_byte bytes o = (DeserializeOk, b, r) ->
  take (Z.to_nat r) bytes = escape b /\ 1 <= r <= lsize bytes.
Proof.
  intros H. split; [|by eapply decode_byte_read].
  revert H. unfold decode_byte, escape.
  destruct bytes as [|d0 rest]; [discriminate|].
  destruct (Z.eqb_spec d0 ESCAPE_BYTE) as [->|Hesc].
  - destruct rest as [|d1 rest]; [discriminate|].
    cbn [find ESCAPE_TABLE snd fst].
    destruct (Z.eqb_spec 0x41 d1) as [<-|_]; [by intros [= <- <-]|].
    destruct (Z.eqb_spec 0x42 d1) as [<-|_]; [by intros [= <- <-]|].
    destruct (Z.eqb_spec 0x43 d1) as [<-|_]; [by intros [= <- <-]|].
    discriminate.
  - destruct (Z.eqb_spec d0 BEGIN_FRAME_BYTE) as [|Hb]; [discriminate|].
    destruct (Z.eqb_spec d0 END_FRAME_BYTE) as [|He]; [discriminate|].
    cbn [orb]. intros [= <- <-].
    destruct (Z.eqb_spec d0 ESCAPE_BYTE); [done|].
    destruct (Z.eqb_spec d0 BEGIN_FRAME_BYTE); [done|].
    destruct (Z.eqb_spec d0 END_FRAME_BYTE); [done|].
    reflexivity.
Qed.

(** What a successful run of the decoding loop leaves in the vector: the
    bytes whose escaped image is the input, cut where the vector is full. *)
Lemma decode_bytes_loop_inv {SIZE} (turns : nat) :
  forall (bytes : list Z) (dec : Z) (out out' : StaticVec Z SIZE),
    decode_bytes_loop turns bytes dec out = Some (DeserializeOk, out') ->
    size out <= SIZE ->
    exists l, escapes l = bytes
              /\ items out' = take (Z.to_nat SIZE) (items out ++ l).
Proof.
  induction turns as [|turns IH]; intros bytes dec out out' H Hout; [discriminate|].
  cbn [decode_bytes_loop] in H.
  destruct (Z.eqb_spec (lsize bytes) 0) as [H0|Hne].
  - injection H as <-. exists []. split.
    + destruct bytes; [done | unfold lsize in H0; cbn in H0; lia].
    + rewrite app_nil_r, take_ge; [done | unfold size in Hout; lia].
  - destruct (decode_byte bytes dec) as [[err b] r] eqn:Hd.
    destruct err; cbn [is_DeserializeOk negb] in H; try (injection H as [= ]; discriminate);
      try discriminate.
    destruct (decode_byte_inv _ _ _ _ Hd) as [Htake Hr].
    apply IH in H; [|by apply push_back__size_le].
    destruct H as (l & Hl & Hi). exists (b :: l). split.
    + change (escapes (b :: l)) with (escape b ++ escapes l).
      by rewrite Hl, <- Htake, take_drop.
    + rewrite Hi, push_back__take by done.
      by rewrite take_take_app, <- app_assoc.
Qed.

Lemma escapes_is_byte (l : list Z) : Forall is_byte (escapes l) -> Forall is_byte l.
Proof.
  induction l as [|b l IH]; [constructor|].
  change (escapes (b :: l)) with (escape b ++ escapes l).
  intros [Hb Hl]%Forall_app. constructor; [|by apply IH].
  revert Hb. unfold escape.
  destruct (Z.eqb_spec b ESCAPE_BYTE) as [->|]; [intros; by vm_compute|].
  destruct (Z.eqb_spec b BEGIN_FRAME_BYTE) as [->|]; [intros; by vm_compute|].
  destruct (Z.eqb_spec b END_FRAME_BYTE) as [->|]; [intros; by vm_compute|].
  intros Hb. by inversion Hb.
Qed.

(** X7.  Decoding is the inverse of encoding in the other direction too,
    as long as nothing is cut: when the output vector has at least as many
    places as the input has bytes and [decode_bytes] accepts the input,
    encoding what it decoded, into an empty vector of the same capacity,
    gives that very input back. *)
Theorem decode_bytes_then_encode_bytes (SIZE : Z) (bytes : list Z) (out : StaticVec Z SIZE) :
  lsize bytes <= SIZE ->
  decode_bytes bytes (sv_new : StaticVec Z SIZE) = Some (DeserializeOk, out) ->
  encode_bytes (span out) (sv_new : StaticVec Z SIZE) = mkStaticVec bytes.
Proof.
  intros Hfit Hdec.
  assert (HS : 0 <= SIZE) by (unfold lsize in Hfit; lia).
  apply decode_bytes_loop_inv in Hdec; [|unfold size; cbn; lia].
  destruct Hdec as (l & Hl & Hi). cbn [sv_new items app] in Hi.
  pose proof (escapes_length l) as Hel. rewrite Hl in Hel.
  rewrite take_ge in Hi by (unfold lsize in *; lia).
  apply StaticVec_eq. unfold span. rewrite Hi.
  rewrite encode_bytes_items; [by rewrite Hl|].
  rewrite Hl. unfold size. cbn. lia.
Qed.

Lemma decode_bytes_then_encode_bytes_witness :
  encode_bytes (span (mkStaticVec [40; 65; 27; 41] : StaticVec Z 8))
    (sv_new : StaticVec Z 8)
  = mkStaticVec [27; 66; 65; 27; 65; 27; 67].
Proof.
  apply (decode_bytes_then_encode_bytes 8 [27; 66; 65; 27; 65; 27; 67]).
  - vm_compute. congruence.
  - vm_compute. reflexivity.
Defined.

(** ** frame.cpp: what deserializing accepts *)

Lemma push_slice_clear_fits (t : Frame) (l : list Z) :
  lsize l <= FRAME_DATA_MAX_SIZE ->
  fst (push_slice (clear (data t)) l) = mkStaticVec l.
Proof.
  intros Hl. apply StaticVec_eq. unfold push_slice. cbn [fst items].
  rewrite push_slice_loop_fits; [reflexivity|].
  unfold size. cbn [items clear length]. lia.
Qed.

Lemma to_be_from_be_piece (w : nat) (piece : list Z) :
  length piece = w -> Forall is_byte piece ->
  to_be_bytes w (from_be_bytes piece) = piece.
Proof. intros <- H. by apply to_be_from_be. Qed.

Lemma from_be_bytes_range (arr : list Z) :
  Forall is_byte arr -> 0 <= from_be_bytes arr < 256 ^ lsize arr.
Proof.
  intros H. unfold from_be_bytes, lsize. rewrite <- (length_reverse arr).
  apply Forall_reverse in H. induction H as [|b l Hb _ IH]; [cbn; lia|].
  cbn [from_le_bytes length]. rewrite Nat2Z.inj_succ, Z.pow_succ_r by lia.
  unfold is_byte in Hb. lia.
Qed.

(** The decoded bytes of an accepted frame are its body: the fields read
    convert back to the bytes they were read from. *)
Lemma deserialize_from_decoded_ok_inv {SIZE} (target f : Frame) (decoded : StaticVec Z SIZE) :
  deserialize_from_decoded target decoded = (DeserializeOk, f) ->
  Forall is_byte (items decoded) ->
  items decoded = frame_body f /\ size (data f) <= FRAME_DATA_MAX_SIZE.
Proof.
  intros H Hbytes. revert H.
  unfold deserialize_from_decoded, deserialize, span, size.
  remember (items decoded) as bytes eqn:Hbytes_eq. clear Hbytes_eq.
  cbn [set_sender set_receiver set_data sender receiver data].
  change (0 + Z.of_nat 1) with 1. change (Z.to_nat 0) with 0%nat. rewrite drop_0.
  destruct (Z.gtb_spec 1 (lsize bytes)) as [|H1]; cbn [is_DeserializeOk negb];
    [discriminate|].
  change (1 + Z.of_nat 1) with 2. change (Z.to_nat 1) with 1%nat.
  destruct (Z.gtb_spec 2 (lsize bytes)) as [|H2]; cbn [is_DeserializeOk negb];
    [discriminate|].
  change (2 + Z.of_nat 2) with 4. change (Z.to_nat 2) with 2%nat.
  destruct (Z.gtb_spec 4 (lsize bytes)) as [|H4]; cbn [is_DeserializeOk negb];
    [discriminate|].
  change (Z.to_nat 4) with 4%nat.
  remember (from_be_bytes (take 2 (drop 2 bytes))) as len eqn:Hlen_eq.
  destruct (Z.gtb_spec len FRAME_DATA_MAX_SIZE) as [|Hmax]; [discriminate|].
  destruct (Z.geb_spec (4 + len) (Z.of_nat (length bytes))) as [|Hlt]; [discriminate|].
  destruct (Z.gtb_spec (4 + len + Z.of_nat 4) (lsize bytes)) as [|H8];
    cbn [is_DeserializeOk negb]; [discriminate|].
  destruct (Z.eqb_spec (4 + len + Z.of_nat 4) (Z.of_nat (length bytes))) as [Hend|];
    cbn [negb]; [|discriminate].
  assert (Hlen0 : 0 <= len).
  { subst len. apply from_be_bytes_range. by apply Forall_take, Forall_drop. }
  remember (take (Z.to_nat len) (drop 4 bytes)) as payload eqn:Hpayload.
  assert (Hpl : length payload = Z.to_nat len).
  { subst payload. rewrite length_take, length_drop. unfold lsize in *.
    clear -Hend Hlen0. lia. }
  rewrite push_slice_clear_fits by (unfold lsize; lia).
  match goal with |- context [negb (?a =? ?b)] =>
    destruct (Z.eqb_spec a b) as [Hcrc|]; cbn [negb]; [|discriminate]
  end.
  intros [= <-].
  split; [|unfold size; cbn [data items set_data]; lia].
  unfold frame_body, frame_fields, data_len16, span, size.
  cbn [sender receiver data items set_data set_receiver set_sender].
  rewrite <- Hcrc.
  replace (Z.of_nat (length payload) mod 65536) with len.
  2:{ rewrite Hpl, Z2Nat.id by lia. symmetry. apply Z.mod_small.
      assert (FRAME_DATA_MAX_SIZE = 1268) by reflexivity. lia. }
  rewrite !to_be_from_be_piece;
    try (by repeat (apply Forall_take || apply Forall_drop));
    try (rewrite length_take, ?length_drop; unfold lsize in *; lia).
  assert (Hd1 : drop 1 bytes = take 1 (drop 1 bytes) ++ drop 2 bytes)
    by (by rewrite <- (take_drop 1 (drop 1 bytes)) at 1; rewrite drop_drop).
  assert (Hd2 : drop 2 bytes = take 2 (drop 2 bytes) ++ drop 4 bytes)
    by (by rewrite <- (take_drop 2 (drop 2 bytes)) at 1; rewrite drop_drop).
  assert (Hd4 : drop 4 bytes = payload ++ drop (Z.to_nat (4 + len)) bytes).
  { rewrite <- (take_drop (Z.to_nat len) (drop 4 bytes)) at 1. rewrite drop_drop.
    subst payload. do 2 f_equal. lia. }
  assert (Hd8 : take 4 (drop (Z.to_nat (4 + len)) bytes) = drop (Z.to_nat (4 + len)) bytes).
  { apply take_ge. rewrite length_drop. unfold lsize in *. lia. }
  assert (Hl2 : to_be_bytes 2 len = take 2 (drop 2 bytes)).
  { subst len. apply to_be_from_be_piece; [|by apply Forall_take, Forall_drop].
    rewrite length_take, length_drop. unfold lsize in *. clear -H4. lia. }
  rewrite Hl2, <- !app_assoc, Hd8, <- Hd4, <- Hd2, <- Hd1. by rewrite take_drop.
Qed.

(** A sequence of at least two bytes: its first byte, its interior, its
    last byte. *)
Lemma delimited_shape (l : list Z) :
  2 <= lsize l ->
  l = l !!! 0%nat :: interior l ++ [l !!! Z.to_nat (lsize l - 1)].
Proof.
  unfold interior, lsize. destruct l as [|x rest]; [cbn; lia|].
  destruct rest as [|y r _] using rev_ind; [cbn; lia|]. intros _.
  cbn [length drop]. rewrite drop_0, length_app. cbn [length].
  replace (Z.to_nat (Z.of_nat (S (length r + 1)) - 2)) with (length r) by lia.
  replace (Z.to_nat (Z.of_nat (S (length r + 1)) - 1)) with (S (length r)) by lia.
  rewrite take_app_length.
  change ((x :: r ++ [y]) !!! 0%nat) with x.
  change ((x :: r ++ [y]) !!! S (length r)) with ((r ++ [y]) !!! length r).
  by rewrite (list_lookup_total_middle r [] y (length r) eq_refl).
Qed.

(** An accepted encoded frame is the encoded image of the frame returned. *)
Lemma deserialize_from_ok_inv (target f : Frame) (encoded : list Z) :
  Forall is_byte encoded ->
  deserialize_from target encoded = Some (DeserializeOk, f) ->
  encoded = wire_of f /\ size (data f) <= FRAME_DATA_MAX_SIZE.
Proof.
  intros Hbytes. unfold deserialize_from. fold (interior encoded).
  destruct (Z.ltb_spec (lsize encoded) FRAME_MIN_SIZE) as [|Hlen]; [discriminate|].
  destruct (Z.eqb_spec (encoded !!! 0%nat) BEGIN_FRAME_BYTE) as [Hb|]; [|discriminate].
  destruct (Z.eqb_spec (encoded !!! Z.to_nat (lsize encoded - 1)) END_FRAME_BYTE)
    as [He|]; [|discriminate].
  cbn [negb].
  destruct (decode_bytes (interior encoded) sv_new) as [[err decoded]|] eqn:Hdec;
    [|discriminate].
  destruct err; cbn [is_DeserializeOk negb]; try discriminate.
  intros [= Hok].
  pose proof (delimited_shape encoded ltac:(unfold FRAME_MIN_SIZE in Hlen; lia)) as Hshape.
  rewrite Hb, He in Hshape.
  assert (Hint : Forall is_byte (interior encoded))
    by (unfold interior; by apply Forall_take, Forall_drop).
  apply decode_bytes_loop_inv in Hdec; [|vm_compute; congruence].
  destruct Hdec as (l & Hl & Hi). cbn [sv_new items app] in Hi.
  assert (Hlb : Forall is_byte l) by (apply escapes_is_byte; by rewrite Hl).
  assert (Hdb : Forall is_byte (items decoded)) by (rewrite Hi; by apply Forall_take).
  destruct (deserialize_from_decoded_ok_inv _ _ _ Hok Hdb) as [Hbody Hsz].
  split; [|done].
  assert (Hshort : lsize (items decoded) < FRAME_MAX_SIZE).
  { rewrite Hbody, frame_body_length.
    assert (FRAME_DATA_MAX_SIZE = 1268) by reflexivity. unfold FRAME_MAX_SIZE. lia. }
  assert (Hall : items decoded = l).
  { rewrite Hi. apply take_ge. rewrite Hi in Hshort. unfold lsize in Hshort.
    rewrite length_take in Hshort. lia. }
  unfold wire_of. by rewrite <- Hbody, Hall, Hl.
Qed.

(** X8.  The round trip in the other direction: a byte sequence that
    [deserialize_from] accepts is exactly what [serialize_into] produces for
    the frame it returned, and the payload of that frame is within
    FRAME_DATA_MAX_SIZE.  No two byte sequences are accepted as the same
    frame. *)
Theorem deserialize_then_serialize (SIZE : Z) (target f : Frame) (encoded : list Z) :
  Forall is_byte encoded ->
  lsize encoded <= SIZE ->
  deserialize_from target encoded = Some (DeserializeOk, f) ->
  serialize_into f (sv_new : StaticVec Z SIZE) = (SerializeOk, mkStaticVec encoded)
  /\ size (data f) <= FRAME_DATA_MAX_SIZE.
Proof.
  intros Hbytes Hfit Hok.
  destruct (deserialize_from_ok_inv _ _ _ Hbytes Hok) as [-> Hsz].
  split; [|done].
  rewrite serialize_into_take by (done || (unfold lsize in Hfit; lia)).
  destruct (Z.leb_spec (lsize (wire_of f)) SIZE); [|lia].
  by rewrite take_ge by (unfold lsize in *; lia).
Qed.

(** The encoded frame (7 -> 100, "()"), whose payload is escaped. *)
Lemma deserialize_then_serialize_witness :
  serialize_into (mkFrame 7 100 (mkStaticVec [40; 41])) (sv_new : StaticVec Z 64)
  = (SerializeOk, mkStaticVec [40; 7; 100; 0; 2; 27; 66; 27; 67; 63; 129; 79; 19; 41])
  /\ size (data (mkFrame 7 100 (mkStaticVec [40; 41]))) <= FRAME_DATA_MAX_SIZE.
Proof.
  apply (deserialize_then_serialize 64 (mkFrame 0 0 sv_new)).
  - repeat constructor; unfold is_byte; lia.
  - vm_compute. congruence.
  - vm_compute. reflexivity.
Defined.

(** The errors [deserialize_from_decoded] can answer. *)
Lemma deserialize_from_decoded_errors {SIZE} (target : Frame) (decoded : StaticVec Z SIZE) :
  let err := fst (deserialize_from_decoded target decoded) in
  err = DeserializeOk \/ err = UnexpectedEOF \/ err = DataTooBig
  \/ err = ExpectedEOF \/ err = CRC32MissMatch.
Proof.
  unfold deserialize_from_decoded, deserialize.
  repeat (match goal with
          | |- context [if ?c then _ else _] => destruct c
          end; cbn [is_DeserializeOk negb fst]); auto 6.
Qed.

(** X9.  The four framing errors (a wrong first or last byte, an unknown
    escape sequence, a delimiter inside the frame) are answered before
    anything is stored: the target frame is left exactly as it was. *)
Theorem deserialize_from_framing_error_keeps_target (target f' : Frame)
    (encoded : list Z) (err : DeserializeError) :
  deserialize_from target encoded = Some (err, f') ->
  err = InvalidStartByte \/ err = InvalidEndByte
  \/ err = InvalidEscapeSequence \/ err = InvalidByte ->
  f' = target.
Proof.
  unfold deserialize_from. intros H Herr.
  destruct (_ <? _); [by injection H as _ <-|].
  destruct (negb _); [by injection H as _ <-|].
  destruct (negb _); [by injection H as _ <-|].
  destruct (decode_bytes _ _) as [[e decoded]|]; [|discriminate].
  destruct (negb _); [by injection H as _ <-|].
  pose proof (deserialize_from_decoded_errors target decoded) as Hd.
  injection H as H. rewrite H in Hd. cbn [fst] in Hd.
  destruct Herr as [-> | [-> | [-> | ->]]];
    destruct Hd as [? | [? | [? | [? | ?]]]]; discriminate.
Qed.

(** An escape byte followed by a byte outside the table. *)
Lemma deserialize_from_framing_error_keeps_target_witness :
  mkFrame 1 2 (mkStaticVec [9; 9; 9]) = mkFrame 1 2 (mkStaticVec [9; 9; 9]).
Proof.
  apply (deserialize_from_framing_error_keeps_target
           (mkFrame 1 2 (mkStaticVec [9; 9; 9])) (mkFrame 1 2 (mkStaticVec [9; 9; 9]))
           [40; 7; 100; 0; 2; 27; 68; 80; 204; 145; 105; 41] InvalidEscapeSequence).
  - vm_compute. reflexivity.
  - auto.
Defined.

(** ** frame.cpp: [operator==] *)

(** [operator==] on frames answers true exactly for frames with the
    same sender, the same receiver and the same payload bytes. *)
Lemma Frame_eq_iff (lhs rhs : Frame) :
  Frame_eq lhs rhs = true
  <-> sender lhs = sender rhs /\ receiver lhs = receiver rhs
      /\ span (data lhs) = span (data rhs).
Proof.
  unfold Frame_eq. rewrite !andb_true_iff, !Z.eqb_eq, bool_decide_eq_true.
  split; [tauto|]. intros (Hs & Hr & Hd). rewrite Hd. tauto.
Qed.

(** ** circular_buffer.h: first in, first out *)

Section RingFifo.
Context {SIZE : Z}.
Implicit Type cb : CircularBuffer SIZE.

(** The three wrap-arounds in closed form. *)
Lemma succ_mod (x : Z) :
  0 <= x < SIZE -> (x + 1) mod SIZE = if x + 1 =? SIZE then 0 else x + 1.
Proof.
  intros Hx. destruct (Z.eqb_spec (x + 1) SIZE) as [<-|Hne].
  - apply Z.mod_same. lia.
  - apply Z.mod_small. lia.
Qed.

Lemma used_cases cb :
  cb_wf cb ->
  used cb = if tail cb <=? head cb then head cb - tail cb
            else head cb - tail cb + SIZE.
Proof.
  intros (HS & Ht & Hh & _). unfold used.
  destruct (Z.leb_spec (tail cb) (head cb)).
  - apply Z.mod_small. lia.
  - symmetry. apply (Z.mod_unique _ _ (-1)); lia.
Qed.

Lemma offset_cases cb (i : Z) :
  cb_wf cb -> 0 <= i < SIZE ->
  (tail cb + i) mod SIZE = if tail cb + i <? SIZE then tail cb + i
                           else tail cb + i - SIZE.
Proof.
  intros (HS & Ht & Hh & _) Hi.
  destruct (Z.ltb_spec (tail cb + i) SIZE).
  - apply Z.mod_small. lia.
  - symmetry. apply (Z.mod_unique _ _ 1); lia.
Qed.

(** Full exactly when one place is left. *)
Lemma full_iff cb :
  cb_wf cb -> ((head cb + 1) mod SIZE = tail cb <-> used cb = SIZE - 1).
Proof.
  intros Hwf. rewrite (used_cases cb Hwf).
  destruct Hwf as (HS & Ht & Hh & _). rewrite succ_mod by lia.
  destruct (Z.eqb_spec (head cb + 1) SIZE); destruct (Z.leb_spec (tail cb) (head cb)); lia.
Qed.

Lemma contents_lookup cb (i : nat) :
  Z.of_nat i < used cb -> contents cb !! i = Some (peek cb (Z.of_nat i)).
Proof.
  intros Hi. unfold contents.
  by rewrite list_lookup_fmap, lookup_seqZ_lt by done.
Qed.

(** The contents are determined by their length and the bytes peeked. *)
Lemma contents_ext cb (l : list Z) :
  cb_wf cb -> lsize l = used cb ->
  (forall i : nat, (i < length l)%nat -> l !! i = Some (peek cb (Z.of_nat i))) ->
  contents cb = l.
Proof.
  intros Hwf Hlen Hl. pose proof (contents_length cb Hwf) as Hc.
  apply (list_eq_same_length _ _ (length l)); [done | unfold lsize in *; lia|].
  intros i x y Hi Hx Hy.
  rewrite contents_lookup in Hx by (unfold lsize in *; lia).
  rewrite Hl in Hy by done. congruence.
Qed.

(** Moving the consumer cursor forward drops the oldest bytes. *)
Lemma contents_set_tail cb (j : Z) :
  cb_wf cb -> 0 <= j <= used cb ->
  contents (set_tail cb ((tail cb + j) mod SIZE)) = drop (Z.to_nat j) (contents cb).
Proof.
  intros Hwf Hj. pose proof (contents_length cb Hwf) as Hc.
  apply contents_ext.
  - by apply cb_wf_set_tail.
  - rewrite used_set_tail by done. unfold lsize in *. rewrite length_drop. lia.
  - intros i Hi. rewrite length_drop in Hi.
    rewrite lookup_drop, peek_set_tail, contents_lookup by (unfold lsize in *; lia).
    do 2 f_equal. lia.
Qed.

Lemma at_insert_eq (a : list Z) (i v : Z) :
  0 <= i < lsize a -> at_ (<[Z.to_nat i := v]> a) i = v.
Proof.
  intros Hi. unfold at_. apply list_lookup_total_insert_eq. unfold lsize in Hi. lia.
Qed.

Lemma at_insert_ne (a : list Z) (i j v : Z) :
  0 <= i -> 0 <= j -> i <> j -> at_ (<[Z.to_nat i := v]> a) j = at_ a j.
Proof. intros Hi Hj Hne. unfold at_. apply list_lookup_total_insert_ne. lia. Qed.

(** Storing at the producer cursor and moving it forward appends a byte. *)
Lemma contents_produce cb (v : Z) :
  cb_wf cb -> used cb < SIZE - 1 ->
  let cb' : CircularBuffer SIZE :=
    mkCircularBuffer (tail cb) ((head cb + 1) mod SIZE)
      (<[Z.to_nat (head cb) := v]> (buf cb)) in
  cb_wf cb' /\ used cb' = used cb + 1 /\ contents cb' = contents cb ++ [v].
Proof.
  intros Hwf Hroom cb'.
  pose proof (contents_length cb Hwf) as Hc.
  pose proof (used_cases cb Hwf) as Hu.
  pose proof (used_below_capacity cb Hwf) as Hub.
  assert (Hwf' : cb_wf cb').
  { destruct Hwf as (HS & Ht & Hh & Hb). unfold cb_wf, cb', lsize in *.
    cbn [tail head buf]. rewrite length_insert.
    pose proof (Z.mod_pos_bound (head cb + 1) SIZE HS). lia. }
  assert (Hu' : used cb' = used cb + 1).
  { rewrite (used_cases cb' Hwf'), Hu. unfold cb'. cbn [tail head].
    destruct Hwf as (HS & Ht & Hh & Hb). rewrite succ_mod by lia.
    destruct (Z.eqb_spec (head cb + 1) SIZE); destruct (Z.leb_spec (tail cb) (head cb));
      destruct (Z.leb_spec (tail cb) 0); destruct (Z.leb_spec (tail cb) (head cb + 1)); lia. }
  split; [done|]. split; [done|].
  apply contents_ext; [done | |].
  - rewrite Hu'. unfold lsize in *. rewrite length_app. cbn [length]. lia.
  - intros i Hi. rewrite length_app in Hi. cbn [length] in Hi.
    unfold peek, cb'. cbn [tail buf].
    destruct (decide (i < length (contents cb))%nat) as [Hlt|Hge].
    + rewrite lookup_app_l by done.
      rewrite contents_lookup by (unfold lsize in Hc; lia).
      f_equal. unfold peek. symmetry. apply at_insert_ne.
      * destruct Hwf as (_ & _ & ? & _). lia.
      * apply Z.mod_pos_bound. by destruct Hwf.
      * intros Heq. symmetry in Heq.
        by apply (offset_before_head cb (Z.of_nat i) Hwf) in Heq; [|unfold lsize in Hc; lia].
    + assert (Hi' : Z.of_nat i = used cb) by (unfold lsize in Hc; lia).
      rewrite list_lookup_middle by lia.
      rewrite Hi', offset_used by done. f_equal. symmetry. apply at_insert_eq.
      destruct Hwf as (_ & _ & ? & Hb). lia.
Qed.

(** X10.  [push_head] on a buffer with room puts the byte behind the bytes
    already held; on a full buffer ([SIZE - 1] bytes held) it gives the byte
    back and changes nothing. *)
Theorem push_head_appends cb (v : Z) :
  cb_wf cb ->
  (used cb < SIZE - 1 ->
   snd (push_head cb v) = None
   /\ contents (fst (push_head cb v)) = contents cb ++ [v]
   /\ cb_wf (fst (push_head cb v)))
  /\ (used cb = SIZE - 1 -> push_head cb v = (cb, Some v)).
Proof.
  intros Hwf. pose proof (full_iff cb Hwf) as Hfull. unfold push_head. split.
  - intros Hroom.
    destruct (Z.eqb_spec ((head cb + 1) mod SIZE) (tail cb)) as [Heq|_];
      [apply Hfull in Heq; lia|].
    cbn [negb fst snd].
    destruct (contents_produce cb v Hwf Hroom) as (Hwf' & _ & Hc). done.
  - intros Hu. apply Hfull in Hu. by rewrite Hu, Z.eqb_refl.
Qed.

(** X11.  [pop_tail] gives the oldest byte held and leaves the others, in
    order; on an empty buffer it gives nothing and changes nothing. *)
Theorem pop_tail_takes_oldest cb :
  cb_wf cb ->
  match contents cb with
  | [] => pop_tail cb = (cb, None)
  | oldest :: others =>
      snd (pop_tail cb) = Some oldest
      /\ contents (fst (pop_tail cb)) = others
      /\ cb_wf (fst (pop_tail cb))
  end.
Proof.
  intros Hwf. pose proof (contents_length cb Hwf) as Hc.
  pose proof (used_zero_iff cb Hwf) as Hz. unfold pop_tail.
  destruct (contents cb) as [|oldest others] eqn:Hcont.
  - assert (Heq : head cb = tail cb) by (apply Hz; unfold lsize in Hc; cbn in Hc; lia).
    by rewrite Heq, Z.eqb_refl.
  - assert (Hne : tail cb <> head cb).
    { intros Heq. symmetry in Heq. apply Hz in Heq. unfold lsize in Hc. cbn in Hc. lia. }
    apply Z.eqb_neq in Hne. rewrite Hne. cbn [negb fst snd].
    assert (Hpos : 0 < used cb) by (unfold lsize in Hc; cbn in Hc; lia).
    pose proof (contents_lookup cb 0 Hpos) as H0. rewrite Hcont in H0.
    injection H0 as H0. unfold peek in H0. rewrite tail_offset_0 in H0 by done.
    split; [by rewrite H0|].
    change (mkCircularBuffer ((tail cb + 1) mod SIZE) (head cb) (buf cb))
      with (set_tail cb ((tail cb + 1) mod SIZE)).
    split; [|by apply cb_wf_set_tail].
    rewrite contents_set_tail by (done || lia). by rewrite Hcont.
Qed.
End RingFifo.

Lemma push_head_appends_witness :
  let cb : CircularBuffer 4 := mkCircularBuffer 3 1 [66; 0; 0; 65] in
  (used cb < 4 - 1 ->
   snd (push_head cb 67) = None
   /\ contents (fst (push_head cb 67)) = contents cb ++ [67]
   /\ cb_wf (fst (push_head cb 67)))
  /\ (used cb = 4 - 1 -> push_head cb 67 = (cb, Some 67)).
Proof.
  intros cb. apply (push_head_appends cb 67).
  unfold cb_wf. vm_compute. intuition congruence.
Defined.

Lemma pop_tail_takes_oldest_witness :
  let cb : CircularBuffer 4 := mkCircularBuffer 3 1 [66; 0; 0; 65] in
  snd (pop_tail cb) = Some 65
  /\ contents (fst (pop_tail cb)) = [66]
  /\ cb_wf (fst (pop_tail cb)).
Proof.
  intros cb. apply (pop_tail_takes_oldest cb).
  unfold cb_wf. vm_compute. intuition congruence.
Defined.

(** ** usart_rx_handler.cpp: bytes from the line into the ring *)

Section ReceiveFacts.
Context {SIZE : Z}.
Implicit Type cb : CircularBuffer SIZE.
Implicit Type r : Receiver SIZE.

(** [advance_head] after one byte was stored at the producer cursor: the
    byte is appended; when the buffer was full, the oldest byte is given up
    for it. *)
Lemma contents_store_advance cb (v : Z) :
  cb_wf cb ->
  let cb' := advance_head (store_next cb v) in
  cb_wf cb'
  /\ contents cb'
     = drop (if used cb =? SIZE - 1 then 1 else 0) (contents cb ++ [v]).
Proof.
  intros Hwf cb'. pose proof (full_iff cb Hwf) as Hfull.
  pose proof (used_below_capacity cb Hwf) as Hub.
  pose proof (contents_length cb Hwf) as Hc.
  unfold cb', advance_head, store_next. cbn [tail head buf].
  destruct (Z.eqb_spec ((head cb + 1) mod SIZE) (tail cb)) as [Heq|Hne].
  - (* full: the consumer cursor is pushed forward *)
    assert (Hu : used cb = SIZE - 1) by (by apply Hfull).
    rewrite Hu, Z.eqb_refl.
    destruct (Z.eq_dec SIZE 1) as [H1|Hbig].
    + (* a ring of one place never holds anything *)
      assert (Hnil : contents cb = [])
        by (destruct (contents cb); [done | unfold lsize in Hc; cbn in Hc; lia]).
      rewrite Hnil. cbn [app drop].
      match goal with |- cb_wf ?c /\ _ => set (cb1 := c) end.
      assert (Hwf1 : cb_wf cb1).
      { destruct Hwf as (HS & Ht & Hh & Hb). unfold cb_wf, cb1, lsize in *.
        cbn [tail head buf]. rewrite length_insert.
        pose proof (Z.mod_pos_bound (tail cb + 1) SIZE HS).
        pose proof (Z.mod_pos_bound (head cb + 1) SIZE HS). lia. }
      split; [done|].
      pose proof (contents_length cb1 Hwf1) as Hc1.
      pose proof (used_below_capacity cb1 Hwf1).
      destruct (contents cb1); [done | unfold lsize in Hc1; cbn in Hc1; lia].
    + (* appending into the free place, seen from one place further *)
      set (mid := set_tail cb ((tail cb + 1) mod SIZE)).
      assert (Hwfm : cb_wf mid) by (by apply cb_wf_set_tail).
      assert (Hum : used mid < SIZE - 1)
        by (unfold mid; rewrite used_set_tail by (done || lia); lia).
      pose proof (contents_produce mid v Hwfm Hum) as (Hwf' & _ & Hc').
      split; [exact Hwf'|].
      etransitivity; [exact Hc'|].
      unfold mid. rewrite contents_set_tail by (done || lia).
      rewrite drop_app_le; [done | unfold lsize in Hc; lia].
  - assert (Hroom : used cb < SIZE - 1).
    { destruct (Z.eq_dec (used cb) (SIZE - 1)) as [Hu|]; [|lia]. by apply Hfull in Hu. }
    destruct (Z.eqb_spec (used cb) (SIZE - 1)); [lia|]. cbn [drop].
    destruct (contents_produce cb v Hwf Hroom) as (Hwf' & _ & Hc''). done.
Qed.

Lemma byte_arrives_spec (byte : Z) r :
  rx_ok r ->
  rx_ok (byte_arrives byte r)
  /\ contents (rx_ring (byte_arrives byte r))
     = drop (if used (rx_ring r) =? SIZE - 1 then 1 else 0)
         (contents (rx_ring r) ++ [byte]).
Proof.
  intros [Hwf Harm]. unfold byte_arrives. rewrite Harm.
  unfold HAL_UART_RxCpltCallback, ReceiveBytes. cbn [is_huart2 negb rx_ring armed].
  destruct (contents_store_advance (rx_ring r) byte Hwf) as [Hwf' Hc].
  split; [by split|]. exact Hc.
Qed.

Lemma bytes_arrive_spec (bytes : list Z) :
  forall r,
    rx_ok r ->
    rx_ok (bytes_arrive bytes r)
    /\ contents (rx_ring (bytes_arrive bytes r))
       = drop (Z.to_nat (used (rx_ring r) + lsize bytes - (SIZE - 1)))
           (contents (rx_ring r) ++ bytes).
Proof.
  unfold bytes_arrive.
  induction bytes as [|b bytes IH]; intros r Hok; cbn [fold_left].
  - split; [done|]. destruct Hok as [Hwf _].
    pose proof (used_below_capacity _ Hwf).
    replace (Z.to_nat _) with 0%nat by (unfold lsize; cbn [length]; lia).
    by rewrite app_nil_r.
  - destruct (byte_arrives_spec b r Hok) as [Hok1 Hc1].
    destruct (IH _ Hok1) as [Hok2 Hc2]. split; [done|].
    destruct Hok as [Hwf _]. destruct Hok1 as [Hwf1 _].
    pose proof (used_below_capacity _ Hwf) as Hub.
    pose proof (contents_length _ Hwf) as Hl.
    pose proof (contents_length _ Hwf1) as Hl1.
    rewrite Hc2, Hc1. rewrite Hc1 in Hl1. unfold lsize in *. cbn [length].
    rewrite length_drop, length_app in Hl1. cbn [length] in Hl1.
    destruct (Z.eqb_spec (used (rx_ring r)) (SIZE - 1)) as [Hfull|Hroom].
    + change (b :: bytes) with ([b] ++ bytes). rewrite (app_assoc _ [b] bytes).
      rewrite <- (drop_app_le (contents (rx_ring r) ++ [b]) bytes 1)
        by (rewrite length_app; cbn [length]; lia).
      rewrite drop_drop. f_equal. lia.
    + rewrite drop_0, <- app_assoc. cbn [app]. f_equal.
      lia.
Qed.
End ReceiveFacts.

(** X12.  With reception armed by [ReceiveBytes], every byte that arrives is
    stored behind the bytes already held and reception is armed again.
    While there is room nothing is lost; once the ring is full each further
    byte pushes the oldest byte out, so the ring always holds the most
    recent [SIZE - 1] bytes. *)
Theorem bytes_arrive_keeps_latest (SIZE : Z) (r : Receiver SIZE) (bytes : list Z) :
  cb_wf (rx_ring r) ->
  let r' := bytes_arrive bytes (ReceiveBytes r) in
  rx_ok r'
  /\ contents (rx_ring r')
     = drop (Z.to_nat (used (rx_ring r) + lsize bytes - (SIZE - 1)))
         (contents (rx_ring r) ++ bytes)
  /\ (used (rx_ring r) + lsize bytes <= SIZE - 1 ->
      contents (rx_ring r') = contents (rx_ring r) ++ bytes).
Proof.
  intros Hwf r'.
  assert (Hok : rx_ok (ReceiveBytes r)) by (by split).
  destruct (bytes_arrive_spec bytes (ReceiveBytes r) Hok) as [Hok' Hc].
  cbn [ReceiveBytes rx_ring] in Hc. split; [done|]. split; [done|].
  intros Hroom. fold r' in Hc. rewrite Hc.
  by replace (Z.to_nat _) with 0%nat by lia.
Qed.

(** Five bytes arrive at a ring of four places that holds one byte. *)
Lemma bytes_arrive_keeps_latest_witness :
  let r : Receiver 4 := mkReceiver (mkCircularBuffer 3 0 [0; 0; 0; 65]) None in
  let r' := bytes_arrive [1; 2; 3; 4; 5] (ReceiveBytes r) in
  rx_ok r'
  /\ contents (rx_ring r')
     = drop (Z.to_nat (used (rx_ring r) + lsize [1; 2; 3; 4; 5] - (4 - 1)))
         (contents (rx_ring r) ++ [1; 2; 3; 4; 5])
  /\ (used (rx_ring r) + lsize [1; 2; 3; 4; 5] <= 4 - 1 ->
      contents (rx_ring r') = contents (rx_ring r) ++ [1; 2; 3; 4; 5]).
Proof.
  intros r.
  apply (bytes_arrive_keeps_latest 4 r [1; 2; 3; 4; 5]).
  unfold cb_wf. vm_compute. intuition congruence.
Defined.

(** ** command_handler.cpp: what [GetFrame] takes out of the ring *)

Section GetFrameContents.
Context {SIZE : Z}.
Implicit Type rx : CircularBuffer SIZE.

(** A byte of the contents, by its place. *)
Lemma contents_at rx (pre post : list Z) (x : Z) :
  cb_wf rx -> contents rx = pre ++ x :: post ->
  lsize pre < used rx /\ peek rx (lsize pre) = x.
Proof.
  intros Hwf Hc. pose proof (contents_length rx Hwf) as Hl.
  rewrite Hc in Hl. unfold lsize in *. rewrite length_app in Hl. cbn [length] in Hl.
  split; [lia|].
  pose proof (contents_lookup rx (length pre) ltac:(lia)) as Hlk.
  rewrite Hc, list_lookup_middle in Hlk by done. congruence.
Qed.

Lemma contents_prefix_at rx (pre post : list Z) (i : Z) :
  cb_wf rx -> contents rx = pre ++ post -> 0 <= i < lsize pre ->
  i < used rx /\ peek rx i = pre !!! Z.to_nat i.
Proof.
  intros Hwf Hc Hi. pose proof (contents_length rx Hwf) as Hl.
  rewrite Hc in Hl. unfold lsize in *. rewrite length_app in Hl.
  split; [lia|].
  pose proof (contents_lookup rx (Z.to_nat i) ltac:(lia)) as Hlk.
  rewrite Hc, lookup_app_l, Z2Nat.id in Hlk by lia.
  by rewrite (list_lookup_total_correct _ _ _ Hlk).
Qed.

(** The second loop, started [s] places after the consumer cursor, walks
    over [k] bytes that are neither BEGIN nor END and stops there, at the
    producer cursor or on an END. *)
Lemma scan_end_walks (k : nat) :
  forall (turns : nat) rx (s : Z),
    (k < turns)%nat -> cb_wf rx -> 0 <= s ->
    s + Z.of_nat k <= used rx ->
    (forall i, s <= i < s + Z.of_nat k -> plain (peek rx i)) ->
    s + Z.of_nat k = used rx \/ peek rx (s + Z.of_nat k) = END_FRAME_BYTE ->
    exists events,
      scan_end turns rx ((tail rx + s) mod SIZE)
      = Some (ScanDone ((tail rx + (s + Z.of_nat k)) mod SIZE), events).
Proof.
  induction k as [|k IH]; intros turns rx s Ht Hwf Hs Hu Hmid Hstop.
  - destruct turns as [|turns]; [lia|]. cbn [scan_end].
    rewrite Z.add_0_r in *.
    destruct (Z.eqb_spec ((tail rx + s) mod SIZE) (head rx)) as [Hh|Hnh]; [eauto|].
    cbn [negb]. destruct Hstop as [Hend|Hend].
    + subst s. by rewrite offset_used in Hnh.
    + unfold peek in Hend. rewrite Hend, Z.eqb_refl. cbn [negb]. eauto.
  - destruct turns as [|turns]; [lia|]. cbn [scan_end].
    pose proof (offset_before_head rx s Hwf ltac:(lia)) as Hne.
    apply Z.eqb_neq in Hne. rewrite Hne. cbn [negb].
    destruct (Hmid s ltac:(lia)) as [Hb He]. unfold peek in Hb, He.
    apply Z.eqb_neq in Hb, He. rewrite Hb, He. cbn [negb].
    unfold getCapacity. rewrite Zplus_mod_idemp_l.
    destruct (IH turns rx (s + 1)) as [ev Hev].
    + lia.
    + done.
    + lia.
    + lia.
    + intros i Hi. apply Hmid. lia.
    + replace (s + 1 + Z.of_nat k) with (s + Z.of_nat (S k)) by lia. done.
    + replace (tail rx + s + 1) with (tail rx + (s + 1)) by lia.
      replace (s + Z.of_nat (S k)) with (s + 1 + Z.of_nat k) by lia.
      rewrite Hev. eauto.
Qed.

(** Where the first loop stops when the contents start with bytes that are
    not BEGIN, followed by a BEGIN. *)
Lemma seek_begin_junk rx (junk post : list Z) :
  cb_wf rx ->
  contents rx = junk ++ BEGIN_FRAME_BYTE :: post ->
  Forall (fun b => b <> BEGIN_FRAME_BYTE) junk ->
  let rx1 := set_tail rx ((tail rx + lsize junk) mod SIZE) in
  (exists events, seek_begin (S (Z.to_nat SIZE)) rx = Some (rx1, events))
  /\ cb_wf rx1 /\ contents rx1 = BEGIN_FRAME_BYTE :: post
  /\ tail rx1 <> head rx1.
Proof.
  intros Hwf Hc Hjunk rx1.
  pose proof (used_below_capacity rx Hwf) as Hub.
  destruct (contents_at rx junk post _ Hwf Hc) as [Hlt Hpeek].
  assert (Hwf1 : cb_wf rx1) by (by apply cb_wf_set_tail).
  assert (Hc1 : contents rx1 = BEGIN_FRAME_BYTE :: post).
  { unfold rx1. rewrite contents_set_tail by (done || (unfold lsize in *; lia)).
    rewrite Hc. unfold lsize. by rewrite Nat2Z.id, drop_app_length. }
  split; [|split; [done|split; [done|]]].
  - pose proof (seek_begin_skips (length junk) (S (Z.to_nat SIZE)) rx) as Hseek.
    apply Hseek; [unfold lsize in *; lia | done | done | | done].
    intros i Hi.
    destruct (contents_prefix_at rx junk _ i Hwf Hc Hi) as [_ ->].
    apply (Forall_lookup_1 (fun b => b <> BEGIN_FRAME_BYTE) junk (Z.to_nat i) _ Hjunk).
    apply list_lookup_lookup_total_lt. unfold lsize in Hi. lia.
  - intros Heq. symmetry in Heq. apply used_zero_iff in Heq; [|done].
    pose proof (contents_length rx1 Hwf1) as Hl. rewrite Hc1 in Hl.
    unfold lsize in Hl. cbn [length] in Hl. lia.
Qed.
End GetFrameContents.

Lemma set_tail_offset {SIZE} (rx : CircularBuffer SIZE) (j m : Z) :
  set_tail (set_tail rx ((tail rx + j) mod SIZE))
    ((tail (set_tail rx ((tail rx + j) mod SIZE)) + m) mod SIZE)
  = set_tail rx ((tail rx + (j + m)) mod SIZE).
Proof.
  unfold set_tail. cbn [tail head buf]. by rewrite Zplus_mod_idemp_l, Z.add_assoc.
Qed.

(** X13.  [GetFrame] always returns, and all it does to the receive buffer
    is to move the consumer cursor forward over bytes that were held: the
    producer cursor and the stored bytes are untouched, and what is left are
    the previous contents without their first [k] bytes. *)
Theorem GetFrame_only_consumes (SIZE : Z) (rx : CircularBuffer SIZE) :
  cb_wf rx ->
  exists (result : option Frame) (k : Z) (events : list Event),
    GetFrame rx = Some (result, set_tail rx ((tail rx + k) mod SIZE), events)
    /\ 0 <= k <= used rx
    /\ contents (set_tail rx ((tail rx + k) mod SIZE)) = drop (Z.to_nat k) (contents rx)
    /\ cb_wf (set_tail rx ((tail rx + k) mod SIZE)).
Proof.
  intros Hwf. pose proof (used_below_capacity rx Hwf) as Hu.
  assert (Hshape : forall (result : option Frame) (k : Z) (events : list Event),
             0 <= k <= used rx ->
             exists (result0 : option Frame) (k0 : Z) (events0 : list Event),
               Some (result, set_tail rx ((tail rx + k) mod SIZE), events)
               = Some (result0, set_tail rx ((tail rx + k0) mod SIZE), events0)
               /\ 0 <= k0 <= used rx
               /\ contents (set_tail rx ((tail rx + k0) mod SIZE))
                  = drop (Z.to_nat k0) (contents rx)
               /\ cb_wf (set_tail rx ((tail rx + k0) mod SIZE))).
  { intros result k events Hk. exists result, k, events.
    split; [done|]. split; [done|].
    split; [by apply contents_set_tail | by apply cb_wf_set_tail]. }
  unfold GetFrame, getCapacity.
  destruct (seek_begin_spec (Z.to_nat (used rx)) (S (Z.to_nat SIZE)) rx)
    as (j & ev1 & Hj & Hseek & _ & _ & _ & _); [done | lia | lia |].
  rewrite Hseek.
  set (rx1 := set_tail rx ((tail rx + j) mod SIZE)).
  assert (Hwf1 : cb_wf rx1) by (by apply cb_wf_set_tail).
  assert (Hu1 : used rx1 = used rx - j) by (by apply used_set_tail).
  destruct (Z.eqb_spec (tail rx1) (head rx1)) as [Heq|Hne]; [by apply Hshape|].
  assert (Hpos : 1 <= used rx1).
  { pose proof (used_below_capacity rx1 Hwf1).
    destruct (Z.eq_dec (used rx1) 0) as [H0|]; [|lia].
    apply used_zero_iff in H0; [congruence | done]. }
  destruct (scan_end_spec (Z.to_nat (used rx1 - 1)) (S (Z.to_nat SIZE)) rx1 1)
    as (m & r & ev2 & Hm & Hscan & Hr & _ & _); [done | lia | lia | lia |].
  rewrite Hscan.
  destruct Hr as [[-> Hlt] | ->].
  - unfold rx1. rewrite set_tail_offset. apply Hshape. lia.
  - destruct (Z.eqb_spec (head rx1) ((tail rx1 + m) mod SIZE)) as [Hh|Hnh];
      [by apply Hshape|].
    destruct (negb (at_ (buf rx1) ((tail rx1 + m) mod SIZE) =? END_FRAME_BYTE));
      [by apply Hshape|].
    assert (Hm1 : m < used rx1).
    { destruct (Z.eq_dec m (used rx1)) as [->|]; [|lia].
      rewrite offset_used in Hnh by done. done. }
    destruct (deserialize_from_ring_total (mkFrame 0 0 sv_new) rx1) as [[err frame] Hdec].
    rewrite Hdec. rewrite Zplus_mod_idemp_l.
    replace (tail rx1 + m + 1) with (tail rx1 + (m + 1)) by lia.
    unfold rx1. rewrite set_tail_offset.
    destruct (is_DeserializeOk err); apply Hshape; lia.
Qed.

Lemma GetFrame_only_consumes_witness :
  let rx : CircularBuffer 8 := mkCircularBuffer 0 6 [120; 40; 97; 98; 40; 99; 0; 0] in
  exists (result : option Frame) (k : Z) (events : list Event),
    GetFrame rx = Some (result, set_tail rx ((tail rx + k) mod 8), events)
    /\ 0 <= k <= used rx
    /\ contents (set_tail rx ((tail rx + k) mod 8)) = drop (Z.to_nat k) (contents rx)
    /\ cb_wf (set_tail rx ((tail rx + k) mod 8)).
Proof.
  intros rx. apply (GetFrame_only_consumes 8 rx).
  unfold cb_wf. vm_compute. intuition congruence.
Defined.

(** X14.  A frame of which only the beginning has arrived stays in the
    buffer: when the contents are some bytes without a BEGIN, then a BEGIN,
    then bytes that are neither BEGIN nor END, [GetFrame] returns no frame,
    gives up the bytes before the BEGIN and keeps the rest, so that bytes
    arriving later can complete the frame. *)
Theorem GetFrame_keeps_partial_frame (SIZE : Z) (rx : CircularBuffer SIZE)
    (junk mid : list Z) :
  cb_wf rx ->
  contents rx = junk ++ BEGIN_FRAME_BYTE :: mid ->
  Forall (fun b => b <> BEGIN_FRAME_BYTE) junk ->
  Forall plain mid ->
  exists (rx' : CircularBuffer SIZE) (events : list Event),
    GetFrame rx = Some (None, rx', events)
    /\ contents rx' = BEGIN_FRAME_BYTE :: mid
    /\ head rx' = head rx /\ buf rx' = buf rx.
Proof.
  intros Hwf Hc Hjunk Hmid.
  destruct (seek_begin_junk rx junk mid Hwf Hc Hjunk)
    as ([ev1 Hseek] & Hwf1 & Hc1 & Hne).
  set (rx1 := set_tail rx ((tail rx + lsize junk) mod SIZE)) in *.
  pose proof (used_below_capacity rx1 Hwf1) as Hub.
  pose proof (contents_length rx1 Hwf1) as Hl. rewrite Hc1 in Hl.
  unfold lsize in Hl. cbn [length] in Hl.
  unfold GetFrame, getCapacity. rewrite Hseek.
  apply Z.eqb_neq in Hne. rewrite Hne.
  destruct (scan_end_walks (length mid) (S (Z.to_nat SIZE)) rx1 1) as [ev2 Hscan].
  - lia.
  - done.
  - lia.
  - lia.
  - intros i Hi.
    destruct (contents_prefix_at rx1 (BEGIN_FRAME_BYTE :: mid) [] i Hwf1) as [_ ->].
    + by rewrite app_nil_r.
    + unfold lsize. cbn [length]. lia.
    + replace (Z.to_nat i) with (S (Z.to_nat (i - 1))) by lia.
      change ((BEGIN_FRAME_BYTE :: mid) !!! S (Z.to_nat (i - 1)))
        with (mid !!! Z.to_nat (i - 1)).
      apply (Forall_lookup_1 plain mid (Z.to_nat (i - 1)) _ Hmid).
      apply list_lookup_lookup_total_lt. lia.
  - left. lia.
  - rewrite Hscan.
    replace (1 + Z.of_nat (length mid)) with (used rx1) by lia.
    rewrite offset_used by done. rewrite Z.eqb_refl.
    exists rx1, (IrqDisable :: ev1 ++ ev2 ++ [IrqEnable]). done.
Qed.

(** One byte of noise, then the first four bytes of a frame. *)
Lemma GetFrame_keeps_partial_frame_witness :
  let rx : CircularBuffer 8 := mkCircularBuffer 6 3 [7; 100; 0; 0; 0; 0; 120; 40] in
  exists (rx' : CircularBuffer 8) (events : list Event),
    GetFrame rx = Some (None, rx', events)
    /\ contents rx' = BEGIN_FRAME_BYTE :: [7; 100; 0]
    /\ head rx' = head rx /\ buf rx' = buf rx.
Proof.
  intros rx. apply (GetFrame_keeps_partial_frame 8 rx [120] [7; 100; 0]).
  - unfold cb_wf. vm_compute. intuition congruence.
  - vm_compute. reflexivity.
  - repeat constructor. vm_compute. congruence.
  - repeat constructor; vm_compute; congruence.
Defined.

(** ** frame.cpp: decoding straight from the ring *)

Section RingDecodeFacts.
Context {SIZE : Z}.
Implicit Type rx : CircularBuffer SIZE.

Lemma offset_inj rx (i j : Z) :
  cb_wf rx -> 0 <= i < SIZE -> 0 <= j < SIZE ->
  (tail rx + i) mod SIZE = (tail rx + j) mod SIZE -> i = j.
Proof.
  intros Hwf Hi Hj. rewrite !(offset_cases rx) by done.
  destruct Hwf as (HS & Ht & _).
  destruct (Z.ltb_spec (tail rx + i) SIZE); destruct (Z.ltb_spec (tail rx + j) SIZE); lia.
Qed.

(** The index of the last byte held, as the ring decoder computes it. *)
Lemma last_index rx :
  cb_wf rx ->
  (if negb (head rx =? 0) then head rx else getCapacity rx) - 1
  = (tail rx + (used rx - 1)) mod SIZE.
Proof.
  intros Hwf. pose proof (offset_used rx Hwf) as Hoff.
  destruct Hwf as (HS & Ht & Hh & _). unfold getCapacity.
  replace (tail rx + (used rx - 1)) with (tail rx + used rx - 1) by lia.
  rewrite <- Zminus_mod_idemp_l, Hoff.
  destruct (Z.eqb_spec (head rx) 0) as [->|Hne]; cbn [negb].
  - apply (Z.mod_unique _ _ (-1)); lia.
  - symmetry. apply Z.mod_small. lia.
Qed.

(** The loop of the ring decoder, started on the escaped image of [l] that
    is followed by an END: it decodes [l] and stops on that END. *)
Lemma deserialize_ring_loop_decodes {DSIZE} rx (l : list Z) :
  forall (turns : nat) (pre rest : list Z) (b0 : Z) (decoded : StaticVec Z DSIZE),
    cb_wf rx ->
    contents rx = pre ++ escapes l ++ END_FRAME_BYTE :: rest ->
    (length l < turns)%nat ->
    size decoded + lsize l <= DSIZE ->
    deserialize_ring_loop turns (buf rx) ((tail rx + (used rx - 1)) mod SIZE) SIZE
      ((tail rx + lsize pre) mod SIZE) b0 decoded
    = Some (RingExit ((tail rx + (lsize pre + lsize (escapes l))) mod SIZE)
              (mkStaticVec (items decoded ++ l))).
Proof.
  induction l as [|b l IH]; intros turns pre rest b0 decoded Hwf Hc Ht Hroom;
    (destruct turns as [|turns]; [cbn [length] in Ht; lia|]);
    cbn [deserialize_ring_loop].
  - change (escapes []) with (@nil Z) in *. cbn [app] in Hc.
    destruct (contents_at rx pre rest _ Hwf Hc) as [_ Hend].
    change (lsize (@nil Z)) with 0. rewrite Z.add_0_r, app_nil_r.
    assert (Hd : mkStaticVec (items decoded) = decoded) by (by destruct decoded).
    rewrite Hd.
    destruct (_ =? _); [done|].
    unfold peek in Hend. by rewrite Hend, Z.eqb_refl.
  - change (escapes (b :: l)) with (escape b ++ escapes l) in *.
    rewrite <- app_assoc in Hc.
    pose proof (used_below_capacity rx Hwf) as Hub.
    pose proof (contents_length rx Hwf) as Hlen.
    pose proof (escape_length b) as Heb.
    rewrite Hc in Hlen. unfold lsize in Hlen.
    rewrite !length_app in Hlen. cbn [length] in Hlen.
    remember (lsize pre) as p eqn:Hpdef.
    assert (Hp : 0 <= p) by (rewrite Hpdef; unfold lsize; lia).
    (* not yet at the last byte held *)
    destruct (Z.eqb_spec ((tail rx + p) mod SIZE) ((tail rx + (used rx - 1)) mod SIZE))
      as [Heq|_].
    { apply offset_inj in Heq; [|done|unfold lsize in *; lia|lia].
      unfold lsize in *. lia. }
    (* the bytes in the window *)
    assert (Hpre : forall i, 0 <= i < lsize (escape b) ->
                   peek rx (p + i) = escape b !!! Z.to_nat i).
    { intros i Hi.
      destruct (contents_prefix_at rx (pre ++ escape b)
                  (escapes l ++ END_FRAME_BYTE :: rest) (p + i) Hwf) as [_ ->].
      - by rewrite <- app_assoc.
      - unfold lsize in *. rewrite length_app. lia.
      - rewrite lookup_total_app_r by (unfold lsize in *; lia).
        f_equal. unfold lsize in *. lia. }
    assert (Hwin : exists more,
               [at_ (buf rx) ((tail rx + p) mod SIZE);
                at_ (buf rx) (((tail rx + p) mod SIZE + 1) mod SIZE)]
               = escape b ++ more).
    { rewrite Zplus_mod_idemp_l.
      replace (tail rx + p + 1) with (tail rx + (p + 1)) by lia.
      change (at_ (buf rx) ((tail rx + (p + 1)) mod SIZE)) with (peek rx (p + 1)).
      replace (at_ (buf rx) ((tail rx + p) mod SIZE)) with (peek rx (p + 0))
        by (by rewrite Z.add_0_r).
      destruct (escape b) as [|x [|y [|z more]]] eqn:He; cbn [length] in Heb; try lia.
      - rewrite (Hpre 0) by (unfold lsize; cbn; lia). by exists [peek rx (p + 1)].
      - rewrite (Hpre 0), (Hpre 1) by (unfold lsize; cbn; lia). by exists []. }
    destruct Hwin as [more Hwin]. rewrite Hwin, decode_byte_escape.
    (* its first byte is not an END *)
    assert (Hfirst : at_ (buf rx) ((tail rx + p) mod SIZE) <> END_FRAME_BYTE).
    { replace (at_ (buf rx) ((tail rx + p) mod SIZE)) with (peek rx (p + 0))
        by (by rewrite Z.add_0_r).
      rewrite Hpre by (unfold lsize; lia).
      apply (Forall_lookup_1 plain (escape b) (Z.to_nat 0) _ (escape_plain b)).
      apply list_lookup_lookup_total_lt. change (Z.to_nat 0) with 0%nat. lia. }
    apply Z.eqb_neq in Hfirst. rewrite Hfirst. cbn [is_DeserializeOk negb].
    rewrite push_back_room
      by (unfold lsize in Hroom; cbn [length] in Hroom; clear -Hroom; lia).
    cbn [has_value]. rewrite Zplus_mod_idemp_l.
    replace (tail rx + p + lsize (escape b)) with (tail rx + lsize (pre ++ escape b))
      by (unfold lsize in *; rewrite length_app; lia).
    rewrite (IH turns (pre ++ escape b) rest); [|done| |cbn [length] in Ht; lia|].
    + f_equal. f_equal.
      * f_equal. rewrite Hpdef. unfold lsize. rewrite !length_app. lia.
      * cbn [items]. by rewrite <- app_assoc.
    + by rewrite <- app_assoc.
    + rewrite size_mk. unfold lsize, size in *. rewrite length_app.
      cbn [length] in *. lia.
Qed.

(** The ring decoder on a ring that starts with the encoded image of a
    frame. *)
Lemma deserialize_from_ring_wire rx (this f : Frame) (rest : list Z) :
  cb_wf rx ->
  contents rx = wire_of f ++ rest ->
  is_byte (sender f) -> is_byte (receiver f) ->
  size (data f) <= FRAME_DATA_MAX_SIZE ->
  deserialize_from_ring this rx = Some (DeserializeOk, f).
Proof.
  intros Hwf Hc Hs Hr Hsz. pose proof (size_nonneg (data f)) as Hnn.
  assert (Hmax : FRAME_DATA_MAX_SIZE = 1268) by reflexivity.
  pose proof (wire_of_length f) as Hwl.
  pose proof (contents_length rx Hwf) as Hlen.
  pose proof (frame_body_length f) as Hbl.
  assert (Hc' : contents rx = [BEGIN_FRAME_BYTE] ++ escapes (frame_body f)
                              ++ END_FRAME_BYTE :: rest).
  { rewrite Hc. unfold wire_of. cbn [app]. by rewrite <- app_assoc. }
  rewrite Hc in Hlen. unfold lsize in Hlen, Hwl. rewrite length_app in Hlen.
  unfold deserialize_from_ring.
  destruct (contents_at rx [] _ _ Hwf Hc') as [Hpos Hbegin].
  unfold peek, lsize in Hbegin. cbn [length] in Hbegin.
  rewrite tail_offset_0 in Hbegin by done.
  rewrite Hbegin, Z.eqb_refl. cbn [negb].
  rewrite getSize_spec by done.
  assert (Hne : head rx <> tail rx).
  { intros Heq. apply used_zero_iff in Heq; [|done]. lia. }
  apply Z.eqb_neq in Hne. rewrite Hne.
  destruct (Z.ltb_spec (used rx) FRAME_MIN_SIZE) as [Hlt|_];
    [unfold FRAME_MIN_SIZE in Hlt; lia|].
  rewrite last_index by done. unfold getCapacity.
  change ((tail rx + 1) mod SIZE) with ((tail rx + lsize [BEGIN_FRAME_BYTE]) mod SIZE).
  rewrite (deserialize_ring_loop_decodes rx (frame_body f) _ [BEGIN_FRAME_BYTE] rest);
    [|done|done| |].
  - destruct (contents_at rx ([BEGIN_FRAME_BYTE] ++ escapes (frame_body f)) rest
                END_FRAME_BYTE Hwf) as [_ Hend].
    { by rewrite <- app_assoc. }
    unfold peek in Hend. rewrite lsize_app in Hend. rewrite Hend, Z.eqb_refl.
    cbn [sv_new items app]. by rewrite deserialize_from_decoded_fields.
  - unfold lsize in Hbl. unfold FRAME_MAX_SIZE. lia.
  - change (size sv_new) with 0. unfold FRAME_MAX_SIZE. lia.
Qed.
End RingDecodeFacts.

(** ** command_handler.cpp: [GetFrame] on delimited candidates *)

(** When the contents are bytes without a BEGIN, then a BEGIN, bytes that
    are neither BEGIN nor END, an END, and whatever else: [GetFrame] calls
    the ring decoder with the consumer cursor on that BEGIN and afterwards
    leaves what came after the END. *)
Lemma GetFrame_delimited {SIZE} (rx : CircularBuffer SIZE) (junk mid rest : list Z) :
  cb_wf rx ->
  contents rx = junk ++ BEGIN_FRAME_BYTE :: mid ++ END_FRAME_BYTE :: rest ->
  Forall (fun b => b <> BEGIN_FRAME_BYTE) junk ->
  Forall plain mid ->
  let rx1 := set_tail rx ((tail rx + lsize junk) mod SIZE) in
  exists (rx' : CircularBuffer SIZE) (events : list Event),
    GetFrame rx
    = Some (match deserialize_from_ring (mkFrame 0 0 sv_new) rx1 with
            | Some (DeserializeOk, frame) => Some frame
            | _ => None
            end, rx', events)
    /\ contents rx' = rest /\ head rx' = head rx /\ buf rx' = buf rx
    /\ cb_wf rx'.
Proof.
  intros Hwf Hc Hjunk Hmid rx1.
  destruct (seek_begin_junk rx junk _ Hwf Hc Hjunk) as ([ev1 Hseek] & Hwf1 & Hc1 & Hne).
  fold rx1 in Hseek, Hwf1, Hc1, Hne.
  pose proof (used_below_capacity rx1 Hwf1) as Hub.
  pose proof (contents_length rx1 Hwf1) as Hl. rewrite Hc1 in Hl.
  unfold lsize in Hl. cbn [length] in Hl. rewrite length_app in Hl. cbn [length] in Hl.
  assert (Hend : peek rx1 (1 + Z.of_nat (length mid)) = END_FRAME_BYTE).
  { destruct (contents_at rx1 (BEGIN_FRAME_BYTE :: mid) rest END_FRAME_BYTE Hwf1)
      as [_ He]; [by rewrite Hc1|].
    rewrite <- He. f_equal. unfold lsize. cbn [length]. lia. }
  unfold GetFrame, getCapacity. rewrite Hseek.
  apply Z.eqb_neq in Hne. rewrite Hne.
  destruct (scan_end_walks (length mid) (S (Z.to_nat SIZE)) rx1 1) as [ev2 Hscan].
  - lia.
  - done.
  - lia.
  - lia.
  - intros i Hi.
    destruct (contents_prefix_at rx1 (BEGIN_FRAME_BYTE :: mid) (END_FRAME_BYTE :: rest)
                i Hwf1) as [_ ->].
    + by rewrite Hc1.
    + unfold lsize. cbn [length]. lia.
    + replace (Z.to_nat i) with (S (Z.to_nat (i - 1))) by lia.
      change ((BEGIN_FRAME_BYTE :: mid) !!! S (Z.to_nat (i - 1)))
        with (mid !!! Z.to_nat (i - 1)).
      apply (Forall_lookup_1 plain mid (Z.to_nat (i - 1)) _ Hmid).
      apply list_lookup_lookup_total_lt. lia.
  - by right.
  - rewrite Hscan.
    pose proof (offset_before_head rx1 (1 + Z.of_nat (length mid)) Hwf1 ltac:(lia)) as Hnh.
    destruct (Z.eqb_spec (head rx1) ((tail rx1 + (1 + Z.of_nat (length mid))) mod SIZE))
      as [Heq|_]; [congruence|].
    unfold peek in Hend. rewrite Hend, Z.eqb_refl. cbn [negb].
    destruct (deserialize_from_ring_total (mkFrame 0 0 sv_new) rx1) as [[err frame] Hdec].
    rewrite Hdec. rewrite Zplus_mod_idemp_l.
    set (k := 1 + Z.of_nat (length mid) + 1).
    assert (Hc2 : contents (set_tail rx1 ((tail rx1 + k) mod SIZE)) = rest).
    { rewrite contents_set_tail by (done || (unfold k; lia)).
      rewrite Hc1. unfold k.
      replace (Z.to_nat (1 + Z.of_nat (length mid) + 1)) with (S (length mid + 1)) by lia.
      cbn [drop]. change (END_FRAME_BYTE :: rest) with ([END_FRAME_BYTE] ++ rest).
      rewrite app_assoc, drop_app_length'; [done|].
      rewrite length_app. cbn [length]. lia. }
    assert (Hwf2 : cb_wf (set_tail rx1 ((tail rx1 + k) mod SIZE)))
      by (by apply cb_wf_set_tail).
    replace (tail rx1 + (1 + Z.of_nat (length mid)) + 1) with (tail rx1 + k)
      by (unfold k; lia).
    destruct err; cbn [is_DeserializeOk]; eexists _, _; (split; [reflexivity|]); done.
Qed.

(** [GetFrame] on a ring that holds a complete encoded frame. *)
Lemma GetFrame_wire {SIZE} (rx : CircularBuffer SIZE) (junk rest : list Z) (f : Frame) :
  cb_wf rx ->
  contents rx = junk ++ wire_of f ++ rest ->
  Forall (fun b => b <> BEGIN_FRAME_BYTE) junk ->
  is_byte (sender f) -> is_byte (receiver f) ->
  size (data f) <= FRAME_DATA_MAX_SIZE ->
  exists (rx' : CircularBuffer SIZE) (events : list Event),
    GetFrame rx = Some (Some f, rx', events)
    /\ contents rx' = rest /\ head rx' = head rx /\ buf rx' = buf rx
    /\ cb_wf rx'.
Proof.
  intros Hwf Hc Hjunk Hs Hr Hsz.
  assert (Hc' : contents rx = junk ++ BEGIN_FRAME_BYTE :: escapes (frame_body f)
                              ++ END_FRAME_BYTE :: rest).
  { rewrite Hc. unfold wire_of. cbn [app]. by rewrite <- app_assoc. }
  destruct (GetFrame_delimited rx junk _ rest Hwf Hc' Hjunk (escapes_plain _))
    as (rx' & ev & Hget & Hrest & Hh & Hb & Hwf').
  destruct (seek_begin_junk rx junk _ Hwf Hc' Hjunk) as (_ & Hwf1 & Hc1 & _).
  rewrite (deserialize_from_ring_wire _ _ f rest) in Hget; try done.
  - eauto 10.
  - rewrite Hc1. unfold wire_of. cbn [app]. by rewrite <- app_assoc.
Qed.

(** X15.  A complete frame in the receive buffer is returned: when the
    contents are bytes without a BEGIN followed by the encoded image of a
    frame (whose sender and receiver are bytes and whose payload is within
    FRAME_DATA_MAX_SIZE), [GetFrame] returns that frame and leaves in the
    buffer exactly the bytes that came after it. *)
Theorem GetFrame_returns_complete_frame (SIZE : Z) (rx : CircularBuffer SIZE)
    (junk rest : list Z) (f : Frame) :
  cb_wf rx ->
  contents rx = junk ++ wire_of f ++ rest ->
  Forall (fun b => b <> BEGIN_FRAME_BYTE) junk ->
  is_byte (sender f) -> is_byte (receiver f) ->
  size (data f) <= FRAME_DATA_MAX_SIZE ->
  exists (rx' : CircularBuffer SIZE) (events : list Event),
    GetFrame rx = Some (Some f, rx', events)
    /\ contents rx' = rest /\ head rx' = head rx /\ buf rx' = buf rx.
Proof.
  intros Hwf Hc Hjunk Hs Hr Hsz.
  destruct (GetFrame_wire rx junk rest f Hwf Hc Hjunk Hs Hr Hsz)
    as (rx' & ev & Hget & Hrest & Hh & Hb & _).
  eauto 10.
Qed.

(** One byte of noise, the encoded frame (7 -> 100, no payload), and the
    BEGIN of the next frame, in a ring of sixteen places, wrapping round. *)
Lemma GetFrame_returns_complete_frame_witness :
  let rx : CircularBuffer 16 :=
    mkCircularBuffer 14 10
      [7; 100; 0; 0; 145; 218; 32; 44; 41; 40; 0; 0; 0; 0; 120; 40] in
  exists (rx' : CircularBuffer 16) (events : list Event),
    GetFrame rx = Some (Some (mkFrame 7 100 (mkStaticVec [])), rx', events)
    /\ contents rx' = [40] /\ head rx' = head rx /\ buf rx' = buf rx.
Proof.
  intros rx.
  apply (GetFrame_returns_complete_frame 16 rx [120] [40] (mkFrame 7 100 (mkStaticVec []))).
  - unfold cb_wf. vm_compute. intuition congruence.
  - vm_compute. reflexivity.
  - repeat constructor. vm_compute. congruence.
  - vm_compute. intuition congruence.
  - vm_compute. intuition congruence.
  - vm_compute. congruence.
Defined.

(** X16.  A delimited candidate is consumed whether or not it decodes: when
    the contents are bytes without a BEGIN, a BEGIN, bytes that are neither
    BEGIN nor END, and an END, [GetFrame] moves the consumer cursor behind
    that END in every case; it returns a frame exactly when the ring decoder
    accepts the candidate, and a candidate that is turned down (a wrong
    checksum, a wrong length, a bad escape) is not looked at again. *)
Theorem GetFrame_consumes_delimited_candidate (SIZE : Z) (rx : CircularBuffer SIZE)
    (junk mid rest : list Z) :
  cb_wf rx ->
  contents rx = junk ++ BEGIN_FRAME_BYTE :: mid ++ END_FRAME_BYTE :: rest ->
  Forall (fun b => b <> BEGIN_FRAME_BYTE) junk ->
  Forall plain mid ->
  exists (result : option Frame) (rx' : CircularBuffer SIZE) (events : list Event),
    GetFrame rx = Some (result, rx', events)
    /\ contents rx' = rest /\ head rx' = head rx /\ buf rx' = buf rx
    /\ (forall frame,
          result = Some frame
          <-> deserialize_from_ring (mkFrame 0 0 sv_new)
                (set_tail rx ((tail rx + lsize junk) mod SIZE))
              = Some (DeserializeOk, frame)).
Proof.
  intros Hwf Hc Hjunk Hmid.
  destruct (GetFrame_delimited rx junk mid rest Hwf Hc Hjunk Hmid)
    as (rx' & ev & Hget & Hrest & Hh & Hb & _).
  eexists _, rx', ev. split; [exact Hget|]. repeat (split; [done|]).
  intros frame.
  destruct (deserialize_from_ring _ _) as [[err fr]|]; [|split; discriminate].
  destruct err; split; (discriminate || congruence).
Qed.

(** The frame (7 -> 100, no payload) with its last checksum byte changed,
    followed by one more byte. *)
Lemma GetFrame_consumes_delimited_candidate_witness :
  let rx : CircularBuffer 16 :=
    mkCircularBuffer 0 11 [40; 7; 100; 0; 0; 145; 218; 32; 45; 41; 88; 0; 0; 0; 0; 0] in
  exists (result : option Frame) (rx' : CircularBuffer 16) (events : list Event),
    GetFrame rx = Some (result, rx', events)
    /\ contents rx' = [88] /\ head rx' = head rx /\ buf rx' = buf rx
    /\ (forall frame,
          result = Some frame
          <-> deserialize_from_ring (mkFrame 0 0 sv_new)
                (set_tail rx ((tail rx + lsize (@nil Z)) mod 16))
              = Some (DeserializeOk, frame)).
Proof.
  intros rx.
  apply (GetFrame_consumes_delimited_candidate 16 rx [] [7; 100; 0; 0; 145; 218; 32; 45] [88]).
  - unfold cb_wf. vm_compute. intuition congruence.
  - vm_compute. reflexivity.
  - constructor.
  - repeat constructor; vm_compute; congruence.
Defined.

(** ** From the line to the frame, and from the frame to the answer *)

(** X17.  The receive path end to end: with reception armed on a ring that
    holds no BEGIN and has room, the bytes of an encoded frame arriving one
    after the other are stored by the completion callback, and [GetFrame]
    then returns that very frame and leaves the ring empty. *)
Theorem arrived_frame_is_extracted (SIZE : Z) (r : Receiver SIZE) (f : Frame) :
  cb_wf (rx_ring r) ->
  Forall (fun b => b <> BEGIN_FRAME_BYTE) (contents (rx_ring r)) ->
  used (rx_ring r) + lsize (wire_of f) <= SIZE - 1 ->
  is_byte (sender f) -> is_byte (receiver f) ->
  size (data f) <= FRAME_DATA_MAX_SIZE ->
  exists (rx' : CircularBuffer SIZE) (events : list Event),
    GetFrame (rx_ring (bytes_arrive (wire_of f) (ReceiveBytes r)))
    = Some (Some f, rx', events)
    /\ contents rx' = [].
Proof.
  intros Hwf Hjunk Hroom Hs Hr Hsz.
  assert (Hok : rx_ok (ReceiveBytes r)) by (by split).
  destruct (bytes_arrive_spec (wire_of f) (ReceiveBytes r) Hok) as [[Hwf' _] Hc].
  cbn [ReceiveBytes rx_ring] in Hc.
  replace (Z.to_nat _) with 0%nat in Hc by lia. rewrite drop_0 in Hc.
  destruct (GetFrame_wire _ (contents (rx_ring r)) [] f Hwf') as (rx' & ev & Hget & Hrest & _);
    try done.
  - by rewrite app_nil_r.
  - eauto.
Qed.

(** The frame (7 -> 100, "ON") arrives at an empty ring of sixteen places
    whose cursors are at place 10. *)
Lemma arrived_frame_is_extracted_witness :
  let r : Receiver 16 := mkReceiver (mkCircularBuffer 10 10 (replicate 16 0)) None in
  let f := mkFrame 7 100 (mkStaticVec [79; 78]) in
  exists (rx' : CircularBuffer 16) (events : list Event),
    GetFrame (rx_ring (bytes_arrive (wire_of f) (ReceiveBytes r)))
    = Some (Some f, rx', events)
    /\ contents rx' = [].
Proof.
  intros r f. apply (arrived_frame_is_extracted 16 r f).
  - unfold cb_wf. vm_compute. intuition congruence.
  - vm_compute. constructor.
  - vm_compute. congruence.
  - vm_compute. intuition congruence.
  - vm_compute. intuition congruence.
  - vm_compute. congruence.
Defined.

(** What [HandleFrame] sends for a request addressed to this node. *)
Lemma HandleFrame_answers (w : World) (frame : Frame) (cmd : ParsedCommand) :
  is_byte (sender frame) -> world_ok w ->
  receiver frame = LOCAL_ID ->
  ParseCommands (span (data frame)) = Some cmd ->
  ~ handler_undefined cmd ->
  exists w' ret wire,
    ExecuteCommand w cmd [] = Done (w', ret)
    /\ HandleFrame w frame = Done (w', [wire])
    /\ forall target,
         deserialize_from target wire
         = Some (DeserializeOk,
                 mkFrame LOCAL_ID (sender frame)
                   (mkStaticVec (take (Z.to_nat FRAME_DATA_MAX_SIZE) ret))).
Proof.
  intros Hs Hok Hrecv Hparse Hnz. unfold HandleFrame.
  rewrite Hrecv, Z.eqb_refl, Hparse. cbn [negb].
  destruct (ExecuteCommand_completes w cmd [] Hok Hnz) as (w' & ret & Hex).
  destruct (SendData_sends (sender frame) ret Hs) as (wire & Hsend & Hwire).
  exists w', ret, wire. rewrite Hex. cbn [mbind Exec_bind]. by rewrite Hsend.
Qed.

(** X18.  The command loop end to end: when the receive buffer holds one
    encoded request addressed to this node whose payload holds a command
    the handlers run to completion on, [HandlePendingCommands] returns,
    leaves the buffer empty, leaves the device in the state the command
    leads to, and has sent exactly one frame, from this node to the sender
    of the request, carrying the answer of the command. *)
Theorem HandlePendingCommands_answers_request (SIZE : Z) (n : Node SIZE)
    (f : Frame) (cmd : ParsedCommand) :
  cb_wf (gRxBuffer n) ->
  contents (gRxBuffer n) = wire_of f ->
  is_byte (sender f) -> receiver f = LOCAL_ID ->
  size (data f) <= FRAME_DATA_MAX_SIZE ->
  world_ok (world n) ->
  ParseCommands (span (data f)) = Some cmd ->
  ~ handler_undefined cmd ->
  exists (w' : World) (ret wire : list Z) (rx' : CircularBuffer SIZE),
    ExecuteCommand (world n) cmd [] = Done (w', ret)
    /\ HandlePendingCommands n = Some (Done (mkNode rx' w' (sent n ++ [wire])))
    /\ contents rx' = []
    /\ forall target,
         deserialize_from target wire
         = Some (DeserializeOk,
                 mkFrame LOCAL_ID (sender f)
                   (mkStaticVec (take (Z.to_nat FRAME_DATA_MAX_SIZE) ret))).
Proof.
  intros Hwf Hc Hs Hrecv Hsz Hok Hparse Hnz.
  assert (Hr : is_byte (receiver f)) by (rewrite Hrecv; vm_compute; intuition congruence).
  destruct (GetFrame_wire (gRxBuffer n) [] [] f Hwf) as (rx1 & ev & Hget & Hrest & _ & _ & Hwf1);
    try done.
  { by rewrite app_nil_r. }
  destruct (HandleFrame_answers (world n) f cmd Hs Hok Hrecv Hparse Hnz)
    as (w' & ret & wire & Hex & Hhf & Hwire).
  assert (Hu1 : used rx1 = 0).
  { pose proof (contents_length rx1 Hwf1) as Hl. rewrite Hrest in Hl. by rewrite <- Hl. }
  destruct (GetFrame_noise rx1 Hwf1) as (mid & Hget2 & _); [intros i Hi; lia|].
  assert (HS : (1 <= Z.to_nat SIZE)%nat).
  { pose proof (used_below_capacity _ Hwf) as Hub.
    pose proof (contents_length _ Hwf) as Hl. rewrite Hc in Hl.
    pose proof (wire_of_length f). pose proof (size_nonneg (data f)). lia. }
  exists w', ret, wire, (set_tail rx1 (head rx1)).
  split; [done|]. split; [|split; [|done]].
  - unfold HandlePendingCommands.
    rewrite (HandlePendingCommands_loop_step _ n f rx1 ev w' [wire] Hget Hhf).
    destruct (Z.to_nat SIZE) as [|turns]; [lia|].
    cbn [HandlePendingCommands_loop gRxBuffer world sent]. by rewrite Hget2.
  - pose proof (used_zero_iff rx1 Hwf1) as Hz. apply Hz in Hu1.
    rewrite Hu1, set_tail_id. exact Hrest.
Qed.

(** The request [SET_FREQ 100] from node 7 in a ring of thirty-two places. *)
Lemma HandlePendingCommands_answers_request_witness :
  let rx : CircularBuffer 32 :=
    mkCircularBuffer 0 22
      (wire_of (mkFrame 7 LOCAL_ID (mkStaticVec (bytes_of_string "SET_FREQ 100")))
       ++ replicate 10 0) in
  let n := mkNode rx (mkWorld gDeviceState_init (mkHardware 42000000 999 0 true None)) [] in
  exists (w' : World) (ret wire : list Z) (rx' : CircularBuffer 32),
    ExecuteCommand (world n) [bytes_of_string "SET_FREQ"; bytes_of_string "100"] []
    = Done (w', ret)
    /\ HandlePendingCommands n = Some (Done (mkNode rx' w' (sent n ++ [wire])))
    /\ contents rx' = []
    /\ forall target,
         deserialize_from target wire
         = Some (DeserializeOk,
                 mkFrame LOCAL_ID 7 (mkStaticVec (take (Z.to_nat FRAME_DATA_MAX_SIZE) ret))).
Proof.
  intros rx n.
  apply (HandlePendingCommands_answers_request 32 n
           (mkFrame 7 LOCAL_ID (mkStaticVec (bytes_of_string "SET_FREQ 100")))).
  - unfold cb_wf. vm_compute. intuition congruence.
  - vm_compute. reflexivity.
  - vm_compute. intuition congruence.
  - reflexivity.
  - vm_compute. congruence.
  - split; [vm_compute; congruence | cbn; lia].
  - vm_compute. reflexivity.
  - intros [(_ & _ & [Hz|Hz]) | (Hn & _)]; vm_compute in *; congruence.
Defined.

(** ** command_handler.cpp: [Split] and [ParseCommands] *)

Lemma Split_from_not_nil (s : list Z) (delim : Z) (chunk : list Z) :
  Split_from s delim chunk <> [].
Proof.
  revert chunk. induction s as [|c s IH]; intros chunk; cbn [Split_from]; [done|].
  destruct (c =? delim); [done | apply IH].
Qed.

Lemma Split_from_join (s : list Z) (delim : Z) :
  forall chunk, join delim (Split_from s delim chunk) = chunk ++ s.
Proof.
  induction s as [|c s IH]; intros chunk; cbn [Split_from].
  - cbn. by rewrite app_nil_r.
  - destruct (Z.eqb_spec c delim) as [->|Hne].
    + cbn [join]. pose proof (Split_from_not_nil s delim []) as Hnn.
      destruct (Split_from s delim []) as [|c0 rest] eqn:Hs; [done|].
      rewrite <- Hs, IH. done.
    + rewrite IH. by rewrite <- app_assoc.
Qed.

Lemma Split_from_no_delim (s : list Z) (delim : Z) :
  forall chunk,
    delim ∉ chunk ->
    Forall (fun chunk => delim ∉ chunk) (Split_from s delim chunk).
Proof.
  induction s as [|c s IH]; intros chunk Hchunk; cbn [Split_from].
  - by constructor.
  - destruct (Z.eqb_spec c delim) as [->|Hne].
    + constructor; [done|]. apply IH. apply not_elem_of_nil.
    + apply IH. rewrite elem_of_app, list_elem_of_singleton. intros [?|?]; congruence.
Qed.

Lemma Split_from_length (s : list Z) (delim : Z) :
  forall chunk,
    length (Split_from s delim chunk) = S (length (filter (fun c => c = delim) s)).
Proof.
  induction s as [|c s IH]; intros chunk; cbn [Split_from]; [done|].
  rewrite filter_cons. destruct (Z.eqb_spec c delim) as [->|Hne].
  - rewrite decide_True by done. cbn [length]. by rewrite IH.
  - rewrite decide_False by done. apply IH.
Qed.

(** X19.  [Split] cuts at every delimiter and nowhere else: no chunk holds
    the delimiter, there is one chunk more than there are delimiters (so at
    least one, also for an empty input), and the chunks joined by the
    delimiter are the input again. *)
Theorem Split_cuts_at_delimiters (s : list Z) (delim : Z) :
  join delim (Split s delim) = s
  /\ Forall (fun chunk => delim ∉ chunk) (Split s delim)
  /\ length (Split s delim) = S (length (filter (fun c => c = delim) s)).
Proof.
  unfold Split. split; [apply (Split_from_join s delim [])|].
  split; [apply Split_from_no_delim, not_elem_of_nil | apply Split_from_length].
Qed.

Lemma Split_from_concat (s : list Z) (delim : Z) :
  forall chunk,
    concat (Split_from s delim chunk) = chunk ++ filter (fun c => c <> delim) s.
Proof.
  induction s as [|c s IH]; intros chunk; cbn [Split_from].
  - rewrite filter_nil. cbn. by rewrite !app_nil_r.
  - rewrite filter_cons. destruct (Z.eqb_spec c delim) as [->|Hne].
    + rewrite decide_False by tauto. cbn [concat]. by rewrite IH.
    + rewrite decide_True by done. rewrite IH. by rewrite <- app_assoc.
Qed.

Lemma concat_filter_nonempty (chunks : list (list Z)) :
  concat (filter (fun arg => lsize arg > 0) chunks) = concat chunks.
Proof.
  induction chunks as [|c chunks IH]; [done|].
  rewrite filter_cons. destruct c as [|x c].
  - rewrite decide_False by (unfold lsize; cbn; lia). by rewrite IH.
  - rewrite decide_True by (unfold lsize; cbn; lia). cbn [concat]. by rewrite IH.
Qed.

(** X20.  [ParseCommands] returns nothing exactly for a payload made of
    spaces only (the empty one included); otherwise it returns at least one
    token, every token is non-empty and holds no space, and the tokens put
    end to end are the payload without its spaces: nothing but spaces is
    dropped and the order is kept. *)
Theorem ParseCommands_tokens (payload : list Z) :
  match ParseCommands payload with
  | None => Forall (fun c => c = 32) payload
  | Some cmd =>
      cmd <> []
      /\ Forall (fun token => token <> [] /\ 32 ∉ token) cmd
      /\ concat cmd = filter (fun c => c <> 32) payload
      /\ ~ Forall (fun c => c = 32) payload
  end.
Proof.
  pose proof (ParseCommands_None_iff payload) as Hnone.
  destruct (ParseCommands payload) as [cmd|] eqn:Hp; [|by apply Hnone].
  unfold ParseCommands in Hp.
  destruct (Z.gtb_spec (lsize (filter (fun arg => lsize arg > 0) (Split payload 32))) 0)
    as [Hpos|]; [|discriminate].
  injection Hp as <-.
  split; [intros Hnil; rewrite Hnil in Hpos; unfold lsize in Hpos; cbn in Hpos; lia|].
  split; [|split].
  - apply list.Forall_forall. intros token [Hne Hin]%list_elem_of_filter. split.
    + intros ->. unfold lsize in Hne. cbn in Hne. lia.
    + pose proof (Split_from_no_delim payload 32 [] (not_elem_of_nil _)) as Hall.
      rewrite list.Forall_forall in Hall. by apply Hall.
  - rewrite concat_filter_nonempty. apply (Split_from_concat payload 32 []).
  - intros Hall. apply Hnone in Hall. discriminate.
Qed.

(** ** command_handler.cpp: dispatch *)

(** X21.  [ExecuteCommand] looks the first token up in the table, compares
    byte for byte, and checks the number of arguments before it calls the
    handler: for an empty token list and for a name that is not in the
    table it writes UNKNOWN_COMMAND; for a name of the table with fewer
    arguments than [minArgs] or more than [maxArgs] it writes
    INVALID_ARGUMENT; in these cases no handler runs and the device state
    is untouched.  Otherwise it is the handler of that name that runs, on
    all the tokens. *)
Theorem ExecuteCommand_dispatch (w : World) (cmd : ParsedCommand) (ret : bytes) :
  (cmd = [] -> ExecuteCommand w cmd ret = Done (w, ret ++ chars kUnknownCommand))
  /\ (cmd <> [] ->
      Forall (fun h => chars (commandName h) <> cmd !!! 0%nat) kCommandHandlers ->
      ExecuteCommand w cmd ret = Done (w, ret ++ chars kUnknownCommand))
  /\ (forall h,
        cmd <> [] -> h ∈ kCommandHandlers -> chars (commandName h) = cmd !!! 0%nat ->
        ExecuteCommand w cmd ret
        = if (minArgs h <=? lsize cmd - 1) && (lsize cmd - 1 <=? maxArgs h)
          then callback h w ret cmd
          else Done (w, ret ++ chars kInvalidArgument)).
Proof.
  assert (Hsz : cmd <> [] -> (lsize cmd =? 0) = false).
  { intros Hne. apply Z.eqb_neq. destruct cmd; [done | unfold lsize; cbn; lia]. }
  split; [by intros ->|]. split.
  - intros Hne Hall. unfold ExecuteCommand. rewrite (Hsz Hne).
    unfold kCommandHandlers in *. cbn [find commandName chars].
    repeat (apply Forall_cons_1 in Hall as [? Hall]); cbn [commandName chars] in *.
    repeat (case_bool_decide; [done|]). reflexivity.
  - intros h Hne Hin Hname. unfold ExecuteCommand. rewrite (Hsz Hne), <- Hname.
    unfold kCommandHandlers in *.
    repeat (apply elem_of_cons in Hin as [-> | Hin]); [..|by apply elem_of_nil in Hin];
      cbn [find commandName chars]; repeat (case_bool_decide; [discriminate|]);
      (case_bool_decide; [|done]); cbn [minArgs maxArgs callback];
      rewrite (Z.geb_leb _ (lsize cmd - 1));
      by destruct (_ && _).
Qed.

(** ** commands.cpp: numbers read from arguments *)

Lemma decimal_value_nonneg (digits : list Z) :
  Forall (fun c => is_digit c = true) digits -> 0 <= decimal_value digits.
Proof.
  unfold decimal_value. intros H.
  assert (Hgen : forall acc, 0 <= acc ->
             0 <= fold_left (fun acc c => 10 * acc + (c - 48)) digits acc).
  { induction H as [|c digits Hc _ IH]; intros acc Hacc; cbn [fold_left]; [done|].
    apply IH. unfold is_digit in Hc. apply andb_true_iff in Hc as [H1 H2]. lia. }
  by apply Hgen.
Qed.

Lemma digit_prefix_digits (s : list Z) : Forall (fun c => is_digit c = true) (digit_prefix s).
Proof.
  induction s as [|c s IH]; cbn [digit_prefix]; [constructor|].
  destruct (is_digit c) eqn:Hc; by constructor.
Qed.

Lemma parse_u32_range (arg : bytes_view) (v : Z) :
  parse_u32 arg = Some v -> 0 <= v < 2 ^ 32.
Proof.
  unfold parse_u32, from_chars.
  pose proof (decimal_value_nonneg _ (digit_prefix_digits arg)) as Hnn.
  destruct (lsize (digit_prefix arg) =? 0); cbn [errc_is_ok negb orb]; [discriminate|].
  destruct (Z.gtb_spec (decimal_value (digit_prefix arg)) 0xFFFFFFFF);
    cbn [errc_is_ok negb orb]; [discriminate|].
  destruct (negb _); [discriminate|]. intros [= <-]. lia.
Qed.

Lemma mapM_parse_u32_range (args : list bytes_view) (params : list Z) :
  mapM parse_u32 args = Some params -> Forall (fun v => 0 <= v < 2 ^ 32) params.
Proof.
  intros H. apply mapM_Some in H.
  induction H as [|arg v args params Hv _ IH]; constructor; [|done].
  by eapply parse_u32_range.
Qed.

(** ** commands.cpp: [CmdSetDutyCycles] when every value is in range *)

Lemma SetDutyCycles_any_of_false (params : list Z) (arr : Z) :
  forall user duty,
    Forall (fun v => 0 <= v <= 100) params ->
    0 <= arr < 2 ^ 32 ->
    SetDutyCycles_any_of params arr user duty
    = (false, user ++ params, duty ++ map (scaled arr) params).
Proof.
  induction params as [|v params IH]; intros user duty Hall Harr;
    cbn [SetDutyCycles_any_of map].
  - by rewrite !app_nil_r.
  - apply Forall_cons_1 in Hall as [Hv Hall].
    destruct (Z.ltb_spec v 0); [lia|]. destruct (Z.gtb_spec v 100); [lia|].
    cbn [orb]. rewrite IH by done.
    rewrite (Z.mod_small v 256) by lia.
    assert (Hs : u32 (v * arr / 100) = scaled arr v).
    { unfold u32, scaled. apply Z.mod_small. split.
      - apply Z.div_pos; nia.
      - apply Z.div_lt_upper_bound; nia. }
    rewrite Hs. by rewrite <- !app_assoc.
Qed.

Lemma echo_arguments (args : list bytes_view) :
  forall ret : bytes,
    fold_left (fun ret param => (ret ++ [32]) ++ param) args ret
    = ret ++ concat (map (fun param => 32 :: param) args).
Proof.
  induction args as [|a args IH]; intros ret; cbn [fold_left map concat].
  - by rewrite app_nil_r.
  - rewrite IH. by rewrite <- !app_assoc.
Qed.

(** X22.  [CmdSetDutyCycles] with arguments that all read as numbers from 0
    to 100: the stored percentages become these numbers, the stored raw
    duty cycles become the percentages scaled by the current period
    ([ARR + 1]), generation stays on or off as it was, and when it is on the
    DMA transfer is restarted on the new duty cycles.  The answer is
    DUTY_CYCLES_CHANGED followed by the arguments as they were written. *)
Theorem CmdSetDutyCycles_accepts (w : World) (ret : bytes) (args : list bytes_view)
    (params : list Z) :
  mapM parse_u32 (drop 1 args) = Some params ->
  Forall (fun v => v <= 100) params ->
  exists w',
    CmdSetDutyCycles w ret args
    = Done (w', ret ++ kDutyCyclesChanged
                ++ concat (map (fun param => 32 :: param) (drop 1 args)))
    /\ userDutyCycles (gDeviceState w') = params
    /\ dutyCycles (gDeviceState w') = map (scaled (u32 (ARR (htim2 w) + 1))) params
    /\ isPwmGenerated (gDeviceState w') = isPwmGenerated (gDeviceState w)
    /\ ARR (htim2 w') = ARR (htim2 w)
    /\ pwm_dma (htim2 w')
       = if isPwmGenerated (gDeviceState w)
         then Some (dutyCycles (gDeviceState w')) else pwm_dma (htim2 w).
Proof.
  intros Hp Hle. pose proof (mapM_parse_u32_range _ _ Hp) as Hrange.
  assert (Hall : Forall (fun v => 0 <= v <= 100) params).
  { rewrite list.Forall_forall in *. intros v Hv.
    specialize (Hle v Hv). specialize (Hrange v Hv). cbn in *. lia. }
  unfold CmdSetDutyCycles.
  rewrite SetDutyCycles_parse_mapM, Hp. cbn [fmap option_fmap option_map app].
  rewrite SetDutyCycles_any_of_false;
    [|done|unfold u32; apply Z.mod_pos_bound; lia].
  cbn [negb app]. rewrite Printf_cstring. cbn [mbind Exec_bind].
  rewrite echo_arguments, <- app_assoc.
  destruct (isPwmGenerated (gDeviceState w)) eqn:Hgen;
    eexists; (split; [reflexivity|]); cbn; by rewrite ?Hgen.
Qed.

(** [SET_DUTY_CYCLES 25 100] while 50% is generated with a period of 1000. *)
Lemma CmdSetDutyCycles_accepts_witness :
  let w := mkWorld (mkDeviceState [500] [50] true)
             (mkHardware 42000000 999 0 true (Some [500])) in
  let args := [bytes_of_string "SET_DUTY_CYCLES"; bytes_of_string "25";
               bytes_of_string "100"] in
  exists w',
    CmdSetDutyCycles w [] args
    = Done (w', [] ++ kDutyCyclesChanged
                ++ concat (map (fun param => 32 :: param) (drop 1 args)))
    /\ userDutyCycles (gDeviceState w') = [25; 100]
    /\ dutyCycles (gDeviceState w') = map (scaled (u32 (ARR (htim2 w) + 1))) [25; 100]
    /\ isPwmGenerated (gDeviceState w') = isPwmGenerated (gDeviceState w)
    /\ ARR (htim2 w') = ARR (htim2 w)
    /\ pwm_dma (htim2 w')
       = if isPwmGenerated (gDeviceState w)
         then Some (dutyCycles (gDeviceState w')) else pwm_dma (htim2 w).
Proof.
  intros w args. apply (CmdSetDutyCycles_accepts w [] args [25; 100]).
  - vm_compute. reflexivity.
  - repeat constructor; lia.
Defined.

(** ** commands.cpp: [CmdSetFreq] on a frequency that can be set *)

(** The rescaling loop in closed form. *)
Lemma SetFreq_rescale_result (user : list Z) (arr : Z) :
  forall (i : nat) (duty : list Z),
    (i + length user <= length duty)%nat ->
    SetFreq_rescale user i arr duty
    = Done (take i duty ++ map (fun u => u32 (scaled arr u)) user
            ++ drop (i + length user) duty).
Proof.
  induction user as [|u user IH]; intros i duty Hlen; cbn [SetFreq_rescale map length].
  - cbn [app]. by rewrite Nat.add_0_r, take_drop.
  - cbn [length] in Hlen.
    destruct (Nat.ltb_spec i (length duty)) as [Hi|]; [|lia].
    rewrite IH by (rewrite length_insert; lia).
    f_equal.
    rewrite (take_S_r (<[i:=u32 (u * arr / 100)]> duty) i (u32 (u * arr / 100)))
      by (by apply list_lookup_insert_eq).
    rewrite take_insert_ge by lia.
    rewrite drop_insert_lt by lia.
    rewrite <- app_assoc. cbn [app]. unfold scaled.
    by replace (S i + length user)%nat with (i + S (length user))%nat by lia.
Qed.

Lemma TIMER_FREQ_range (w : World) : 0 <= TIMER_FREQ w < 2 ^ 32.
Proof. unfold TIMER_FREQ, u32. apply Z.mod_pos_bound. lia. Qed.

(** What [CmdSetFreq] does with an argument that reads as [v]. *)
Lemma CmdSetFreq_cases (w : World) (ret : bytes) (args : list bytes_view) (v : Z) :
  parse_u32 (args !!! 1%nat) = Some v ->
  (length (userDutyCycles (gDeviceState w)) <= length (dutyCycles (gDeviceState w)))%nat ->
  let arr := TIMER_FREQ w / v in
  let duty := map (fun u => u32 (scaled arr u)) (userDutyCycles (gDeviceState w))
              ++ drop (length (userDutyCycles (gDeviceState w)))
                   (dutyCycles (gDeviceState w)) in
  CmdSetFreq w ret args
  = if v =? 0 then Faulted DivideByZero
    else if TIMER_FREQ w <? v then Done (w, ret ++ kInvalidFrequency)
    else Done (mkWorld
                 (mkDeviceState duty (userDutyCycles (gDeviceState w))
                    (isPwmGenerated (gDeviceState w)))
                 (mkHardware (PCLK1Freq (htim2 w)) (arr - 1) 0 true
                    (if isPwmGenerated (gDeviceState w) then Some duty
                     else pwm_dma (htim2 w))),
               ret ++ kFreqChanged ++ 32 :: format_d v).
Proof.
  intros Hp Hlen arr duty. pose proof (parse_u32_range _ _ Hp) as Hv.
  pose proof (TIMER_FREQ_range w) as Ht.
  unfold CmdSetFreq, parse_u32 in *.
  destruct (from_chars (args !!! 1%nat) 0) as [[ptr ec] value].
  destruct (negb (errc_is_ok ec) || negb (ptr =? lsize (args !!! 1%nat))); [discriminate|].
  injection Hp as ->. unfold udiv32.
  destruct (Z.eqb_spec v 0) as [|Hnz]; [done|]. cbn [mbind Exec_bind].
  fold arr.
  destruct (Z.ltb_spec (TIMER_FREQ w) v) as [Hhigh|Hlow].
  - assert (Harr : arr = 0) by (apply Z.div_small; lia).
    rewrite Harr. cbn [Z.eqb orb]. rewrite Printf_cstring. done.
  - assert (Harr : 1 <= arr < 2 ^ 32).
    { unfold arr. split.
      - apply Z.div_le_lower_bound; lia.
      - apply Z.div_lt_upper_bound; nia. }
    destruct (Z.eqb_spec arr 0) as [|_]; [lia|]. cbn [orb].
    assert (Hu : u32 (arr - 1) = arr - 1) by (unfold u32; apply Z.mod_small; lia).
    destruct (isPwmGenerated (gDeviceState w)) eqn:Hgen.
    + cbn [SetArr StopPWM gDeviceState htim2 set_isPwmGenerated userDutyCycles
           dutyCycles PCLK1Freq pwm_dma].
      rewrite SetFreq_rescale_result by (cbn [Nat.add]; lia).
      cbn [mbind Exec_bind take app Nat.add]. rewrite Printf_cstring_d.
      cbn [mbind Exec_bind]. rewrite Hu. reflexivity.
    + cbn [SetArr gDeviceState htim2 PCLK1Freq pwm_dma].
      rewrite SetFreq_rescale_result by (cbn [Nat.add]; lia).
      cbn [mbind Exec_bind take app Nat.add]. rewrite Printf_cstring_d.
      cbn [mbind Exec_bind]. rewrite Hu.
      unfold set_dutyCycles. cbn [userDutyCycles isPwmGenerated]. by rewrite Hgen.
Qed.

(** X23.  A frequency above the timer clock cannot be set: the period it
    asks for is zero, [CmdSetFreq] answers INVALID_FREQUENCY and changes
    nothing. *)
Theorem CmdSetFreq_rejects_above_timer_clock (w : World) (ret : bytes)
    (name arg : bytes_view) (v : Z) :
  parse_u32 arg = Some v ->
  TIMER_FREQ w < v ->
  CmdSetFreq w ret [name; arg] = Done (w, ret ++ kInvalidFrequency).
Proof.
  intros Hp Hhigh. pose proof (TIMER_FREQ_range w) as Ht.
  unfold CmdSetFreq, parse_u32 in *.
  change ([name; arg] !!! 1%nat) with arg.
  destruct (from_chars arg 0) as [[ptr ec] value].
  destruct (negb (errc_is_ok ec) || negb (ptr =? lsize arg)); [discriminate|].
  injection Hp as ->. unfold udiv32.
  destruct (Z.eqb_spec v 0) as [|Hnz]; [lia|]. cbn [mbind Exec_bind].
  rewrite Z.div_small by lia. cbn [Z.eqb orb]. by rewrite Printf_cstring.
Qed.

(** [SET_FREQ 84000001] with a timer clock of 84 MHz. *)
Lemma CmdSetFreq_rejects_above_timer_clock_witness :
  let w := mkWorld gDeviceState_init (mkHardware 42000000 999 0 true None) in
  CmdSetFreq w [] [bytes_of_string "SET_FREQ"; bytes_of_string "84000001"]
  = Done (w, [] ++ kInvalidFrequency).
Proof.
  intros w.
  apply (CmdSetFreq_rejects_above_timer_clock w [] _ _ 84000001).
  - vm_compute. reflexivity.
  - vm_compute. reflexivity.
Defined.

(** X24.  A frequency from 1 to the timer clock is set: the period register
    becomes [TIMER_FREQ / v - 1] and the counter is cleared, every stored
    raw duty cycle that has a percentage is recomputed from its percentage
    and the new period, the percentages and the on/off state are kept, and
    when generation is on the DMA transfer is restarted on the new duty
    cycles.  The answer is FREQ_CHANGED followed by the value. *)
Theorem CmdSetFreq_accepts (w : World) (ret : bytes) (name arg : bytes_view) (v : Z) :
  parse_u32 arg = Some v ->
  0 < v <= TIMER_FREQ w ->
  (length (userDutyCycles (gDeviceState w)) <= length (dutyCycles (gDeviceState w)))%nat ->
  exists w',
    CmdSetFreq w ret [name; arg] = Done (w', ret ++ kFreqChanged ++ 32 :: format_d v)
    /\ ARR (htim2 w') = TIMER_FREQ w / v - 1
    /\ CNT (htim2 w') = 0
    /\ userDutyCycles (gDeviceState w') = userDutyCycles (gDeviceState w)
    /\ dutyCycles (gDeviceState w')
       = map (fun u => u32 (scaled (TIMER_FREQ w / v) u)) (userDutyCycles (gDeviceState w))
         ++ drop (length (userDutyCycles (gDeviceState w))) (dutyCycles (gDeviceState w))
    /\ isPwmGenerated (gDeviceState w') = isPwmGenerated (gDeviceState w)
    /\ pwm_dma (htim2 w')
       = if isPwmGenerated (gDeviceState w)
         then Some (dutyCycles (gDeviceState w')) else pwm_dma (htim2 w).
Proof.
  intros Hp Hv Hlen.
  rewrite (CmdSetFreq_cases w ret [name; arg] v Hp Hlen).
  destruct (Z.eqb_spec v 0); [lia|]. destruct (Z.ltb_spec (TIMER_FREQ w) v); [lia|].
  eexists. split; [reflexivity|]. cbn [htim2 gDeviceState ARR CNT userDutyCycles
    dutyCycles isPwmGenerated pwm_dma]. done.
Qed.

(** [SET_FREQ 1000] while 50% and 25% are generated at 84 kHz. *)
Lemma CmdSetFreq_accepts_witness :
  let w := mkWorld (mkDeviceState [500; 250] [50; 25] true)
             (mkHardware 42000000 999 0 true (Some [500; 250])) in
  exists w',
    CmdSetFreq w [] [bytes_of_string "SET_FREQ"; bytes_of_string "1000"]
    = Done (w', [] ++ kFreqChanged ++ 32 :: format_d 1000)
    /\ ARR (htim2 w') = TIMER_FREQ w / 1000 - 1
    /\ CNT (htim2 w') = 0
    /\ userDutyCycles (gDeviceState w') = userDutyCycles (gDeviceState w)
    /\ dutyCycles (gDeviceState w')
       = map (fun u => u32 (scaled (TIMER_FREQ w / 1000) u)) (userDutyCycles (gDeviceState w))
         ++ drop (length (userDutyCycles (gDeviceState w))) (dutyCycles (gDeviceState w))
    /\ isPwmGenerated (gDeviceState w') = isPwmGenerated (gDeviceState w)
    /\ pwm_dma (htim2 w')
       = if isPwmGenerated (gDeviceState w)
         then Some (dutyCycles (gDeviceState w')) else pwm_dma (htim2 w).
Proof.
  intros w.
  apply (CmdSetFreq_accepts w [] _ _ 1000).
  - vm_compute. reflexivity.
  - vm_compute. intuition congruence.
  - cbn. lia.
Defined.

(** ** commands.cpp: what every handler keeps *)

Lemma ExecuteCommand_cases (w : World) (cmd : ParsedCommand) (ret : bytes) :
  (exists r, ExecuteCommand w cmd ret = Done (w, r))
  \/ (exists h,
        h ∈ kCommandHandlers /\ minArgs h <= lsize cmd - 1 <= maxArgs h
        /\ ExecuteCommand w cmd ret = callback h w ret cmd).
Proof.
  unfold ExecuteCommand.
  destruct (lsize cmd =? 0); [eauto|].
  assert (Hpick : forall h : CommandHandler,
             h ∈ kCommandHandlers ->
             (exists r, (if negb ((minArgs h <=? lsize cmd - 1)
                                  && (maxArgs h >=? lsize cmd - 1))
                         then Done (w, WRITE_EC ret kInvalidArgument)
                         else callback h w ret cmd) = Done (w, r))
             \/ (exists h0,
                   h0 ∈ kCommandHandlers /\ minArgs h0 <= lsize cmd - 1 <= maxArgs h0
                   /\ (if negb ((minArgs h <=? lsize cmd - 1)
                                && (maxArgs h >=? lsize cmd - 1))
                       then Done (w, WRITE_EC ret kInvalidArgument)
                       else callback h w ret cmd) = callback h0 w ret cmd)).
  { intros h Hin. destruct (negb _) eqn:Har; [eauto|].
    apply negb_false_iff, andb_true_iff in Har as [Hmin Hmax].
    right. exists h. split; [done|]. split; [lia | done]. }
  destruct (find _ kCommandHandlers) as [h|] eqn:Hfind; [|eauto].
  apply Hpick. apply find_some in Hfind as [Hin _]. by apply list_elem_of_In.
Qed.

Lemma SetDutyCycles_any_of_lengths (params : list Z) (arr : Z) :
  forall user duty b user' duty',
    SetDutyCycles_any_of params arr user duty = (b, user', duty') ->
    (length user' + length duty = length duty' + length user)%nat.
Proof.
  induction params as [|v params IH]; intros user duty b user' duty';
    cbn [SetDutyCycles_any_of].
  - intros [= _ <- <-]. lia.
  - destruct (_ || _).
    + intros [= _ <- <-]. rewrite !length_app. cbn. lia.
    + intros H. apply IH in H. rewrite !length_app in H. cbn in H. lia.
Qed.

Lemma CmdSetDutyCycles_keeps (w w' : World) (ret ret' : bytes) (args : list bytes_view) :
  world_ok w -> pwm_consistent w ->
  CmdSetDutyCycles w ret args = Done (w', ret') ->
  world_ok w' /\ pwm_consistent w'.
Proof.
  intros [Harr Hlen] Hpwm. unfold CmdSetDutyCycles.
  destruct (SetDutyCycles_parse _ _) as [params|]; [|discriminate].
  destruct (SetDutyCycles_any_of _ _ _ _) as [[invalid user] duty] eqn:Hany.
  apply SetDutyCycles_any_of_lengths in Hany. cbn [length] in Hany.
  destruct invalid; cbn [negb]; rewrite Printf_cstring; cbn [mbind Exec_bind].
  - by intros [= <- _].
  - intros [= <- _]. unfold world_ok, pwm_consistent in *.
    destruct (isPwmGenerated (gDeviceState w)) eqn:Hgen; cbn in *;
      rewrite ?Hgen; (split; [split; [done | lia] | done]).
Qed.

Lemma CmdSetFreq_keeps (w w' : World) (ret ret' : bytes) (name arg : bytes_view) :
  world_ok w -> pwm_consistent w ->
  CmdSetFreq w ret [name; arg] = Done (w', ret') ->
  world_ok w' /\ pwm_consistent w'.
Proof.
  intros [Harr Hlen] Hpwm.
  destruct (parse_u32 arg) as [v|] eqn:Hp;
    [|by rewrite (CmdSetFreq_unreadable w ret name arg Hp)].
  pose proof (parse_u32_range _ _ Hp) as Hv.
  pose proof (TIMER_FREQ_range w) as Ht.
  rewrite (CmdSetFreq_cases w ret [name; arg] v Hp Hlen).
  destruct (Z.eqb_spec v 0); [discriminate|].
  destruct (Z.ltb_spec (TIMER_FREQ w) v); [by intros [= <- _]|].
  intros [= <- _]. unfold world_ok, pwm_consistent in *.
  cbn [htim2 gDeviceState ARR userDutyCycles dutyCycles isPwmGenerated pwm_dma].
  assert (H1 : 1 <= TIMER_FREQ w / v < 2 ^ 32).
  { split; [apply Z.div_le_lower_bound; lia | apply Z.div_lt_upper_bound; nia]. }
  split; [split|].
  - replace (TIMER_FREQ w / v - 1 + 1) with (TIMER_FREQ w / v) by lia.
    unfold u32. rewrite Z.mod_small by lia. lia.
  - rewrite length_app, length_map, length_drop. lia.
  - destruct (isPwmGenerated (gDeviceState w)); [done|]. by rewrite Hpwm.
Qed.

(** X25.  Every command keeps the device consistent: if the period register
    is usable, every stored percentage has a raw duty cycle, and the DMA
    transfer runs exactly when generation is on and on the stored duty
    cycles, then the same holds after [ExecuteCommand], whatever the command
    and its arguments, and after the callback that ends a pulse train.  In
    particular the rescaling loop of [CmdSetFreq] never indexes the raw
    duty cycles out of range in a state reached from a consistent one. *)
Theorem commands_keep_device_consistent (w w' : World) (cmd : ParsedCommand)
    (ret ret' : bytes) :
  world_ok w -> pwm_consistent w ->
  (ExecuteCommand w cmd ret = Done (w', ret') -> world_ok w' /\ pwm_consistent w')
  /\ ExecuteCommand w cmd ret <> Faulted IndexOutOfRange
  /\ world_ok (HAL_TIM_PWM_PulseFinishedCallback w)
  /\ pwm_consistent (HAL_TIM_PWM_PulseFinishedCallback w).
Proof.
  intros Hok Hpwm.
  assert (Hcb : world_ok (HAL_TIM_PWM_PulseFinishedCallback w)
                /\ pwm_consistent (HAL_TIM_PWM_PulseFinishedCallback w)).
  { unfold HAL_TIM_PWM_PulseFinishedCallback, world_ok, pwm_consistent in *.
    cbn [gDeviceState htim2].
    destruct (isPwmGenerated (gDeviceState w)) eqn:Hgen; cbn; rewrite ?Hgen; done. }
  split; [|split; [|exact Hcb]].
  - destruct (ExecuteCommand_cases w cmd ret) as [[r Hr] | (h & Hin & Har & Hex)].
    { rewrite Hr. by intros [= <- _]. }
    rewrite Hex. unfold kCommandHandlers in Hin.
    repeat (apply elem_of_cons in Hin as [-> | Hin]); [..|by apply elem_of_nil in Hin];
      cbn [callback minArgs maxArgs] in *.
    + unfold CmdPwmOn. rewrite Printf_cstring. cbn [mbind Exec_bind].
      intros [= <- _]. unfold world_ok, pwm_consistent in *.
      destruct (isPwmGenerated (gDeviceState w)) eqn:Hgen; cbn; rewrite ?Hgen; done.
    + unfold CmdPwmOff. rewrite Printf_cstring. cbn [mbind Exec_bind].
      intros [= <- _]. unfold world_ok, pwm_consistent in *.
      destruct (isPwmGenerated (gDeviceState w)) eqn:Hgen; cbn; rewrite ?Hgen; done.
    + destruct cmd as [|name [|arg [|? ?]]]; try (unfold lsize in Har; cbn in Har; lia).
      by apply CmdSetFreq_keeps.
    + by apply CmdSetDutyCycles_keeps.
    + destruct (CmdStatus_completes w ret cmd Hok) as (w1 & r1 & Hst).
      rewrite Hst. intros [= <- _].
      assert (w1 = w); [|by subst].
      revert Hst. unfold CmdStatus.
      repeat (match goal with
              | |- context [mbind _ ?m] => destruct m; cbn [mbind Exec_bind]; try discriminate
              end).
      by intros [= <- _].
  - destruct (ExecuteCommand_cases w cmd ret) as [[r Hr] | (h & Hin & Har & Hex)];
      [by rewrite Hr|].
    rewrite Hex. unfold kCommandHandlers in Hin.
    repeat (apply elem_of_cons in Hin as [-> | Hin]); [..|by apply elem_of_nil in Hin];
      cbn [callback minArgs maxArgs] in *.
    + unfold CmdPwmOn. by rewrite Printf_cstring.
    + unfold CmdPwmOff. by rewrite Printf_cstring.
    + destruct cmd as [|name [|arg [|? ?]]]; try (unfold lsize in Har; cbn in Har; lia).
      destruct Hok as [_ Hlen].
      destruct (parse_u32 arg) as [v|] eqn:Hp;
        [|by rewrite (CmdSetFreq_unreadable w ret name arg Hp)].
      rewrite (CmdSetFreq_cases w ret [name; arg] v Hp Hlen).
      destruct (v =? 0); [done|]. by destruct (_ <? _).
    + unfold CmdSetDutyCycles.
      destruct (SetDutyCycles_parse _ _); [|done].
      destruct (SetDutyCycles_any_of _ _ _ _) as [[invalid user] duty].
      by destruct invalid; cbn [negb]; rewrite Printf_cstring.
    + destruct (CmdStatus_completes w ret cmd Hok) as (w1 & r1 & Hst). by rewrite Hst.
Qed.

(** The initial device state with a period of 1000, and [SET_FREQ 1000]. *)
Lemma commands_keep_device_consistent_witness :
  let w := mkWorld gDeviceState_init (mkHardware 42000000 999 0 true None) in
  let w' := mkWorld gDeviceState_init (mkHardware 42000000 83999 0 true None) in
  let cmd := [bytes_of_string "SET_FREQ"; bytes_of_string "1000"] in
  (ExecuteCommand w cmd [] = Done (w', bytes_of_string "FREQ_CHANGED 1000") ->
   world_ok w' /\ pwm_consistent w')
  /\ ExecuteCommand w cmd [] <> Faulted IndexOutOfRange
  /\ world_ok (HAL_TIM_PWM_PulseFinishedCallback w)
  /\ pwm_consistent (HAL_TIM_PWM_PulseFinishedCallback w).
Proof.
  intros w w' cmd.
  apply (commands_keep_device_consistent w w' cmd [] (bytes_of_string "FREQ_CHANGED 1000")).
  - split; [vm_compute; congruence | cbn; lia].
  - reflexivity.
Defined.

(** ** commands.cpp: [CmdStatus] *)

Lemma Status_for_each_result (arr : Z) (cnts : list Z) :
  arr <> 0 ->
  forall ret : bytes,
    Status_for_each cnts arr ret
    = Done (ret ++ concat (map (fun cnt => 32 :: format_d (u32 (cnt * 100 / arr))) cnts)).
Proof.
  intros Harr. induction cnts as [|cnt cnts IH]; intros ret;
    cbn [Status_for_each map concat].
  - by rewrite app_nil_r.
  - unfold udiv32. destruct (Z.eqb_spec arr 0); [done|].
    cbn [mbind Exec_bind]. rewrite Printf_sp_d. cbn [mbind Exec_bind].
    rewrite IH. by rewrite <- app_assoc.
Qed.

Lemma CmdStatus_result (w : World) (ret : bytes) (args : list bytes_view) :
  u32 (ARR (htim2 w) + 1) <> 0 ->
  let arr := u32 (ARR (htim2 w) + 1) in
  CmdStatus w ret args
  = Done (w, ret ++ kStatusResp
             ++ [32; 48 + (if isPwmGenerated (gDeviceState w) then 1 else 0)]
             ++ (32 :: format_d (TIMER_FREQ w / arr))
             ++ concat (map (fun cnt => 32 :: format_d (u32 (cnt * 100 / arr)))
                          (dutyCycles (gDeviceState w)))).
Proof.
  intros Harr arr. unfold CmdStatus.
  rewrite Printf_cstring. cbn [mbind Exec_bind].
  rewrite Printf_sp_c. cbn [mbind Exec_bind].
  unfold udiv32 at 1. fold arr. destruct (Z.eqb_spec arr 0); [done|].
  cbn [mbind Exec_bind]. rewrite Printf_sp_d. cbn [mbind Exec_bind].
  rewrite Status_for_each_result by done. cbn [mbind Exec_bind].
  rewrite (Z.mod_small (48 + _) 256) by (destruct (isPwmGenerated _); lia).
  by rewrite <- !app_assoc.
Qed.

(** X26.  [CmdStatus] changes nothing and answers STATUS_RESP, then 1 or 0
    for generation on or off, then the frequency [TIMER_FREQ / (ARR + 1)],
    then one percentage [raw * 100 / (ARR + 1)] for every stored raw duty
    cycle, in order, each preceded by one space. *)
Theorem CmdStatus_reports (w : World) (ret : bytes) (args : list bytes_view) :
  u32 (ARR (htim2 w) + 1) <> 0 ->
  CmdStatus w ret args
  = Done (w, ret ++ kStatusResp
             ++ [32; 48 + (if isPwmGenerated (gDeviceState w) then 1 else 0)]
             ++ (32 :: format_d (TIMER_FREQ w / u32 (ARR (htim2 w) + 1)))
             ++ concat (map (fun cnt =>
                               32 :: format_d (u32 (cnt * 100 / u32 (ARR (htim2 w) + 1))))
                          (dutyCycles (gDeviceState w)))).
Proof. intros Harr. by apply CmdStatus_result. Qed.

(** 50% and 25% generated at 84 kHz: "STATUS_RESP 1 84000 50 25". *)
Lemma CmdStatus_reports_witness :
  let w := mkWorld (mkDeviceState [500; 250] [50; 25] true)
             (mkHardware 42000000 999 0 true (Some [500; 250])) in
  CmdStatus w [] [bytes_of_string "STATUS"]
  = Done (w, [] ++ kStatusResp
             ++ [32; 48 + (if isPwmGenerated (gDeviceState w) then 1 else 0)]
             ++ (32 :: format_d (TIMER_FREQ w / u32 (ARR (htim2 w) + 1)))
             ++ concat (map (fun cnt =>
                               32 :: format_d (u32 (cnt * 100 / u32 (ARR (htim2 w) + 1))))
                          (dutyCycles (gDeviceState w)))).
Proof.
  intros w. apply (CmdStatus_reports w [] [bytes_of_string "STATUS"]).
  vm_compute. congruence.
Defined.

(** A percentage scaled by the period and scaled back. *)
Lemma scaled_back (arr p : Z) :
  0 <= p <= 100 -> 100 <= arr < 2 ^ 32 ->
  p - 1 <= u32 (scaled arr p * 100 / arr) <= p
  /\ (arr mod 100 = 0 -> u32 (scaled arr p * 100 / arr) = p).
Proof.
  intros Hp Harr. unfold scaled.
  assert (Hq : 0 <= p * arr / 100) by (apply Z.div_pos; nia).
  assert (Hle : p * arr / 100 * 100 <= p * arr)
    by (pose proof (Z.mul_div_le (p * arr) 100 ltac:(lia)); lia).
  assert (Hgt : p * arr - 100 < p * arr / 100 * 100).
  { pose proof (Z.mod_pos_bound (p * arr) 100 ltac:(lia)).
    pose proof (Z.div_mod (p * arr) 100 ltac:(lia)). lia. }
  assert (Hup : p * arr / 100 * 100 / arr <= p)
    by (apply Z.div_le_upper_bound; nia).
  assert (Hlo : p - 1 <= p * arr / 100 * 100 / arr)
    by (apply Z.div_le_lower_bound; nia).
  assert (Hnn : 0 <= p * arr / 100 * 100 / arr) by (apply Z.div_pos; nia).
  unfold u32. rewrite Z.mod_small by lia. split; [lia|].
  intros Hdiv. apply Z.div_exact in Hdiv; [|lia].
  replace (p * arr / 100 * 100) with (p * arr).
  - apply Z.div_mul. lia.
  - rewrite Hdiv at 2. rewrite (Z.mul_comm 100), Z.mul_assoc, Z.div_mul by lia. nia.
Qed.

(** X27.  Setting duty cycles and reading them back: after
    [CmdSetDutyCycles] has accepted percentages from 0 to 100 with a period
    of at least 100 timer ticks, [CmdStatus] reports, for every percentage
    set, that percentage or one less (the raw value is rounded down when it
    is stored and again when it is reported); when the period is a multiple
    of 100 it reports exactly the percentages set. *)
Theorem CmdStatus_after_CmdSetDutyCycles (w : World) (ret ret2 : bytes)
    (args args2 : list bytes_view) (params : list Z) :
  mapM parse_u32 (drop 1 args) = Some params ->
  Forall (fun v => v <= 100) params ->
  100 <= u32 (ARR (htim2 w) + 1) ->
  let arr := u32 (ARR (htim2 w) + 1) in
  exists (w' : World) (answer : bytes) (reported : list Z),
    CmdSetDutyCycles w ret args = Done (w', answer)
    /\ CmdStatus w' ret2 args2
       = Done (w', ret2 ++ kStatusResp
                   ++ [32; 48 + (if isPwmGenerated (gDeviceState w) then 1 else 0)]
                   ++ (32 :: format_d (TIMER_FREQ w / arr))
                   ++ concat (map (fun percent => 32 :: format_d percent) reported))
    /\ Forall2 (fun set got => set - 1 <= got <= set) params reported
    /\ (arr mod 100 = 0 -> reported = params).
Proof.
  intros Hp Hle Harr arr.
  pose proof (mapM_parse_u32_range _ _ Hp) as Hrange.
  assert (Hall : Forall (fun v => 0 <= v <= 100) params).
  { rewrite list.Forall_forall in *. intros v Hv.
    specialize (Hle v Hv). specialize (Hrange v Hv). cbn in *. lia. }
  assert (Harr2 : 100 <= arr < 2 ^ 32).
  { split; [done|]. unfold arr, u32. apply Z.mod_pos_bound. lia. }
  unfold CmdSetDutyCycles.
  rewrite SetDutyCycles_parse_mapM, Hp. cbn [fmap option_fmap option_map app].
  rewrite SetDutyCycles_any_of_false by (done || lia).
  cbn [negb app]. rewrite Printf_cstring. cbn [mbind Exec_bind].
  set (reported := map (fun cnt => u32 (cnt * 100 / arr)) (map (scaled arr) params)).
  assert (Hrep : Forall2 (fun set got => set - 1 <= got <= set) params reported
                 /\ (arr mod 100 = 0 -> reported = params)).
  { unfold reported. clear -Hall Harr2.
    induction Hall as [|p params Hpr _ [IH1 IH2]]; [by split; [constructor|]|].
    cbn [map]. destruct (scaled_back arr p Hpr Harr2) as [Hb Hex]. split.
    - by constructor.
    - intros Hdiv. by rewrite Hex, IH2. }
  destruct Hrep as [Hrep1 Hrep2].
  assert (Hmm : forall l : list Z,
             map (fun cnt => 32 :: format_d (u32 (cnt * 100 / arr))) l
             = map (fun percent => 32 :: format_d percent)
                 (map (fun cnt => u32 (cnt * 100 / arr)) l))
    by (intros l; by rewrite map_map).
  eexists _, _, reported. split; [reflexivity|]. split; [|done].
  rewrite CmdStatus_result.
  - destruct (isPwmGenerated (gDeviceState w)) eqn:Hgen;
      cbn [gDeviceState htim2 dutyCycles isPwmGenerated set_dutyCycles
           set_userDutyCycles StartPWM StopPWM set_isPwmGenerated ARR userDutyCycles
           PCLK1Freq TIMER_FREQ]; rewrite ?Hgen; unfold reported;
      fold arr; rewrite Hmm; reflexivity.
  - destruct (isPwmGenerated (gDeviceState w));
      cbn [gDeviceState htim2 ARR StartPWM StopPWM set_isPwmGenerated
           set_dutyCycles set_userDutyCycles]; fold arr; lia.
Qed.

(** 33% with a period of 1000 reads back as 33; with a period of 250
    (witness of the theorem) every percentage reads back within one. *)
Lemma CmdStatus_after_CmdSetDutyCycles_witness :
  let w := mkWorld gDeviceState_init (mkHardware 42000000 249 0 true None) in
  let args := [bytes_of_string "SET_DUTY_CYCLES"; bytes_of_string "33";
               bytes_of_string "50"] in
  let arr := u32 (ARR (htim2 w) + 1) in
  exists (w' : World) (answer : bytes) (reported : list Z),
    CmdSetDutyCycles w [] args = Done (w', answer)
    /\ CmdStatus w' [] [bytes_of_string "STATUS"]
       = Done (w', [] ++ kStatusResp
                   ++ [32; 48 + (if isPwmGenerated (gDeviceState w) then 1 else 0)]
                   ++ (32 :: format_d (TIMER_FREQ w / arr))
                   ++ concat (map (fun percent => 32 :: format_d percent) reported))
    /\ Forall2 (fun set got => set - 1 <= got <= set) [33; 50] reported
    /\ (arr mod 100 = 0 -> reported = [33; 50]).
Proof.
  intros w args.
  apply (CmdStatus_after_CmdSetDutyCycles w [] [] args [bytes_of_string "STATUS"] [33; 50]).
  - vm_compute. reflexivity.
  - repeat constructor; lia.
  - vm_compute. congruence.
Defined.

(** ** usart_tx_handler.cpp: bytes from the ring onto the line *)

Section TransmitFacts.
Context {SIZE : Z}.
Implicit Type tx : Transmitter SIZE.
Implicit Type b : CircularBuffer SIZE.

Lemma contents_head b :
  cb_wf b -> contents b <> [] -> take 1 (contents b) = [at_ (buf b) (tail b)].
Proof.
  intros Hwf Hne. pose proof (contents_length b Hwf) as Hl.
  destruct (contents b) as [|x rest] eqn:Hc; [done|].
  pose proof (contents_lookup b 0) as H0. rewrite Hc in H0.
  unfold lsize in Hl. cbn [length] in Hl.
  specialize (H0 ltac:(lia)). injection H0 as ->.
  unfold peek. by rewrite tail_offset_0.
Qed.

Lemma contents_nil_iff b : cb_wf b -> (contents b = [] <-> head b = tail b).
Proof.
  intros Hwf. pose proof (contents_length b Hwf) as Hl.
  rewrite <- (used_zero_iff b Hwf). split.
  - intros Hc. rewrite Hc in Hl. by rewrite <- Hl.
  - intros Hu. destruct (contents b); [done | unfold lsize in Hl; cbn in Hl; lia].
Qed.

(** The copying loop takes bytes as long as there are some and the ring is
    not full. *)
Lemma UART_puts_loop_spec (left : list Z) :
  forall b (idx : Z),
    cb_wf b ->
    let n := Z.min (lsize left) (SIZE - 1 - used b) in
    exists b',
      UART_puts_loop left b idx = (b', idx + n)
      /\ cb_wf b' /\ used b' = used b + n
      /\ contents b' = contents b ++ take (Z.to_nat n) left.
Proof.
  induction left as [|x left IH]; intros b idx Hwf n; cbn [UART_puts_loop].
  - pose proof (used_below_capacity b Hwf).
    assert (Hn : n = 0) by (unfold n, lsize; cbn [length]; lia).
    rewrite Hn. exists b. by rewrite !Z.add_0_r, take_nil, app_nil_r.
  - pose proof (used_below_capacity b Hwf) as Hub.
    pose proof (full_iff b Hwf) as Hfull. unfold getCapacity.
    destruct (Z.eqb_spec ((head b + 1) mod SIZE) (tail b)) as [Heq|Hne]; cbn [negb].
    + apply Hfull in Heq.
      assert (Hn : n = 0) by (unfold n, lsize; cbn [length]; lia).
      rewrite Hn. exists b. by rewrite !Z.add_0_r, take_0, app_nil_r.
    + assert (Hroom : used b < SIZE - 1).
      { destruct (Z.eq_dec (used b) (SIZE - 1)) as [Hu|]; [|lia]. by apply Hfull in Hu. }
      destruct (contents_produce b x Hwf Hroom) as (Hwf1 & Hu1 & Hc1).
      destruct (IH _ (idx + 1) Hwf1) as (b' & Hloop & Hwf' & Hu' & Hc').
      rewrite Hu1 in Hloop, Hu', Hc'.
      assert (Hn : n = 1 + Z.min (lsize left) (SIZE - 1 - (used b + 1)))
        by (unfold n, lsize; cbn [length]; lia).
      exists b'. rewrite Hloop, Hu', Hc', Hc1, Hn.
      split; [f_equal; lia|]. split; [done|]. split; [lia|].
      rewrite <- app_assoc. cbn [app]. f_equal.
      replace (Z.to_nat (1 + Z.min (lsize left) (SIZE - 1 - (used b + 1))))
        with (S (Z.to_nat (Z.min (lsize left) (SIZE - 1 - (used b + 1)))))
        by (unfold lsize; lia).
      reflexivity.
Qed.

Lemma UART_puts_spec (v : list Z) tx :
  tx_ok tx ->
  let n := Z.min (lsize v) (SIZE - 1 - used (buffer tx)) in
  exists tx',
    UART_puts v tx = (tx', n)
    /\ tx_ok tx'
    /\ contents (buffer tx') = contents (buffer tx) ++ take (Z.to_nat n) v
    /\ used (buffer tx') = used (buffer tx) + n
    /\ on_the_way tx' = on_the_way tx ++ take (Z.to_nat n) v.
Proof.
  intros [Hwf Hbusy] n. unfold UART_puts.
  destruct (UART_puts_loop_spec v (buffer tx) 0 Hwf) as (b' & Hloop & Hwf' & Hu' & Hc').
  fold n in Hloop, Hu', Hc'. rewrite Hloop. cbn [Z.add busy line].
  pose proof (contents_nil_iff b' Hwf') as Hnil.
  unfold on_the_way, tx_ok.
  destruct (busy tx) eqn:Hb.
  - destruct Hbusy as [Hne [older Hline]].
    rewrite andb_false_r. eexists. split; [reflexivity|].
    cbn [buffer busy line]. rewrite Hc'.
    assert (Hpos : (1 <= length (contents (buffer tx)))%nat)
      by (destruct (contents (buffer tx)); [done | cbn; lia]).
    split; [|split; [done|split; [done|]]].
    + split; [done|]. split.
      * intros Happ. apply app_eq_nil in Happ as [? _]. done.
      * exists older. by rewrite take_app_le.
    + by rewrite drop_app_le, app_assoc.
  - rewrite Hbusy in Hc'. cbn [app] in Hc'. cbn [negb]. rewrite andb_true_r.
    destruct (Z.eqb_spec (head b') (tail b')) as [Heq|Hne]; cbn [negb].
    + apply Hnil in Heq. eexists. split; [reflexivity|].
      cbn [buffer busy line]. rewrite Hbusy, Heq.
      split; [done|]. rewrite <- Hc', Heq. cbn [drop app]. by rewrite !app_nil_r.
    + assert (Hne' : contents b' <> []) by (intros H; by apply Hnil in H).
      eexists. split; [reflexivity|].
      unfold HAL_UART_Transmit_IT. cbn [buffer busy line].
      rewrite <- (contents_head b' Hwf' Hne').
      split; [|split; [by rewrite Hbusy|split; [done|]]].
      * split; [done|]. split; [done|]. by exists (line tx).
      * rewrite Hbusy. cbn [drop]. rewrite app_nil_r, <- app_assoc, take_drop.
        by rewrite Hc'.
Qed.

Lemma TxCplt_spec tx :
  tx_ok tx -> busy tx = true ->
  let tx' := HAL_UART_TxCpltCallback huart2 tx in
  tx_ok tx'
  /\ contents (buffer tx') = drop 1 (contents (buffer tx))
  /\ line tx' = line tx ++ take 1 (drop 1 (contents (buffer tx)))
  /\ used (buffer tx') = used (buffer tx) - 1.
Proof.
  intros [Hwf Hbusy] Hb tx'. rewrite Hb in Hbusy. destruct Hbusy as [Hne [older Hline]].
  pose proof (contents_length (buffer tx) Hwf) as Hl.
  pose proof (used_below_capacity (buffer tx) Hwf) as Hub.
  assert (Hpos : 1 <= used (buffer tx)).
  { destruct (contents (buffer tx)); [done | unfold lsize in Hl; cbn in Hl; lia]. }
  set (b1 := set_tail (buffer tx) ((tail (buffer tx) + 1) mod SIZE)).
  assert (Hwf1 : cb_wf b1) by (by apply cb_wf_set_tail).
  assert (Hc1 : contents b1 = drop 1 (contents (buffer tx)))
    by (apply (contents_set_tail (buffer tx) 1); [done | lia]).
  assert (Hu1 : used b1 = used (buffer tx) - 1)
    by (apply (used_set_tail (buffer tx) 1); [done | lia]).
  pose proof (contents_nil_iff b1 Hwf1) as Hnil.
  unfold tx', HAL_UART_TxCpltCallback, getCapacity. cbn [is_huart2 negb buffer busy line].
  fold b1. change (head b1) with (head (buffer tx)).
  destruct (Z.eqb_spec ((tail (buffer tx) + 1) mod SIZE) (head (buffer tx))) as [Heq|Hneq].
  - assert (Hempty : contents b1 = []) by (apply Hnil; symmetry; exact Heq).
    unfold tx_ok. cbn [buffer busy line]. rewrite <- Hc1, Hempty.
    by rewrite take_nil, app_nil_r.
  - assert (Hne1 : contents b1 <> []).
    { intros H. apply Hnil in H. unfold b1 in H. cbn [set_tail head tail] in H. congruence. }
    unfold HAL_UART_Transmit_IT, tx_ok. cbn [buffer busy line]. rewrite Hb.
    change (at_ (buf b1) ((tail (buffer tx) + 1) mod SIZE))
      with (at_ (buf b1) (tail b1)).
    rewrite <- (contents_head b1 Hwf1 Hne1), <- Hc1.
    split; [|done]. split; [done|]. split; [done|]. by exists (line tx).
Qed.

Lemma take_1_drop_1 {A} (l : list A) (k : nat) :
  take 1 l ++ take k (drop 1 l) = take (S k) l.
Proof. destruct l; cbn; [by rewrite take_nil | by rewrite drop_0]. Qed.

(** What [k] completions do: the next [k] waiting bytes go onto the line,
    in the order in which they were put into the ring. *)
Lemma completions_spec (k : nat) :
  forall tx,
    tx_ok tx ->
    tx_ok (completions k tx)
    /\ contents (buffer (completions k tx)) = drop k (contents (buffer tx))
    /\ line (completions k tx) = line tx ++ take k (drop 1 (contents (buffer tx)))
    /\ used (buffer (completions k tx)) = Z.max 0 (used (buffer tx) - Z.of_nat k)
    /\ on_the_way (completions k tx) = on_the_way tx.
Proof.
  induction k as [|k IH]; intros tx Hok; cbn [completions].
  - pose proof Hok as [Hwf ?]. pose proof (used_below_capacity _ Hwf).
    rewrite drop_0, take_0, app_nil_r.
    split; [done|]. split; [done|]. split; [done|]. split; [lia|done].
  - destruct (busy tx) eqn:Hb.
    + destruct (TxCplt_spec tx Hok Hb) as (Hok1 & Hc1 & Hl1 & Hu1).
      destruct (IH _ Hok1) as (Hok2 & Hc2 & Hl2 & Hu2 & Hw2).
      split; [done|]. rewrite Hc2, Hl2, Hu2, Hc1, Hl1, Hu1, drop_drop.
      split; [done|]. split; [by rewrite <- app_assoc, take_1_drop_1|].
      split; [lia|]. rewrite Hw2. unfold on_the_way.
      by rewrite Hl1, Hc1, <- app_assoc, take_drop.
    + pose proof Hok as [Hwf Hidle]. rewrite Hb in Hidle.
      pose proof (contents_length _ Hwf) as Hlen. rewrite Hidle in Hlen.
      rewrite Hidle, !drop_nil, take_nil, app_nil_r.
      split; [done|]. split; [done|]. split; [done|]. split; [|done].
      unfold lsize in Hlen. cbn in Hlen. lia.
Qed.

(** The sending loop gets all its bytes into the ring, in order. *)
Lemma SendData_loop_spec (serialized : list Z) (turns : nat) :
  forall (wrote : Z) (irqs : list nat) tx,
    tx_ok tx -> 2 <= SIZE ->
    0 <= wrote <= lsize serialized ->
    (Z.to_nat (lsize serialized - wrote) < turns)%nat ->
    can_progress tx (lsize serialized - wrote) irqs ->
    exists tx',
      SendData_loop turns serialized wrote irqs tx = Some tx'
      /\ tx_ok tx'
      /\ on_the_way tx' = on_the_way tx ++ drop (Z.to_nat wrote) serialized.
Proof.
  induction turns as [|turns IH]; intros wrote irqs tx Hok HS Hw Ht Hprog; [lia|].
  cbn [SendData_loop].
  destruct (Z.ltb_spec wrote (lsize serialized)) as [Hlt|Hge].
  - destruct (completions_spec (hd 0%nat irqs) tx Hok) as (Hok1 & Hc1 & _ & Hu1 & Hw1).
    remember (completions (hd 0%nat irqs) tx) as tx1 eqn:Htx1.
    destruct (UART_puts_spec (drop (Z.to_nat wrote) serialized) tx1 Hok1)
      as (tx2 & Hputs & Hok2 & Hc2 & Hu2 & Hw2).
    rewrite Hputs.
    assert (Hdl : lsize (drop (Z.to_nat wrote) serialized) = lsize serialized - wrote)
      by (unfold lsize in *; rewrite length_drop; lia).
    rewrite Hdl in *.
    remember (Z.min (lsize serialized - wrote) (SIZE - 1 - used (buffer tx1))) as n eqn:Hndef.
    pose proof Hok as [Hwf _]. pose proof (used_below_capacity _ Hwf) as Hub.
    (* at least one byte is taken *)
    assert (Hn : 1 <= n <= lsize serialized - wrote
                 /\ can_progress tx2 (lsize serialized - (wrote + n)) (tl irqs)).
    { destruct Hprog as [Hroom | [Hall Hlen]].
      - split; [lia|]. left. lia.
      - destruct irqs as [|k irqs]; [unfold lsize in *; cbn [length] in Hlen; lia|].
        apply Forall_cons_1 in Hall as [Hk Hall]. cbn [hd tl] in *.
        split; [lia|]. right. split; [done|].
        unfold lsize in *. cbn [length] in Hlen. lia. }
    destruct Hn as [Hn Hprog2].
    destruct (IH (wrote + n) (tl irqs) tx2) as (tx' & Hloop & Hok' & Hw'); try done; try lia.
    exists tx'. split; [done|]. split; [done|].
    rewrite Hw', Hw2, Hw1, <- app_assoc. f_equal.
    transitivity (take (Z.to_nat n) (drop (Z.to_nat wrote) serialized)
                  ++ drop (Z.to_nat n) (drop (Z.to_nat wrote) serialized));
      [|apply take_drop].
    f_equal. rewrite drop_drop. f_equal. lia.
  - exists tx. split; [done|]. split; [done|].
    rewrite drop_ge by (unfold lsize in *; lia). by rewrite app_nil_r.
Qed.
End TransmitFacts.

(** X28.  [UART_puts] takes as many bytes of [v], from the front, as the
    transmit ring has free places (one place always stays unused), puts them
    behind the bytes already waiting and returns their number; it starts a
    transmission when none is in flight and something waits. *)
Theorem UART_puts_takes_what_fits (SIZE : Z) (v : list Z) (tx : Transmitter SIZE) :
  tx_ok tx ->
  let n := Z.min (lsize v) (SIZE - 1 - used (buffer tx)) in
  exists tx',
    UART_puts v tx = (tx', n)
    /\ contents (buffer tx') = contents (buffer tx) ++ take (Z.to_nat n) v
    /\ on_the_way tx' = on_the_way tx ++ take (Z.to_nat n) v
    /\ (busy tx' = true <-> contents (buffer tx') <> [])
    /\ tx_ok tx'.
Proof.
  intros Hok n.
  destruct (UART_puts_spec v tx Hok) as (tx' & Hputs & Hok' & Hc & _ & Hw).
  exists tx'. repeat (split; [done|]). split; [|done].
  destruct Hok' as [_ Hb]. destruct (busy tx'); [by destruct Hb | by rewrite Hb].
Qed.

Lemma UART_puts_takes_what_fits_witness :
  let tx : Transmitter 4 := mkTransmitter (mkCircularBuffer 3 0 [0; 0; 0; 65]) true [65] in
  exists tx',
    UART_puts [66; 67; 68] tx = (tx', 2)
    /\ contents (buffer tx') = [65] ++ [66; 67]
    /\ on_the_way tx' = [65] ++ [66; 67]
    /\ (busy tx' = true <-> contents (buffer tx') <> [])
    /\ tx_ok tx'.
Proof.
  intros tx. apply (UART_puts_takes_what_fits 4 [66; 67; 68] tx).
  unfold tx_ok, cb_wf. vm_compute. split; [intuition congruence|].
  split; [congruence | by exists []].
Defined.

(** X29.  The completion callback sends the waiting bytes one per call, in
    the order in which they were put into the ring: after [k] calls the line
    carries the next [k] waiting bytes, and once as many calls have run as
    bytes were held the ring is empty, nothing is in flight and every byte
    has gone out exactly once. *)
Theorem TxCplt_sends_in_order (SIZE : Z) (tx : Transmitter SIZE) (k : nat) :
  tx_ok tx ->
  let tx' := completions k tx in
  line tx' = line tx ++ take k (drop 1 (contents (buffer tx)))
  /\ contents (buffer tx') = drop k (contents (buffer tx))
  /\ tx_ok tx'
  /\ (used (buffer tx) <= Z.of_nat k ->
      busy tx' = false /\ contents (buffer tx') = [] /\ line tx' = on_the_way tx).
Proof.
  intros Hok tx'.
  destruct (completions_spec k tx Hok) as (Hok' & Hc & Hl & _ & _). fold tx' in Hok', Hc, Hl.
  repeat (split; [done|]). intros Hk.
  pose proof Hok as [Hwf _]. pose proof (contents_length _ Hwf) as Hlen.
  assert (Hnil : contents (buffer tx') = [])
    by (rewrite Hc; apply drop_ge; unfold lsize in Hlen; lia).
  split; [|split; [done|]].
  - destruct Hok' as [_ Hb]. destruct (busy tx'); [by destruct Hb | done].
  - rewrite Hl. unfold on_the_way. f_equal. apply take_ge.
    rewrite length_drop. unfold lsize in Hlen. lia.
Qed.

Lemma TxCplt_sends_in_order_witness :
  let tx : Transmitter 4 := mkTransmitter (mkCircularBuffer 3 2 [66; 67; 0; 65]) true [65] in
  let tx' := completions 3 tx in
  line tx' = [65] ++ take 3 (drop 1 [65; 66; 67])
  /\ contents (buffer tx') = drop 3 [65; 66; 67]
  /\ tx_ok tx'
  /\ (used (buffer tx) <= Z.of_nat 3 ->
      busy tx' = false /\ contents (buffer tx') = [] /\ line tx' = on_the_way tx).
Proof.
  intros tx. apply (TxCplt_sends_in_order 4 tx 3).
  unfold tx_ok, cb_wf. vm_compute. split; [intuition congruence|].
  split; [congruence | by exists []].
Defined.

(** X30.  [SendData] gets the whole serialized frame onto the line, in
    order and behind what was already waiting, whenever the ring has room
    for it or transmissions keep ending while it waits: the loop over
    [UART_puts] ends, and once the ring has drained the line carries the
    earlier bytes followed by exactly the frame. *)
Theorem SendData_sends_whole_frame (SIZE : Z) (turns : nat) (receiver : Z)
    (payload : bytes_view) (irqs : list nat) (tx : Transmitter SIZE) (wire : list Z) :
  tx_ok tx -> 2 <= SIZE ->
  SendData receiver payload = Some wire ->
  (length wire < turns)%nat ->
  can_progress tx (lsize wire) irqs ->
  exists tx',
    SendData_uart turns receiver payload irqs tx = Some tx'
    /\ tx_ok tx'
    /\ on_the_way tx' = on_the_way tx ++ wire
    /\ line (completions (Z.to_nat (used (buffer tx'))) tx') = on_the_way tx ++ wire.
Proof.
  intros Hok HS Hsend Hturns Hprog. unfold SendData in Hsend. unfold SendData_uart.
  destruct (serialize_into _ _) as [err serialized].
  destruct (negb (is_SerializeOk err)); [done|]. injection Hsend as <-.
  destruct (SendData_loop_spec (span serialized) turns 0 irqs tx) as (tx' & Hloop & Hok' & Hw);
    try done.
  - unfold lsize. lia.
  - rewrite Z.sub_0_r. unfold lsize. lia.
  - by rewrite Z.sub_0_r.
  - rewrite drop_0 in Hw. exists tx'. repeat (split; [done|]).
    destruct (completions_spec (Z.to_nat (used (buffer tx'))) tx' Hok') as (_ & _ & Hl & _ & _).
    rewrite Hl, <- Hw. unfold on_the_way. f_equal. apply take_ge.
    pose proof Hok' as [Hwf' _]. pose proof (contents_length _ Hwf') as Hlen.
    rewrite length_drop. unfold lsize in Hlen. lia.
Qed.

Lemma SendData_sends_whole_frame_witness :
  let tx : Transmitter 8 := mkTransmitter (mkCircularBuffer 0 0 (replicate 8 0)) false [] in
  let wire := [40; 100; 7; 0; 2; 79; 75; 214; 81; 175; 58; 41] in
  exists tx',
    SendData_uart 13 7 [79; 75] (replicate 12 1%nat) tx = Some tx'
    /\ tx_ok tx'
    /\ on_the_way tx' = on_the_way tx ++ wire
    /\ line (completions (Z.to_nat (used (buffer tx'))) tx') = on_the_way tx ++ wire.
Proof.
  intros tx wire.
  apply (SendData_sends_whole_frame 8 13 7 [79; 75] (replicate 12 1%nat) tx wire).
  - unfold tx_ok, cb_wf. vm_compute. intuition congruence.
  - lia.
  - vm_compute. reflexivity.
  - vm_compute. lia.
  - right. split; [|vm_compute; congruence].
    repeat constructor.
Defined.
